(** * obsidian-mcp: canvas validation, safe file mutation, trash, search, listing

    A shallow embedding of the tool handlers of the obsidian-mcp server
    (TypeScript) and the properties its specification states about them.

    Conventions of the embedding.
    - A JavaScript string is a [string] that holds its text; a file's text
      is the string the code reads or writes through the utf-8 codec.  What
      JavaScript does with the characters of a string beyond comparing two
      strings for equality, concatenating them and looking for ASCII
      characters in them, that is trimming, case folding and the order of
      [sort], is left to the runtime.
    - An [async] function is a computation in the monad [M] of section
      "File system": it threads the file store and the log of what was
      done, and it either returns or throws.
    - What Node provides (path, JSON, URL, Date, the string methods) and
      the modules of the repository that the tools import from utils/ are the fields of
      the classes [NodeRuntime] and [RepoUtils]; the theorems hold for every
      instance, and one executable instance is given for the examples. *)

From Stdlib Require Import ZArith List Ascii String Bool Lia Sorting.Sorted Sorting.Permutation.
From stdpp Require Import base option list gmap strings pretty.

Set Warnings "-register-all".

Local Open Scope string_scope.
Local Open Scope Z_scope.
Local Open Scope list_scope.

(** Characters that a string literal cannot hold directly. *)
Definition nl : string := String "010"%char EmptyString.
Definition dquote : string := String "034"%char EmptyString.

(** [Array.prototype.join]. *)
Fixpoint join (sep : string) (l : list string) : string :=
  match l with
  | [] => ""
  | [x] => x
  | x :: l' => x +:+ sep +:+ join sep l'
  end.

(** [String.prototype.startsWith] and [endsWith]. *)
Definition startsWith (s pre : string) : bool := String.prefix pre s.

Definition endsWith (s suf : string) : bool :=
  let n := String.length s in
  let k := String.length suf in
  (k <=? n)%nat && String.eqb (String.substring (n - k) k s) suf.

(** [String.prototype.split] on a one-character separator. *)
Fixpoint split_on (sep : ascii) (s : string) : list string :=
  match s with
  | EmptyString => [""]
  | String c s' =>
      if Ascii.eqb c sep then "" :: split_on sep s'
      else match split_on sep s' with
           | l :: ls => String c l :: ls
           | [] => [String c ""]
           end
  end.

(** [Array.prototype.includes] and [Set.prototype.has] on strings. *)
Definition inb (k : string) (l : list string) : bool := existsb (String.eqb k) l.

(** * JSON values *)

Module Json.

(** A number as [JSON.parse] produces it.  A finite double is a finite
    decimal [m * 10^e]; a literal too large for a double becomes an
    infinity.  [JSON.parse] never yields NaN. *)
Inductive number :=
| Finite (m e : Z)
| Infinite (negative : bool).

Inductive value :=
| JNull
| JBool (b : bool)
| JNumber (n : number)
| JString (s : string)
| JArray (items : list value)
| JObject (members : list (string * value)).

(** Own-property read [o[k]]; [None] is [undefined]. *)
Fixpoint get (k : string) (ms : list (string * value)) : option value :=
  match ms with
  | [] => None
  | (k', v) :: ms' => if String.eqb k k' then Some v else get k ms'
  end.

(** Own-property write [o[k] = v]: an existing key keeps its place. *)
Fixpoint set (k : string) (v : value) (ms : list (string * value)) : list (string * value) :=
  match ms with
  | [] => [(k, v)]
  | (k', v') :: ms' => if String.eqb k k' then (k, v) :: ms' else (k', v') :: set k v ms'
  end.

Definition keys (ms : list (string * value)) : list string := map fst ms.

(** Property read [v.k] on a parsed value; [None] is [undefined]. *)
Definition field (k : string) (v : value) : option value :=
  match v with
  | JObject members => get k members
  | _ => None
  end.

(** [Number.isInteger]. *)
Definition isInteger (n : number) : bool :=
  match n with
  | Finite m e => if 0 <=? e then true else m mod (10 ^ (- e)) =? 0
  | Infinite _ => false
  end.

(** [n <= 0]. *)
Definition nonpositive (n : number) : bool :=
  match n with
  | Finite m _ => m <=? 0
  | Infinite negative => negative
  end.

End Json.

Import Json.

(** * The zod combinators the canvas schema is built from *)

Module Zod.

Inductive path_seg :=
| PKey (k : string)
| PIndex (i : nat).

Inductive string_validation :=
| v_regex
| v_url
| v_startsWith (prefix : string).

Inductive issue_code :=
| invalid_type (expected received : string)
| invalid_literal (expected : string)
| unrecognized_keys (keys : list string)
| invalid_union
| invalid_union_discriminator (options : list string)
| invalid_enum_value (options : list string) (received : string)
| invalid_string (validation : string_validation)
| too_small (minimum : Z) (type : string) (inclusive : bool).

Record issue := mkIssue {
  code : issue_code;
  path : list path_seg;
  message : string
}.

(** zod's [util.joinValues]: strings are quoted with single quotes. *)
Definition joinValues (vals : list string) (sep : string) : string :=
  join sep (map (fun v => "'" +:+ v +:+ "'") vals).

(** zod's default error map, for the issue codes above. *)
Definition defaultErrorMap (c : issue_code) : string :=
  match c with
  | invalid_type expected received =>
      if String.eqb received "undefined" then "Required"
      else "Expected " +:+ expected +:+ ", received " +:+ received
  | invalid_literal expected =>
      "Invalid literal value, expected " +:+ dquote +:+ expected +:+ dquote
  | unrecognized_keys ks =>
      "Unrecognized key(s) in object: " +:+ joinValues ks ", "
  | invalid_union => "Invalid input"
  | invalid_union_discriminator opts =>
      "Invalid discriminator value. Expected " +:+ joinValues opts " | "
  | invalid_enum_value opts received =>
      "Invalid enum value. Expected " +:+ joinValues opts " | " +:+ ", received '" +:+ received +:+ "'"
  | invalid_string v_regex => "Invalid"
  | invalid_string v_url => "Invalid url"
  | invalid_string (v_startsWith p) =>
      "Invalid input: must start with " +:+ dquote +:+ p +:+ dquote
  | too_small minimum type inclusive =>
      if String.eqb type "string"
      then "String must contain " +:+ (if inclusive then "at least" else "over") +:+ " "
           +:+ pretty minimum +:+ " character(s)"
      else "Number must be " +:+ (if inclusive then "greater than or equal to " else "greater than ")
           +:+ pretty minimum
  end.

(** [addIssueToContext]: the issue's path is the path of the value being
    parsed followed by the path the issue data gives, the message is the
    schema's own when it has one. *)
Definition addIssue (p : list path_seg) (sub : list path_seg) (c : issue_code)
    (custom : option string) : issue :=
  {| code := c; path := p ++ sub; message := default (defaultErrorMap c) custom |}.

(** [ParseStatus]. *)
Inductive status := valid | dirty | aborted.

Definition merge_status (a b : status) : status :=
  match a, b with
  | aborted, _ | _, aborted => aborted
  | dirty, _ | _, dirty => dirty
  | valid, valid => valid
  end.

Definition parse_return : Type := status * list issue.

(** [ParseStatus.mergeArray] / [mergeObjectSync] over results that were
    produced in order. *)
Definition merge_results (rs : list parse_return) : parse_return :=
  (fold_right merge_status valid (map fst rs), concat (map snd rs)).

(** [getParsedType] on a value read from parsed JSON. *)
Definition parsedType (input : option value) : string :=
  match input with
  | None => "undefined"
  | Some JNull => "null"
  | Some (JBool _) => "boolean"
  | Some (JNumber _) => "number"
  | Some (JString _) => "string"
  | Some (JArray _) => "array"
  | Some (JObject _) => "object"
  end.

Inductive string_check :=
| check_min (n : nat)
| check_regex (test : string -> bool) (msg : option string)
| check_startsWith (prefix : string)
| check_url.

Inductive number_check :=
| check_int
| check_positive.

Inductive unknown_keys := strip | strict_keys (msg : option string).

Inductive schema :=
| z_string (checks : list string_check)
| z_number (checks : list number_check)
| z_literal (v : string)
| z_enum (values : list string)
| z_optional (inner : schema)
| z_union (options : list schema)
| z_array (element : schema)
| z_object (shape : list (string * schema)) (unknownKeys : unknown_keys)
| z_discriminatedUnion (discriminator : string) (options : list schema).

(** [{...a, ...b}] on shapes. *)
Fixpoint shape_set (k : string) (s : schema) (sh : list (string * schema)) : list (string * schema) :=
  match sh with
  | [] => [(k, s)]
  | (k', s') :: sh' => if String.eqb k k' then (k, s) :: sh' else (k', s') :: shape_set k s sh'
  end.

Definition shape_spread (a b : list (string * schema)) : list (string * schema) :=
  fold_left (fun acc ks => shape_set (fst ks) (snd ks) acc) b a.

(** [ZodObject.extend] and [ZodObject.strict]; on another schema they are
    not defined in zod and leave it alone here. *)
Definition extend (base : schema) (augmentation : list (string * schema)) : schema :=
  match base with
  | z_object shape uk => z_object (shape_spread shape augmentation) uk
  | _ => base
  end.

Definition strict (msg : option string) (s : schema) : schema :=
  match s with
  | z_object shape _ => z_object shape (strict_keys msg)
  | _ => s
  end.

Fixpoint shape_get (k : string) (sh : list (string * schema)) : option schema :=
  match sh with
  | [] => None
  | (k', s) :: sh' => if String.eqb k k' then Some s else shape_get k sh'
  end.

(** The discriminator value an option of a discriminated union answers to. *)
Definition discriminator_of (disc : string) (opt : schema) : option string :=
  match opt with
  | z_object shape _ =>
      match shape_get disc shape with
      | Some (z_literal v) => Some v
      | _ => None
      end
  | _ => None
  end.

Section Parse.

(** [new URL(s)] does not throw. *)
Variable URL_canParse : string -> bool.

Definition run_string_check (p : list path_seg) (data : string) (c : string_check) : parse_return :=
  match c with
  | check_min n =>
      if (String.length data <? n)%nat
      then (dirty, [addIssue p [] (too_small (Z.of_nat n) "string" true) None])
      else (valid, [])
  | check_regex test msg =>
      if test data then (valid, [])
      else (dirty, [addIssue p [] (invalid_string v_regex) msg])
  | check_startsWith pre =>
      if startsWith data pre then (valid, [])
      else (dirty, [addIssue p [] (invalid_string (v_startsWith pre)) None])
  | check_url =>
      if URL_canParse data then (valid, [])
      else (dirty, [addIssue p [] (invalid_string v_url) None])
  end.

Definition run_number_check (p : list path_seg) (data : number) (c : number_check) : parse_return :=
  match c with
  | check_int =>
      if isInteger data then (valid, [])
      else (dirty, [addIssue p [] (invalid_type "integer" "float") None])
  | check_positive =>
      if nonpositive data
      then (dirty, [addIssue p [] (too_small 0 "number" false) None])
      else (valid, [])
  end.

(** [ZodArray._parse]: every item is parsed under its index. *)
Fixpoint parse_items (item : list path_seg -> option value -> parse_return)
    (p : list path_seg) (i : nat) (xs : list value) : list parse_return :=
  match xs with
  | [] => []
  | x :: xs' => item (p ++ [PIndex i]) (Some x) :: parse_items item p (S i) xs'
  end.

(** [ZodUnion._parse], synchronous: the first valid option wins, else the
    first dirty one, else an [invalid_union] issue. *)
Fixpoint union_result (p : list path_seg) (rs : list parse_return)
    (firstDirty : option parse_return) : parse_return :=
  match rs with
  | [] =>
      match firstDirty with
      | Some r => r
      | None => (aborted, [addIssue p [] invalid_union None])
      end
  | r :: rs' =>
      match fst r with
      | valid => (valid, [])
      | dirty => union_result p rs' (Some (default r firstDirty))
      | aborted => union_result p rs' firstDirty
      end
  end.

(** [optionsMap.get(discriminatorValue)] of a discriminated union, over
    the options paired with the value each answers to. *)
Fixpoint pick_option (data : option value) (os : list (option string * parse_return))
    : option parse_return :=
  match os with
  | [] => None
  | (d, r) :: os' =>
      match d, data with
      | Some v, Some (JString s) => if String.eqb s v then Some r else pick_option data os'
      | _, _ => pick_option data os'
      end
  end.

(** The unknown keys of a strict object: [for (const key in ctx.data)]. *)
Definition extraKeys (shape : list (string * schema)) (members : list (string * value)) : list string :=
  List.filter (fun k => negb (inb k (map fst shape))) (keys members).

Definition unknown_keys_result (p : list path_seg) (uk : unknown_keys) (extra : list string)
    : parse_return :=
  match uk with
  | strict_keys msg =>
      match extra with
      | [] => (valid, [])
      | _ => (dirty, [addIssue p [] (unrecognized_keys extra) msg])
      end
  | strip => (valid, [])
  end.

(** [_parse] of each schema class.  [p] is the path of [input] in the
    document, [None] is [undefined]. *)
Fixpoint parse (s : schema) (p : list path_seg) (input : option value) {struct s} : parse_return :=
  match s with
  | z_string checks =>
      match input with
      | Some (JString data) => merge_results (map (run_string_check p data) checks)
      | _ => (aborted, [addIssue p [] (invalid_type "string" (parsedType input)) None])
      end
  | z_number checks =>
      match input with
      | Some (JNumber data) => merge_results (map (run_number_check p data) checks)
      | _ => (aborted, [addIssue p [] (invalid_type "number" (parsedType input)) None])
      end
  | z_literal v =>
      match input with
      | Some (JString data) =>
          if String.eqb data v then (valid, [])
          else (aborted, [addIssue p [] (invalid_literal v) None])
      | _ => (aborted, [addIssue p [] (invalid_literal v) None])
      end
  | z_enum values =>
      match input with
      | Some (JString data) =>
          if inb data values then (valid, [])
          else (aborted, [addIssue p [] (invalid_enum_value values data) None])
      | _ => (aborted, [addIssue p [] (invalid_type (joinValues values " | ") (parsedType input)) None])
      end
  | z_optional inner =>
      match input with
      | None => (valid, [])
      | Some _ => parse inner p input
      end
  | z_union options =>
      union_result p (map (fun o => parse o p input) options) None
  | z_array element =>
      match input with
      | Some (JArray items) => merge_results (parse_items (parse element) p 0 items)
      | _ => (aborted, [addIssue p [] (invalid_type "array" (parsedType input)) None])
      end
  | z_object shape unknownKeys =>
      match input with
      | Some (JObject members) =>
          merge_results
            (map (fun ks => parse (snd ks) (p ++ [PKey (fst ks)]) (get (fst ks) members)) shape
             ++ [unknown_keys_result p unknownKeys (extraKeys shape members)])
      | _ => (aborted, [addIssue p [] (invalid_type "object" (parsedType input)) None])
      end
  | z_discriminatedUnion disc options =>
      match input with
      | Some (JObject members) =>
          match pick_option (get disc members)
                  (map (fun o => (discriminator_of disc o, parse o p input)) options) with
          | Some r => r
          | None =>
              (aborted,
               [addIssue p [PKey disc]
                  (invalid_union_discriminator (omap (discriminator_of disc) options)) None])
          end
      | _ => (aborted, [addIssue p [] (invalid_type "object" (parsedType input)) None])
      end
  end.

(** The result of [safeParse]: [handleResult]. *)
Inductive safe_result :=
| success
| failure (issues : list issue).

Definition safeParse (s : schema) (data : value) : safe_result :=
  let r := parse s [] (Some data) in
  match fst r with
  | valid => success
  | _ => failure (snd r)
  end.

(** [parse] is [safeParse] that throws the error: [inl] is the thrown
    ZodError's issues. *)
Definition parse_or_throw (s : schema) (data : value) : list issue + unit :=
  match safeParse s data with
  | success => inr tt
  | failure issues => inl issues
  end.

End Parse.

End Zod.

(** * Errors *)

(** [ErrorCode] of the MCP SDK. *)
Inductive ErrorCode :=
| ConnectionClosed
| RequestTimeout
| ParseError
| InvalidRequest
| MethodNotFound
| InvalidParams
| InternalError.

Definition ErrorCode_number (c : ErrorCode) : Z :=
  match c with
  | ConnectionClosed => -32000
  | RequestTimeout => -32001
  | ParseError => -32700
  | InvalidRequest => -32600
  | MethodNotFound => -32601
  | InvalidParams => -32602
  | InternalError => -32603
  end.

(** What [new McpError(code, message)] was given. *)
Record mcp_error := mkMcp {
  mcp_code : ErrorCode;
  mcp_message : string
}.

(** The values the tools throw and catch: an [McpError], or an error
    thrown by a file-system call. *)
Inductive js_error :=
| McpError (e : mcp_error)
| SystemError (msg : string).

(** [error instanceof McpError]. *)
Definition instanceof_McpError (e : js_error) : bool :=
  match e with
  | McpError _ => true
  | SystemError _ => false
  end.

(** [error instanceof Error ? error.message : String(error)]; the SDK's
    constructor prefixes the code to the message. *)
Definition error_message (e : js_error) : string :=
  match e with
  | McpError m => "MCP error " +:+ pretty (ErrorCode_number (mcp_code m)) +:+ ": " +:+ mcp_message m
  | SystemError msg => msg
  end.

(** [`${error}`]: the error's name and message. *)
Definition error_toString (e : js_error) : string :=
  match e with
  | McpError _ => "McpError: " +:+ error_message e
  | SystemError msg => "Error: " +:+ msg
  end.

(** * File system *)

Module Fs.

(** The calls into [fs] and the injected failures.  [faults n op] tells
    whether the call [op], made when [n] steps were already logged, fails;
    a failing write or copy may leave a [residue] at its destination. *)
Inductive fs_op :=
| op_access (p : string)
| op_copyFile (src dst : string)
| op_writeFile (p : string)
| op_readFile (p : string)
| op_unlink (p : string)
| op_rename (src dst : string)
| op_mkdir (p : string)
| op_readdir (p : string).

Record fault := mkFault {
  fault_message : string;
  fault_residue : option string
}.

Record environment := mkEnv {
  faults : nat -> fs_op -> option fault;
  clock : nat -> Z
}.

Inductive event :=
| ev_fs (op : fs_op) (ok : bool)
| ev_now (t : Z)
| ev_console_error (msg : string)
| ev_setTimeout (delay : Z) (unlinks : string).

(** The store maps an absolute path to the text of the regular file there;
    the log has the newest step first. *)
Record world := mkWorld {
  files : gmap string string;
  log : list event
}.

Inductive outcome (A : Type) :=
| returned (a : A)
| thrown (e : js_error).
Arguments returned {A} a.
Arguments thrown {A} e.

Definition M (A : Type) : Type := world -> outcome A * world.

Definition ret {A} (a : A) : M A := fun w => (returned a, w).

Definition throw {A} (e : js_error) : M A := fun w => (thrown e, w).

Definition bind {A B} (c : M A) (k : A -> M B) : M B := fun w =>
  match c w with
  | (returned a, w') => k a w'
  | (thrown e, w') => (thrown e, w')
  end.

(** [try { c } catch (error) { handler }]. *)
Definition try_catch {A} (c : M A) (handler : js_error -> M A) : M A := fun w =>
  match c w with
  | (returned a, w') => (returned a, w')
  | (thrown e, w') => handler e w'
  end.

Definition log_event (e : event) (w : world) : world :=
  {| files := files w; log := e :: log w |}.

Definition console_error (msg : string) : M unit := fun w =>
  (returned tt, log_event (ev_console_error msg) w).

(** [setTimeout(() => fs.unlink(p), delay)]: the deferred removal runs
    after the call has returned; the call only schedules it. *)
Definition setTimeout_unlink (p : string) (delay : Z) : M unit := fun w =>
  (returned tt, log_event (ev_setTimeout delay p) w).

Section Calls.

Variable env : environment.

(** A call into [fs]: it fails when the environment says so, or when
    [run] finds its precondition unmet; else it updates the store. *)
Definition attempt {A} (op : fs_op) (damage : string -> gmap string string -> gmap string string)
    (run : gmap string string -> string + (A * gmap string string)) : M A := fun w =>
  match faults env (length (log w)) op with
  | Some f =>
      (thrown (SystemError (fault_message f)),
       {| files := match fault_residue f with
                   | Some r => damage r (files w)
                   | None => files w
                   end;
          log := ev_fs op false :: log w |})
  | None =>
      match run (files w) with
      | inl msg => (thrown (SystemError msg), log_event (ev_fs op false) w)
      | inr (a, fs') => (returned a, {| files := fs'; log := ev_fs op true :: log w |})
      end
  end.

Definition ENOENT (p : string) : string :=
  "ENOENT: no such file or directory '" +:+ p +:+ "'".

Definition copyFile (src dst : string) : M unit :=
  attempt (op_copyFile src dst) (fun r fs => <[dst := r]> fs)
    (fun fs => match fs !! src with
               | Some c => inr (tt, <[dst := c]> fs)
               | None => inl (ENOENT src)
               end).

Definition writeFile (p data : string) : M unit :=
  attempt (op_writeFile p) (fun r fs => <[p := r]> fs)
    (fun fs => inr (tt, <[p := data]> fs)).

Definition readFile (p : string) : M string :=
  attempt (op_readFile p) (fun _ fs => fs)
    (fun fs => match fs !! p with
               | Some c => inr (c, fs)
               | None => inl (ENOENT p)
               end).

Definition unlink (p : string) : M unit :=
  attempt (op_unlink p) (fun _ fs => fs)
    (fun fs => match fs !! p with
               | Some _ => inr (tt, delete p fs)
               | None => inl (ENOENT p)
               end).

Definition rename (src dst : string) : M unit :=
  attempt (op_rename src dst) (fun _ fs => fs)
    (fun fs => match fs !! src with
               | Some c => inr (tt, <[dst := c]> (delete src fs))
               | None => inl (ENOENT src)
               end).

(** [Date.now()] and [new Date()]: milliseconds since the epoch. *)
Definition Date_now : M Z := fun w =>
  let t := clock env (length (log w)) in
  (returned t, log_event (ev_now t) w).

(** Modelled from the spec: [fileExists] of utils/files.js, which is not
    among the sources; it answers whether the path is present and never
    throws. *)
Definition fileExists (p : string) : M bool := fun w =>
  let present := bool_decide (is_Some (files w !! p)) in
  (returned present, log_event (ev_fs (op_access p) present) w).

(** Modelled from the spec: [ensureDirectory] of utils/files.js, which is
    not among the sources; the directory-creation step may fail and does
    not touch any regular file. *)
Definition ensureDirectory (dir : string) : M unit :=
  attempt (op_mkdir dir) (fun _ fs => fs) (fun fs => inr (tt, fs)).

End Calls.

End Fs.

Import Fs.

Declare Scope M_scope.
Delimit Scope M_scope with M.
Notation "x <- c ;; k" := (bind c (fun x => k))
  (at level 100, c at next level, right associativity) : M_scope.
Notation "c ;;; k" := (bind c (fun _ => k))
  (at level 100, right associativity) : M_scope.

Local Open Scope M_scope.

(** * What the tools import *)

(** [FileOperationResult] of types.ts. *)
Record FileOperationResult := mkResult {
  success : bool;
  message : string;
  path : string;
  operation : string
}.

(** Node's [path], [JSON], [URL] and [Date]. *)
Class NodeRuntime := {
  (** [path.join(...segments)] *)
  path_join : list string -> string;
  path_dirname : string -> string;
  (** [path.basename(p, ext)] *)
  path_basename : string -> string -> string;
  path_relative : string -> string -> string;
  (** [JSON.parse]: [inl] is the message of the SyntaxError it throws. *)
  JSON_parse : string -> string + value;
  (** [JSON.stringify(v, null, 2)] *)
  JSON_stringify : value -> string;
  (** [new URL(s)] does not throw. *)
  URL_canParse : string -> bool;
  (** [new Date(t).toISOString()] *)
  toISOString : Z -> string;
  (** [String.prototype.trim] *)
  trim : string -> string;
  (** [String.prototype.toLowerCase] *)
  toLowerCase : string -> string;
  (** [a <= b] in the order in which [Array.prototype.sort()] puts strings
      when it is given no comparator, the order of their UTF-16 code
      units; it is a total order. *)
  code_unit_leb : string -> string -> bool;
  code_unit_leb_total : forall a b, code_unit_leb a b = true \/ code_unit_leb b a = true;
  code_unit_leb_trans :
    forall a b c, code_unit_leb a b = true -> code_unit_leb b c = true ->
                  code_unit_leb a c = true;
  code_unit_leb_antisym :
    forall a b, code_unit_leb a b = true -> code_unit_leb b a = true -> a = b
}.

(** Modelled from the spec: the helpers of utils/path.js, utils/errors.js,
    utils/files.js, utils/tags.js and utils/responses.js, which the tools
    import and which are not among the sources.  The error helpers build
    [McpError]s (spec section 7); [validateVaultPath] returns the error it
    throws, if any. *)
Class RepoUtils := {
  ensureCanvasExtension : string -> string;
  ensureMarkdownExtension : string -> string;
  validateVaultPath : string -> string -> option js_error;
  safeJoinPath : string -> string -> js_error + string;
  normalizePath : string -> js_error + string;
  createCanvasNotFoundError : string -> mcp_error;
  createCanvasExistsError : string -> mcp_error;
  createNoteNotFoundError : string -> mcp_error;
  createInvalidJsonError : string -> string -> mcp_error;
  handleFsError : js_error -> string -> mcp_error;
  getAllMarkdownFiles : environment -> string -> string -> M (list string);
  extractTags : string -> list string;
  normalizeTag : string -> string;
  matchesTagPattern : string -> string -> bool;
  formatFileResult : FileOperationResult -> string
}.

(** * utils/canvas-schema.ts *)

Module CanvasSchema.

Import Zod.

Definition is_hex_digit (c : ascii) : bool :=
  let n := nat_of_ascii c in
  ((48 <=? n) && (n <=? 57) || (65 <=? n) && (n <=? 70) || (97 <=? n) && (n <=? 102))%nat.

(** [/^#[0-9A-Fa-f]{6}$/.test] *)
Definition hex_color_regex (s : string) : bool :=
  match s with
  | String "#"%char digits =>
      (String.length digits =? 6)%nat && forallb is_hex_digit (list_ascii_of_string digits)
  | _ => false
  end.

Definition canvasColorSchema : schema :=
  z_union [
    z_enum ["1"; "2"; "3"; "4"; "5"; "6"];
    z_string [check_regex hex_color_regex (Some "Must be a 6-digit hex color code starting with #")]
  ].

Definition genericNodeSchema : schema :=
  strict None (z_object [
    ("id", z_string [check_min 1]);
    ("x", z_number [check_int]);
    ("y", z_number [check_int]);
    ("width", z_number [check_int; check_positive]);
    ("height", z_number [check_int; check_positive]);
    ("color", z_optional canvasColorSchema)
  ] strip).

Definition textNodeSchema : schema :=
  strict None (extend genericNodeSchema [
    ("type", z_literal "text");
    ("text", z_string [])
  ]).

Definition fileNodeSchema : schema :=
  strict None (extend genericNodeSchema [
    ("type", z_literal "file");
    ("file", z_string [check_min 1]);
    ("subpath", z_optional (z_string [check_startsWith "#"]))
  ]).

Definition linkNodeSchema : schema :=
  strict None (extend genericNodeSchema [
    ("type", z_literal "link");
    ("url", z_string [check_url])
  ]).

Definition groupNodeSchema : schema :=
  strict None (extend genericNodeSchema [
    ("type", z_literal "group");
    ("label", z_optional (z_string []));
    ("background", z_optional (z_string []));
    ("backgroundStyle", z_optional (z_enum ["cover"; "ratio"; "repeat"]))
  ]).

Definition nodeSchema : schema :=
  z_discriminatedUnion "type" [
    textNodeSchema;
    fileNodeSchema;
    linkNodeSchema;
    groupNodeSchema
  ].

Definition edgeSchema : schema :=
  strict None (z_object [
    ("id", z_string [check_min 1]);
    ("fromNode", z_string [check_min 1]);
    ("fromSide", z_optional (z_enum ["top"; "right"; "bottom"; "left"]));
    ("fromEnd", z_optional (z_enum ["none"; "arrow"]));
    ("toNode", z_string [check_min 1]);
    ("toSide", z_optional (z_enum ["top"; "right"; "bottom"; "left"]));
    ("toEnd", z_optional (z_enum ["none"; "arrow"]));
    ("color", z_optional canvasColorSchema);
    ("label", z_optional (z_string []))
  ] strip).

Definition canvasSchema : schema :=
  strict (Some "Canvas object must only contain 'nodes' and 'edges' properties")
    (z_object [
       ("nodes", z_optional (z_array nodeSchema));
       ("edges", z_optional (z_array edgeSchema))
     ] strip).

End CanvasSchema.

Import CanvasSchema.

(** * The canvas and note tools *)

(** A JavaScript condition on an optional string: [undefined] and the
    empty string are falsy. *)
Definition truthy (s : option string) : bool :=
  match s with
  | Some s => negb (String.eqb s "")
  | None => false
  end.

(** [String(x)] of an optional string in a concatenation. *)
Definition js_string (s : option string) : string := default "undefined" s.

(** [e.path.join('.')] of a zod issue path. *)
Definition path_text (p : list Zod.path_seg) : string :=
  join "." (map (fun seg => match seg with
                            | Zod.PKey k => k
                            | Zod.PIndex i => pretty i
                            end) p).

Definition format_issue (e : Zod.issue) : string :=
  path_text (Zod.path e) +:+ ": " +:+ Zod.message e.

(** [EditOperation] of tools/edit-note. *)
Module Edit.

Inductive EditOperation := append | prepend | replace | delete.

Definition text (o : EditOperation) : string :=
  match o with
  | append => "append"
  | prepend => "prepend"
  | replace => "replace"
  | delete => "delete"
  end.

End Edit.

(** [CreateCanvasInput], [DeleteCanvasArgs]: the validated arguments. *)
Record CreateCanvasInput := {
  cc_vault : string;
  cc_filename : string;
  cc_content : string;
  cc_folder : option string
}.

Record DeleteCanvasArgs := {
  dc_vault : string;
  dc_filename : string;
  dc_folder : option string;
  dc_reason : option string;
  dc_permanent : bool
}.

Record ReadCanvasResult := {
  rc_result : FileOperationResult;
  rc_content : value
}.

Section Tools.

Context {node : NodeRuntime} {utils : RepoUtils}.
Variable env : environment.

(** [folder ? path.join(vaultPath, folder, name) : path.join(vaultPath, name)] *)
Definition target_path (vaultPath : string) (folder : option string) (name : string) : string :=
  if truthy folder
  then path_join [vaultPath; js_string folder; name]
  else path_join [vaultPath; name].

(** [`${fullPath}.${timestamp}.backup`] *)
Definition backup_path (fullPath : string) (timestamp : Z) : string :=
  fullPath +:+ "." +:+ pretty timestamp +:+ ".backup".

Definition check_vault_path {A} (vaultPath fullPath : string) (k : M A) : M A :=
  match validateVaultPath vaultPath fullPath with
  | Some e => throw e
  | None => k
  end.

(** [if (error instanceof McpError) throw error; throw handleFsError(error, what)] *)
Definition rethrow {A} (what : string) (error : js_error) : M A :=
  if instanceof_McpError error then throw error
  else throw (McpError (handleFsError error what)).

(** The refinement of [content] in the input schemas of create-canvas
    and edit-canvas. *)
Definition content_refine (content : string) : bool :=
  match JSON_parse content with
  | inr parsed =>
      match Zod.safeParse URL_canParse canvasSchema parsed with
      | Zod.success => true
      | Zod.failure _ => false
      end
  | inl _ => false
  end.

(** The check of [content] in [createCanvas] and [editCanvas]:
    [JSON.parse], then [canvasSchema.parse], each error converted. *)
Definition parse_content (sanitizedFilename content : string) : M value :=
  match JSON_parse content with
  | inr parsedContent =>
      match Zod.parse_or_throw URL_canParse canvasSchema parsedContent with
      | inr _ => ret parsedContent
      | inl errors =>
          throw (McpError {| mcp_code := InvalidParams;
                             mcp_message := "Invalid canvas JSON structure: "
                                            +:+ join ", " (map format_issue errors) |})
      end
  | inl msg => throw (McpError (createInvalidJsonError sanitizedFilename msg))
  end.

(** ** tools/create-canvas *)

Definition createCanvas (args : CreateCanvasInput) (vaultPath : string) : M FileOperationResult :=
  let sanitizedFilename := ensureCanvasExtension (cc_filename args) in
  let canvasPath := target_path vaultPath (cc_folder args) sanitizedFilename in
  check_vault_path vaultPath canvasPath
    (try_catch
       (_ <- parse_content sanitizedFilename (cc_content args) ;;
        let canvasDir := path_dirname canvasPath in
        ensureDirectory env canvasDir ;;;
        present <- fileExists canvasPath ;;
        if present then throw (McpError (createCanvasExistsError canvasPath))
        else
          writeFile env canvasPath (cc_content args) ;;;
          ret {| success := true;
                 message := "Canvas created successfully";
                 path := canvasPath;
                 operation := "create" |})
       (rethrow "create canvas")).

(** ** tools/read-canvas *)

Definition readCanvas (vaultPath filename : string) (folder : option string) : M ReadCanvasResult :=
  let sanitizedFilename := ensureCanvasExtension filename in
  let fullPath := target_path vaultPath folder sanitizedFilename in
  check_vault_path vaultPath fullPath
    (try_catch
       (present <- fileExists fullPath ;;
        if negb present then throw (McpError (createCanvasNotFoundError filename))
        else
          rawContent <- readFile env fullPath ;;
          match JSON_parse rawContent with
          | inr parsedContent =>
              ret {| rc_result := {| success := true;
                                     message := "Canvas read and parsed successfully";
                                     path := fullPath;
                                     operation := "edit" |};
                     rc_content := parsedContent |}
          | inl msg => throw (McpError (createInvalidJsonError filename msg))
          end)
       (rethrow "read canvas")).

(** The handler of the read-canvas tool: the text of its response. *)
Definition readCanvasTool (vaultPath filename : string) (folder : option string) : M string :=
  result <- readCanvas vaultPath filename folder ;;
  let formattedFileResult := formatFileResult (rc_result result) in
  let responseString := JSON_stringify (rc_content result) in
  ret (formattedFileResult +:+ nl +:+ nl +:+ "Canvas Content:" +:+ nl +:+ responseString).

(** ** tools/edit-canvas *)

Definition editCanvas (vaultPath filename content : string) (folder : option string)
    : M FileOperationResult :=
  let sanitizedFilename := ensureCanvasExtension filename in
  let fullPath := target_path vaultPath folder sanitizedFilename in
  check_vault_path vaultPath fullPath
    (timestamp <- Date_now env ;;
     let backupPath := backup_path fullPath timestamp in
     try_catch
       (present <- fileExists fullPath ;;
        if negb present then throw (McpError (createCanvasNotFoundError sanitizedFilename))
        else
          _ <- parse_content sanitizedFilename content ;;
          copyFile env fullPath backupPath ;;;
          try_catch
            (writeFile env fullPath content ;;;
             unlink env backupPath ;;;
             ret {| success := true;
                    message := "Canvas replaced successfully";
                    path := fullPath;
                    operation := "edit" |})
            (fun writeError =>
               kept <- fileExists backupPath ;;
               (if kept then
                  try_catch
                    (copyFile env backupPath fullPath ;;;
                     unlink env backupPath ;;;
                     console_error ("Restored canvas " +:+ fullPath
                                    +:+ " from backup after write error."))
                    (fun rollbackError =>
                       throw (McpError {|
                         mcp_code := InternalError;
                         mcp_message :=
                           "Failed to rollback canvas changes after write error. Original error: "
                           +:+ error_message writeError +:+ ". Rollback error: "
                           +:+ error_message rollbackError +:+ ". Backup file preserved at "
                           +:+ backupPath |}))
                else ret tt) ;;;
               throw writeError))
       (fun error =>
          kept <- fileExists backupPath ;;
          (if kept then
             try_catch (unlink env backupPath)
               (fun cleanupError =>
                  console_error ("Failed to cleanup backup file " +:+ backupPath
                                 +:+ " during error handling: " +:+ error_toString cleanupError))
           else ret tt) ;;;
          rethrow "edit canvas" error)).

End Tools.

Section NoteAndTrash.

Context {node : NodeRuntime} {utils : RepoUtils}.
Variable env : environment.

(** ** tools/edit-note *)

(** The new text of the note, for the three edits that write.  In a
    concatenation a missing [content] reads "undefined"; alone it stays
    [undefined], which [fs.writeFile] refuses. *)
Definition new_note_content (operation : Edit.EditOperation) (existingContent : string)
    (content : option string) : option string :=
  match operation with
  | Edit.append =>
      Some (trim existingContent
            +:+ (if String.eqb (trim existingContent) "" then "" else nl +:+ nl)
            +:+ js_string content)
  | Edit.prepend =>
      Some (js_string content
            +:+ (if String.eqb (trim existingContent) "" then "" else nl +:+ nl)
            +:+ trim existingContent)
  | _ => content
  end.

Definition writeFile_data (p : string) (data : option string) : M unit :=
  match data with
  | Some d => writeFile env p d
  | None => throw (SystemError "The data argument must be of type string or an instance of Buffer, TypedArray, or DataView. Received undefined")
  end.

Definition editNote (vaultPath filename : string) (operation : Edit.EditOperation)
    (content folder : option string) : M FileOperationResult :=
  let sanitizedFilename := ensureMarkdownExtension filename in
  let fullPath := target_path vaultPath folder sanitizedFilename in
  check_vault_path vaultPath fullPath
    (timestamp <- Date_now env ;;
     let backupPath := backup_path fullPath timestamp in
     try_catch
       ((match operation with
         | Edit.delete => ret tt
         | _ =>
             present <- fileExists fullPath ;;
             if present then copyFile env fullPath backupPath else ret tt
         end) ;;;
        match operation with
        | Edit.delete =>
            present <- fileExists fullPath ;;
            if negb present then throw (McpError (createNoteNotFoundError filename))
            else
              copyFile env fullPath backupPath ;;;
              unlink env fullPath ;;;
              setTimeout_unlink backupPath 5000 ;;;
              ret {| success := true;
                     message := "Note deleted successfully";
                     path := fullPath;
                     operation := "delete" |}
        | _ =>
            present <- fileExists fullPath ;;
            if negb present then throw (McpError (createNoteNotFoundError filename))
            else
              try_catch
                (existingContent <- readFile env fullPath ;;
                 let newContent := new_note_content operation existingContent content in
                 writeFile_data fullPath newContent ;;;
                 unlink env backupPath ;;;
                 ret {| success := true;
                        message := "Note " +:+ Edit.text operation +:+ "ed successfully";
                        path := fullPath;
                        operation := "edit" |})
                (fun error =>
                   kept <- fileExists backupPath ;;
                   (if kept then
                      try_catch
                        (copyFile env backupPath fullPath ;;;
                         unlink env backupPath)
                        (fun rollbackError =>
                           throw (McpError {|
                             mcp_code := InternalError;
                             mcp_message :=
                               "Failed to rollback changes. Original error: "
                               +:+ error_message error +:+ ". Rollback error: "
                               +:+ error_message rollbackError +:+ ". Backup file preserved at "
                               +:+ backupPath |}))
                    else ret tt) ;;;
                   throw error)
        end)
       (fun error =>
          kept <- fileExists backupPath ;;
          (if kept then
             try_catch
               (copyFile env backupPath fullPath ;;;
                unlink env backupPath)
               (fun rollbackError =>
                  console_error ("Failed to cleanup/restore backup during error handling: "
                                 +:+ error_message rollbackError))
           else ret tt) ;;;
          rethrow (Edit.text operation +:+ " note") error)).

(** ** tools/delete-canvas *)

Definition ensureTrashDirectory (vaultPath : string) : M string :=
  let trashPath := path_join [vaultPath; ".trash"] in
  ensureDirectory env trashPath ;;;
  ret trashPath.

(** [s.replace(/[:.]/g, "-")] *)
Fixpoint replace_colon_dot (s : string) : string :=
  match s with
  | String c s' =>
      String (if Ascii.eqb c ":" || Ascii.eqb c "." then "-"%char else c) (replace_colon_dot s')
  | EmptyString => EmptyString
  end.

(** [TrashMetadata] as the object handed to [JSON.stringify]: a property
    whose value is [undefined] is left out. *)
Definition TrashMetadata (originalPath deletedAt : string) (reason : option string) : value :=
  JObject ([("originalPath", JString originalPath); ("deletedAt", JString deletedAt)]
           ++ match reason with
              | Some r => [("reason", JString r)]
              | None => []
              end).

Definition trash_name (canvasRelativePath : string) (now : Z) : string :=
  let timestamp := replace_colon_dot (toISOString now) in
  let baseName := path_basename canvasRelativePath ".canvas" in
  baseName +:+ "_" +:+ timestamp +:+ ".canvas".

Definition moveCanvasToTrash (vaultPath canvasRelativePath : string) (reason : option string)
    : M string :=
  trashPath <- ensureTrashDirectory vaultPath ;;
  now <- Date_now env ;;
  let trashName := trash_name canvasRelativePath now in
  let trashFilePath := path_join [trashPath; trashName] in
  let trashMetaPath := trashFilePath +:+ ".meta.json" in
  deleted <- Date_now env ;;
  let metadata := TrashMetadata canvasRelativePath (toISOString deleted) reason in
  try_catch
    (rename env (path_join [vaultPath; canvasRelativePath]) trashFilePath ;;;
     writeFile env trashMetaPath (JSON_stringify metadata) ;;;
     ret trashName)
    (fun error =>
       try_catch (unlink env trashFilePath) (fun _ => ret tt) ;;;
       try_catch (unlink env trashMetaPath) (fun _ => ret tt) ;;;
       throw (McpError (handleFsError error "move canvas to trash"))).

Definition deleteCanvas (vaultPath canvasRelativePath : string) (permanent : bool)
    (reason : option string) : M string :=
  let fullPath := path_join [vaultPath; canvasRelativePath] in
  check_vault_path vaultPath fullPath
    (try_catch
       (present <- fileExists fullPath ;;
        if negb present then throw (McpError (createCanvasNotFoundError canvasRelativePath))
        else if permanent then
          unlink env fullPath ;;;
          ret ("Permanently deleted canvas " +:+ dquote +:+ canvasRelativePath +:+ dquote)
        else
          trashName <- moveCanvasToTrash vaultPath canvasRelativePath reason ;;
          ret ("Moved canvas " +:+ dquote +:+ canvasRelativePath +:+ dquote
               +:+ " to trash as " +:+ dquote +:+ trashName +:+ dquote))
       (rethrow "delete canvas")).

(** The handler of the delete-canvas tool. *)
Definition canvas_relative_path (args : DeleteCanvasArgs) : string :=
  let sanitizedFilename := ensureCanvasExtension (dc_filename args) in
  if truthy (dc_folder args)
  then path_join [js_string (dc_folder args); sanitizedFilename]
  else sanitizedFilename.

Definition deleteCanvasTool (args : DeleteCanvasArgs) (vaultPath : string) : M string :=
  deleteCanvas vaultPath (canvas_relative_path args) (dc_permanent args) (dc_reason args).

End NoteAndTrash.

(** * tools/search-vault *)

Module SearchVault.

(** [String.prototype.includes] *)
Definition includes (s sub : string) : bool :=
  match String.index 0 sub s with
  | Some _ => true
  | None => false
  end.

(** [content.split("\n")] *)
Definition split_lines (s : string) : list string := split_on "010" s.

(** [s.slice(n)] *)
Definition slice_from (n : nat) (s : string) : string :=
  String.substring n (String.length s - n) s.

Inductive SearchType := content | filename | both.

Record SearchOptions := {
  path : option string;
  caseSensitive : bool;
  searchType : SearchType
}.

Record SearchMatch := {
  line : nat;
  text : string
}.

Record SearchResult := {
  file : string;
  matches : list SearchMatch
}.

Record SearchOperationResult := {
  success : bool;
  message : string;
  results : list SearchResult;
  totalMatches : nat;
  matchedFiles : nat
}.

Section Search.

Context {node : NodeRuntime} {utils : RepoUtils}.
Variable env : environment.

Definition isTagSearch (query : string) : bool := startsWith query "tag:".

Definition normalizeTagQuery (query : string) : string :=
  normalizeTag (slice_from 4 query).

(** [options.path ? safeJoinPath(vaultPath, options.path) : vaultPath] *)
Definition search_dir (vaultPath : string) (options : SearchOptions) : M string :=
  if truthy (path options) then
    match safeJoinPath vaultPath (js_string (path options)) with
    | inr dir => ret dir
    | inl e => throw e
    end
  else ret vaultPath.

Definition filename_match (vaultPath query : string) (options : SearchOptions) (f : string)
    : list SearchResult :=
  let searchQuery := if caseSensitive options then query else toLowerCase query in
  let relativePath := path_relative vaultPath f in
  let searchTarget := if caseSensitive options then relativePath else toLowerCase relativePath in
  if includes searchTarget searchQuery
  then [{| file := relativePath;
           matches := [{| line := 0; text := "Filename match: " +:+ relativePath |}] |}]
  else [].

Definition searchFilenames (vaultPath query : string) (options : SearchOptions)
    : M (list SearchResult) :=
  try_catch
    (searchDir <- search_dir vaultPath options ;;
     files <- getAllMarkdownFiles env vaultPath searchDir ;;
     ret (flat_map (filename_match vaultPath query options) files))
    (rethrow "search filenames").

(** The body of [lines.forEach]: does this line match? *)
Definition line_matches (query : string) (options : SearchOptions) (l : string) : bool :=
  if isTagSearch query then
    let normalizedTagQuery := normalizeTagQuery query in
    existsb (fun tag =>
               let normalizedTag := normalizeTag tag in
               String.eqb normalizedTag normalizedTagQuery
               || matchesTagPattern normalizedTagQuery normalizedTag)
            (extractTags l)
  else
    let searchQuery := if caseSensitive options then query else toLowerCase query in
    let searchLine := if caseSensitive options then l else toLowerCase l in
    includes searchLine searchQuery.

Fixpoint collect_matches (query : string) (options : SearchOptions) (index : nat)
    (lines : list string) : list SearchMatch :=
  match lines with
  | [] => []
  | l :: lines' =>
      (if line_matches query options l
       then [{| line := index + 1; text := trim l |}]
       else [])
      ++ collect_matches query options (S index) lines'
  end.

(** The body of [for (const file of files)] in [searchContent]: a file
    that cannot be read is reported on the console and skipped. *)
Definition search_file (vaultPath query : string) (options : SearchOptions) (f : string)
    : M (list SearchResult) :=
  try_catch
    (text <- readFile env f ;;
     let lines := split_lines text in
     let found := collect_matches query options 0 lines in
     ret (match found with
          | [] => []
          | _ => [{| file := path_relative vaultPath f; matches := found |}]
          end))
    (fun err =>
       console_error ("Error reading file " +:+ f +:+ ": " +:+ error_toString err) ;;;
       ret []).

Fixpoint search_files (vaultPath query : string) (options : SearchOptions)
    (files : list string) (results : list SearchResult) : M (list SearchResult) :=
  match files with
  | [] => ret results
  | f :: files' =>
      found <- search_file vaultPath query options f ;;
      search_files vaultPath query options files' (results ++ found)
  end.

Definition searchContent (vaultPath query : string) (options : SearchOptions)
    : M (list SearchResult) :=
  try_catch
    (searchDir <- search_dir vaultPath options ;;
     files <- getAllMarkdownFiles env vaultPath searchDir ;;
     search_files vaultPath query options files [])
    (rethrow "search content").

(** One of the two guarded sub-searches of [searchVault]: its results are
    added, or its error is. *)
Definition sub_search (label : string) (run : M (list SearchResult))
    (acc : list SearchResult * list string) : M (list SearchResult * list string) :=
  try_catch
    (found <- run ;;
     ret (fst acc ++ found, snd acc))
    (fun error =>
       ret (fst acc,
            snd acc ++ [if instanceof_McpError error
                        then label +:+ " search error: " +:+ error_message error
                        else label +:+ " search failed: " +:+ error_message error])).

Definition wants_filename (t : SearchType) : bool :=
  match t with filename | both => true | content => false end.

Definition wants_content (t : SearchType) : bool :=
  match t with content | both => true | filename => false end.

(** [results.reduce((sum, result) => sum + result.matches.length, 0)] *)
Definition count_matches (rs : list SearchResult) : nat :=
  fold_left (fun sum result => (sum + length (matches result))%nat) rs 0%nat.

(** What [searchVault] does with the results and errors it gathered. *)
Definition conclude (rs : list SearchResult) (errors : list string) : M SearchOperationResult :=
  let totalMatches := count_matches rs in
  if (0 <? length rs)%nat && (0 <? length errors)%nat then
    ret {| success := true;
           message := "Search completed with warnings:" +:+ nl +:+ join nl errors;
           results := rs;
           totalMatches := totalMatches;
           matchedFiles := length rs |}
  else if (length rs =? 0)%nat && (0 <? length errors)%nat then
    throw (McpError {| mcp_code := InternalError;
                       mcp_message := "Search failed:" +:+ nl +:+ join nl errors |})
  else
    ret {| success := true;
           message := "Search completed successfully";
           results := rs;
           totalMatches := totalMatches;
           matchedFiles := length rs |}.

Definition gather (normalizedVaultPath query : string) (options : SearchOptions)
    : M (list SearchResult * list string) :=
  acc <- (if wants_filename (searchType options)
          then sub_search "Filename" (searchFilenames normalizedVaultPath query options) ([], [])
          else ret ([], [])) ;;
  if wants_content (searchType options)
  then sub_search "Content" (searchContent normalizedVaultPath query options) acc
  else ret acc.

Definition searchVault (vaultPath query : string) (options : SearchOptions)
    : M SearchOperationResult :=
  try_catch
    (match normalizePath vaultPath with
     | inl e => throw e
     | inr normalizedVaultPath =>
         acc <- gather normalizedVaultPath query options ;;
         conclude (fst acc) (snd acc)
     end)
    (rethrow "search vault").

End Search.

(** The line [searchVault] keeps for a sub-search that threw [e]. *)
Definition sub_error (label : string) (e : js_error) : string :=
  if instanceof_McpError e
  then label +:+ " search error: " +:+ error_message e
  else label +:+ " search failed: " +:+ error_message e.

(** The two successful results of [searchVault]. *)
Definition warned (rs : list SearchResult) (errors : list string) : SearchOperationResult :=
  {| success := true;
     message := "Search completed with warnings:" +:+ nl +:+ join nl errors;
     results := rs;
     totalMatches := count_matches rs;
     matchedFiles := length rs |}.

Definition completed (rs : list SearchResult) : SearchOperationResult :=
  {| success := true;
     message := "Search completed successfully";
     results := rs;
     totalMatches := count_matches rs;
     matchedFiles := length rs |}.

End SearchVault.

(** * The list-files tool *)

Module ListFiles.

(** A directory as [fs.readdir(dir, { withFileTypes: true })] shows it,
    with what each subdirectory holds; [None] is a directory that cannot
    be read. *)
Inductive Dirent :=
| file_entry (name : string)
| dir_entry (name : string) (listing : option (list Dirent))
| other_entry (name : string).

Definition entry_name (e : Dirent) : string :=
  match e with
  | file_entry n | dir_entry n _ | other_entry n => n
  end.

Section Listing.

Context {node : NodeRuntime}.

(** [Array.prototype.sort()] on strings: ascending by code units. *)
Fixpoint insert_sorted (x : string) (l : list string) : list string :=
  match l with
  | [] => [x]
  | y :: l' => if code_unit_leb x y then x :: l else y :: insert_sorted x l'
  end.

Definition sort (l : list string) : list string := fold_right insert_sorted [] l.

(** What the callbacks of one [entries.map] leave in [files]: the paths
    pushed before any callback waits, then what the subdirectories gave. *)
Definition gathered (rs : list (list string * list string)) : list string :=
  concat (map fst rs) ++ concat (map snd rs).

(** The callback of [entries.map] in [listFilesRecursive]: the path it
    pushes at once, and the paths its subdirectory yields when the
    recursive call completes. *)
Fixpoint visit (dirPath vaultPath : string) (ignored : list string) (entry : Dirent)
    {struct entry} : list string * list string :=
  let fullPath := path_join [dirPath; entry_name entry] in
  let relativePath := path_relative vaultPath fullPath in
  if inb (entry_name entry) ignored || startsWith (entry_name entry) "."
  then ([], [])
  else
    match entry with
    | dir_entry _ (Some entries) =>
        ([], gathered (map (visit fullPath vaultPath ignored) entries))
    | dir_entry _ None => ([], [])
    | file_entry _ => ([relativePath], [])
    | other_entry _ => ([], [])
    end.

Definition listFilesRecursive (dirPath vaultPath : string) (ignored : list string)
    (listing : option (list Dirent)) : list string :=
  match listing with
  | Some entries => gathered (map (visit dirPath vaultPath ignored) entries)
  | None => []
  end.

Definition listVaultFiles (vaultPath : string) (root : option (list Dirent)) : list string :=
  let ignored := [".obsidian"; ".trash"; "node_modules"] in
  let allFiles := listFilesRecursive vaultPath vaultPath ignored root in
  sort allFiles.

End Listing.

(** A name that the listing shows: not hidden, and not [node_modules]. *)
Definition visible (name : string) : Prop :=
  startsWith name "." = false /\ name <> "node_modules".

(** [reaches_file entries names]: going down from a directory with the
    given entries through the directories [names] names, one arrives at
    the regular file that the last name names. *)
Inductive reaches_file : list Dirent -> list string -> Prop :=
| reach_file entries name :
    In (file_entry name) entries -> reaches_file entries [name]
| reach_below entries name below names :
    In (dir_entry name (Some below)) entries ->
    reaches_file below names ->
    reaches_file entries (name :: names).

(** The path of the entry reached from [dirPath] through [names], as the
    recursion builds it with [path.join]. *)
Definition entry_path {node : NodeRuntime} (dirPath : string) (names : list string) : string :=
  fold_left (fun dir name => path_join [dir; name]) names dirPath.


End ListFiles.

(** * An executable runtime

    One instance of [NodeRuntime] and of [RepoUtils], on which the tools
    run inside Rocq.  [JSON.parse] and [JSON.stringify] follow ECMA-404 and
    the ECMAScript number-to-string rules; a number literal is kept as the
    decimal it denotes, without rounding to binary64. *)

Module JsonText.

Definition is_digit (c : ascii) : bool :=
  let n := nat_of_ascii c in ((48 <=? n) && (n <=? 57))%nat.

Definition digit_value (c : ascii) : Z := Z.of_nat (nat_of_ascii c) - 48.

Definition hex_value (c : ascii) : option Z :=
  let n := Z.of_nat (nat_of_ascii c) in
  if (48 <=? n) && (n <=? 57) then Some (n - 48)
  else if (65 <=? n) && (n <=? 70) then Some (n - 55)
  else if (97 <=? n) && (n <=? 102) then Some (n - 87)
  else None.

Fixpoint skip_ws (s : string) : string :=
  match s with
  | String c s' =>
      let n := nat_of_ascii c in
      if ((n =? 32) || (n =? 9) || (n =? 10) || (n =? 13))%nat then skip_ws s' else s
  | EmptyString => EmptyString
  end.

(** The digits at the head of [s]: their value, how many, and the rest. *)
Fixpoint take_digits (s : string) (acc : Z) (count : nat) : Z * nat * string :=
  match s with
  | String c s' => if is_digit c then take_digits s' (10 * acc + digit_value c) (S count)
                   else (acc, count, s)
  | EmptyString => (acc, count, s)
  end.

Definition byte (n : Z) : ascii := ascii_of_nat (Z.to_nat n).

(** The utf-8 bytes of a code unit given by a [\u] escape. *)
Definition utf8 (u : Z) : string :=
  if u <? 128 then String (byte u) ""
  else if u <? 2048 then String (byte (192 + u / 64)) (String (byte (128 + u mod 64)) "")
  else String (byte (224 + u / 4096))
         (String (byte (128 + (u / 64) mod 64)) (String (byte (128 + u mod 64)) "")).

(** The characters of a string literal after its opening quote. *)
Fixpoint parse_chars (fuel : nat) (s : string) : option (string * string) :=
  match fuel with
  | O => None
  | S fuel' =>
      match s with
      | EmptyString => None
      | String c rest =>
          if Ascii.eqb c "034" then Some ("", rest)
          else if Ascii.eqb c "\" then
            match rest with
            | String e rest' =>
                let simple (b : ascii) :=
                  match parse_chars fuel' rest' with
                  | Some (t, r) => Some (String b t, r)
                  | None => None
                  end in
                if Ascii.eqb e "034" then simple "034"%char
                else if Ascii.eqb e "\" then simple "\"%char
                else if Ascii.eqb e "/" then simple "/"%char
                else if Ascii.eqb e "b" then simple "008"%char
                else if Ascii.eqb e "f" then simple "012"%char
                else if Ascii.eqb e "n" then simple "010"%char
                else if Ascii.eqb e "r" then simple "013"%char
                else if Ascii.eqb e "t" then simple "009"%char
                else if Ascii.eqb e "u" then
                  match rest' with
                  | String h1 (String h2 (String h3 (String h4 rest''))) =>
                      match hex_value h1, hex_value h2, hex_value h3, hex_value h4 with
                      | Some a, Some b, Some c', Some d =>
                          match parse_chars fuel' rest'' with
                          | Some (t, r) => Some (utf8 (4096 * a + 256 * b + 16 * c' + d) +:+ t, r)
                          | None => None
                          end
                      | _, _, _, _ => None
                      end
                  | _ => None
                  end
                else None
            | EmptyString => None
            end
          else if (nat_of_ascii c <? 32)%nat then None
          else
            match parse_chars fuel' rest with
            | Some (t, r) => Some (String c t, r)
            | None => None
            end
      end
  end.

Definition parse_string (s : string) : option (string * string) :=
  parse_chars (S (String.length s)) s.

(** A number literal: [-? int frac? exp?]. *)
Definition parse_number (s : string) : option (number * string) :=
  let '(negative, s1) :=
    match s with
    | String "-" r => (true, r)
    | _ => (false, s)
    end in
  let '(int, nint, s2) := take_digits s1 0 0 in
  let leading_zero := match s1 with String "0" _ => true | _ => false end in
  if (nint =? 0)%nat || (leading_zero && (1 <? nint)%nat) then None
  else
    let frac :=
      match s2 with
      | String "." r =>
          let '(f, nf, r') := take_digits r 0 0 in
          if (nf =? 0)%nat then None else Some (int * 10 ^ Z.of_nat nf + f, nf, r')
      | _ => Some (int, 0%nat, s2)
      end in
    match frac with
    | None => None
    | Some (m, nf, s3) =>
        let finish (ex : Z) (r : string) :=
          Some (Finite (if negative then - m else m) (ex - Z.of_nat nf), r) in
        match s3 with
        | String c r =>
            if Ascii.eqb c "e" || Ascii.eqb c "E" then
              let '(minus, r1) :=
                match r with
                | String "-" r' => (true, r')
                | String "+" r' => (false, r')
                | _ => (false, r)
                end in
              let '(ex, ne, r2) := take_digits r1 0 0 in
              if (ne =? 0)%nat then None else finish (if minus then - ex else ex) r2
            else finish 0 s3
        | EmptyString => finish 0 s3
        end
    end.

Definition expect (word : string) (v : value) (s : string) : option (value * string) :=
  if String.prefix word s
  then Some (v, String.substring (String.length word) (String.length s - String.length word) s)
  else None.

Fixpoint parse_value (fuel : nat) (s : string) {struct fuel} : option (value * string) :=
  match fuel with
  | O => None
  | S fuel' =>
      match skip_ws s with
      | EmptyString => None
      | String c rest as s0 =>
          if Ascii.eqb c "n" then expect "null" JNull s0
          else if Ascii.eqb c "t" then expect "true" (JBool true) s0
          else if Ascii.eqb c "f" then expect "false" (JBool false) s0
          else if Ascii.eqb c "034" then
            match parse_string rest with
            | Some (t, r) => Some (JString t, r)
            | None => None
            end
          else if Ascii.eqb c "[" then
            match skip_ws rest with
            | String "]" r => Some (JArray [], r)
            | _ => parse_elements fuel' rest []
            end
          else if Ascii.eqb c "{" then
            match skip_ws rest with
            | String "}" r => Some (JObject [], r)
            | _ => parse_members fuel' rest []
            end
          else
            match parse_number s0 with
            | Some (n, r) => Some (JNumber n, r)
            | None => None
            end
      end
  end
with parse_elements (fuel : nat) (s : string) (acc : list value) {struct fuel}
    : option (value * string) :=
  match fuel with
  | O => None
  | S fuel' =>
      match parse_value fuel' s with
      | Some (v, r) =>
          match skip_ws r with
          | String "," r' => parse_elements fuel' r' (acc ++ [v])
          | String "]" r' => Some (JArray (acc ++ [v]), r')
          | _ => None
          end
      | None => None
      end
  end
with parse_members (fuel : nat) (s : string) (acc : list (string * value)) {struct fuel}
    : option (value * string) :=
  match fuel with
  | O => None
  | S fuel' =>
      match skip_ws s with
      | String "034" r0 =>
          match parse_string r0 with
          | Some (k, r1) =>
              match skip_ws r1 with
              | String ":" r2 =>
                  match parse_value fuel' r2 with
                  | Some (v, r3) =>
                      match skip_ws r3 with
                      | String "," r4 => parse_members fuel' r4 (Json.set k v acc)
                      | String "}" r4 => Some (JObject (Json.set k v acc), r4)
                      | _ => None
                      end
                  | None => None
                  end
              | _ => None
              end
          | None => None
          end
      | _ => None
      end
  end.

(** [JSON.parse] *)
Definition parse (s : string) : string + value :=
  match parse_value (2 * String.length s + 2) s with
  | Some (v, r) =>
      match skip_ws r with
      | EmptyString => inr v
      | _ => inl "Unexpected non-whitespace character after JSON"
      end
  | None => inl "Unexpected token in JSON"
  end.

End JsonText.

Module JsonPrint.

Fixpoint zeros (n : nat) : string :=
  match n with
  | O => ""
  | S n' => String "0" (zeros n')
  end.

Fixpoint strip_zeros (fuel : nat) (m e : Z) : Z * Z :=
  match fuel with
  | O => (m, e)
  | S fuel' =>
      if (m mod 10 =? 0) && negb (m =? 0) then strip_zeros fuel' (m / 10) (e + 1) else (m, e)
  end.

(** [Number::toString] of a finite number, from its shortest digits. *)
Definition number_toString (m e : Z) : string :=
  if m =? 0 then "0"
  else
    let '(a, e') := strip_zeros (Z.to_nat (Z.log2 (Z.abs m) + 1)) (Z.abs m) e in
    let digits : string := pretty a in
    let k := Z.of_nat (String.length digits) in
    let n := k + e' in
    let body :=
      if (k <=? n) && (n <=? 21) then digits +:+ zeros (Z.to_nat (n - k))
      else if (0 <? n) && (n <=? 21) then
        String.substring 0 (Z.to_nat n) digits +:+ "."
        +:+ String.substring (Z.to_nat n) (Z.to_nat (k - n)) digits
      else if (-6 <? n) && (n <=? 0) then "0." +:+ zeros (Z.to_nat (- n)) +:+ digits
      else
        let ex := n - 1 in
        let es := (if ex <? 0 then "-" else "+") +:+ pretty (Z.abs ex) in
        if k =? 1 then digits +:+ "e" +:+ es
        else String.substring 0 1 digits +:+ "."
             +:+ String.substring 1 (Z.to_nat (k - 1)) digits +:+ "e" +:+ es in
    (if m <? 0 then "-" else "") +:+ body.

Definition hex_digit (n : nat) : ascii :=
  ascii_of_nat (if (n <? 10)%nat then 48 + n else 87 + n).

(** [QuoteJSONString] *)
Fixpoint quote_chars (s : string) : string :=
  match s with
  | EmptyString => ""
  | String c s' =>
      let n := nat_of_ascii c in
      (if (n =? 34)%nat then "\" +:+ dquote
       else if (n =? 92)%nat then "\\"
       else if (n =? 8)%nat then "\b"
       else if (n =? 9)%nat then "\t"
       else if (n =? 10)%nat then "\n"
       else if (n =? 12)%nat then "\f"
       else if (n =? 13)%nat then "\r"
       else if (n <? 32)%nat then
         "\u00" +:+ String (hex_digit (n / 16)) (String (hex_digit (n mod 16)) "")
       else String c "")
      +:+ quote_chars s'
  end.

Definition quote (s : string) : string := dquote +:+ quote_chars s +:+ dquote.

Fixpoint stringify_at (indent : string) (v : value) {struct v} : string :=
  let inner := indent +:+ "  " in
  match v with
  | JNull => "null"
  | JBool b => if b then "true" else "false"
  | JNumber (Finite m e) => number_toString m e
  | JNumber (Infinite _) => "null"
  | JString s => quote s
  | JArray [] => "[]"
  | JArray items =>
      "[" +:+ nl +:+ inner
      +:+ join ("," +:+ nl +:+ inner) (map (stringify_at inner) items)
      +:+ nl +:+ indent +:+ "]"
  | JObject [] => "{}"
  | JObject members =>
      "{" +:+ nl +:+ inner
      +:+ join ("," +:+ nl +:+ inner)
            (map (fun kv => quote (fst kv) +:+ ": " +:+ stringify_at inner (snd kv)) members)
      +:+ nl +:+ indent +:+ "}"
  end.

(** [JSON.stringify(v, null, 2)] *)
Definition stringify (v : value) : string := stringify_at "" v.

End JsonPrint.

(** POSIX [path], on the segments of a path. *)
Module PosixPath.

Definition nonempty (s : string) : bool := negb (String.eqb s "").

Definition step (absolute : bool) (acc : list string) (seg : string) : list string :=
  if String.eqb seg "" || String.eqb seg "." then acc
  else if String.eqb seg ".." then
    match acc with
    | top :: rest => if String.eqb top ".." then seg :: acc else rest
    | [] => if absolute then [] else [seg]
    end
  else seg :: acc.

Definition segments (absolute : bool) (p : string) : list string :=
  rev (fold_left (step absolute) (split_on "/" p) []).

Definition normalize (p : string) : string :=
  if String.eqb p "" then "."
  else
    let absolute := startsWith p "/" in
    let trailing := endsWith p "/" in
    let body := join "/" (segments absolute p) in
    if String.eqb body "" then (if absolute then "/" else if trailing then "./" else ".")
    else (if absolute then "/" else "") +:+ body +:+ (if trailing then "/" else "").

Definition join_paths (parts : list string) : string :=
  let joined := join "/" (List.filter nonempty parts) in
  if String.eqb joined "" then "." else normalize joined.

Definition dirname (p : string) : string :=
  let absolute := startsWith p "/" in
  let segs := List.filter nonempty (split_on "/" p) in
  let parent := join "/" (removelast segs) in
  if absolute then "/" +:+ parent
  else if String.eqb parent "" then "." else parent.

Definition basename (p ext : string) : string :=
  let base := List.last (List.filter nonempty (split_on "/" p)) "" in
  if nonempty ext && negb (String.eqb base ext) && endsWith base ext
  then String.substring 0 (String.length base - String.length ext) base
  else base.

Fixpoint drop_common (a b : list string) : list string * list string :=
  match a, b with
  | x :: a', y :: b' => if String.eqb x y then drop_common a' b' else (a, b)
  | _, _ => (a, b)
  end.

Definition relative (from to : string) : string :=
  let '(up, down) := drop_common (segments true from) (segments true to) in
  join "/" (map (fun _ => "..") up ++ down).

End PosixPath.

Module IsoDate.

Definition pad (width : nat) (s : string) : string :=
  JsonPrint.zeros (width - String.length s) +:+ s.

Definition field (width : nat) (n : Z) : string := pad width (pretty n).

(** [Date.prototype.toISOString] for the years 0000 to 9999. *)
Definition toISOString (t : Z) : string :=
  let days := t / 86400000 in
  let ms := t mod 86400000 in
  let z := days + 719468 in
  let era := z / 146097 in
  let doe := z - era * 146097 in
  let yoe := (doe - doe / 1460 + doe / 36524 - doe / 146096) / 365 in
  let doy := doe - (365 * yoe + yoe / 4 - yoe / 100) in
  let mp := (5 * doy + 2) / 153 in
  let d := doy - (153 * mp + 2) / 5 + 1 in
  let m := if mp <? 10 then mp + 3 else mp - 9 in
  let y := yoe + era * 400 + (if m <=? 2 then 1 else 0) in
  field 4 y +:+ "-" +:+ field 2 m +:+ "-" +:+ field 2 d +:+ "T"
  +:+ field 2 (ms / 3600000) +:+ ":" +:+ field 2 ((ms / 60000) mod 60) +:+ ":"
  +:+ field 2 ((ms / 1000) mod 60) +:+ "." +:+ field 3 (ms mod 1000) +:+ "Z".

End IsoDate.

Definition is_alpha (c : ascii) : bool :=
  let n := nat_of_ascii c in
  ((65 <=? n) && (n <=? 90) || (97 <=? n) && (n <=? 122))%nat.

Definition is_scheme_char (c : ascii) : bool :=
  let n := nat_of_ascii c in
  is_alpha c || ((48 <=? n) && (n <=? 57) || (n =? 43) || (n =? 45) || (n =? 46))%nat.

(** An absolute URL has a scheme, [ALPHA *( ALPHA / DIGIT / + / - / . )],
    then a colon, then something. *)
Definition has_scheme (s : string) : bool :=
  match String.index 0 ":" s with
  | Some i =>
      let scheme := String.substring 0 i s in
      match scheme with
      | String c _ =>
          is_alpha c && forallb is_scheme_char (list_ascii_of_string scheme)
          && (S i <? String.length s)%nat
      | EmptyString => false
      end
  | None => false
  end.

(** The string methods on ASCII text: they agree with JavaScript's on
    strings of ASCII characters, which is where the examples use them. *)
Module AsciiText.

Definition is_ws (c : ascii) : bool :=
  let n := nat_of_ascii c in
  ((9 <=? n) && (n <=? 13) || (n =? 32))%nat.

Fixpoint trimStart (s : string) : string :=
  match s with
  | String c s' => if is_ws c then trimStart s' else s
  | EmptyString => EmptyString
  end.

Fixpoint trimEnd (s : string) : string :=
  match s with
  | String c s' =>
      match trimEnd s' with
      | EmptyString => if is_ws c then EmptyString else String c EmptyString
      | t => String c t
      end
  | EmptyString => EmptyString
  end.

Definition trim (s : string) : string := trimEnd (trimStart s).

Definition toLowerCase_char (c : ascii) : ascii :=
  let n := nat_of_ascii c in
  if ((65 <=? n) && (n <=? 90))%nat then ascii_of_nat (n + 32) else c.

Fixpoint toLowerCase (s : string) : string :=
  match s with
  | String c s' => String (toLowerCase_char c) (toLowerCase s')
  | EmptyString => EmptyString
  end.

End AsciiText.

(** The runtime of the examples.  Its order of strings is the order of
    their characters' codes, which is total ([String.leb_total]),
    antisymmetric ([String.leb_antisym]) and transitive. *)
Definition posix : NodeRuntime.
Proof.
  refine {|
    path_join := PosixPath.join_paths;
    path_dirname := PosixPath.dirname;
    path_basename := PosixPath.basename;
    path_relative := PosixPath.relative;
    JSON_parse := JsonText.parse;
    JSON_stringify := JsonPrint.stringify;
    URL_canParse := has_scheme;
    toISOString := IsoDate.toISOString;
    trim := AsciiText.trim;
    toLowerCase := AsciiText.toLowerCase;
    code_unit_leb := String.leb;
    code_unit_leb_total := String.leb_total;
    code_unit_leb_trans := _;
    code_unit_leb_antisym := String.leb_antisym
  |}.
  unfold String.leb. intros a.
  induction a as [|x a IH]; intros [|y b] [|z c]; simpl; try congruence.
  unfold Ascii.compare.
  destruct (N.compare_spec (N_of_ascii x) (N_of_ascii y)) as [Hxy|Hxy|Hxy]; try congruence;
    destruct (N.compare_spec (N_of_ascii y) (N_of_ascii z)) as [Hyz|Hyz|Hyz]; try congruence;
    intros H1 H2.
  - rewrite Hxy, Hyz, N.compare_refl. now apply (IH b c).
  - rewrite Hxy. apply N.compare_lt_iff in Hyz. now rewrite Hyz.
  - rewrite <- Hyz. apply N.compare_lt_iff in Hxy. now rewrite Hxy.
  - assert (N_of_ascii x < N_of_ascii z)%N as Hxz by (eapply N.lt_trans; eassumption).
    apply N.compare_lt_iff in Hxz. now rewrite Hxz.
Defined.

(** Modelled from the spec: the helpers of utils/, which are not among the
    sources, as sections 4.1, 6 and 7 of the specification describe them. *)
Module SpecUtils.

Definition ensureExtension (ext name : string) : string :=
  if endsWith name ext then name else name +:+ ext.

(** Section 4.1: a resolved path must be the vault root or below it. *)
Definition validateVaultPath (vaultPath fullPath : string) : option js_error :=
  let root := PosixPath.normalize vaultPath in
  let resolved := PosixPath.normalize fullPath in
  if String.eqb resolved root || startsWith resolved (root +:+ "/") then None
  else Some (McpError {| mcp_code := InvalidRequest;
                         mcp_message := "Path must be within the vault directory" |}).

Definition safeJoinPath (vaultPath p : string) : js_error + string :=
  let full := PosixPath.join_paths [vaultPath; p] in
  match validateVaultPath vaultPath full with
  | Some e => inl e
  | None => inr full
  end.

Definition normalizePath (p : string) : js_error + string :=
  if String.eqb p ""
  then inl (McpError {| mcp_code := InvalidParams; mcp_message := "Path cannot be empty" |})
  else inr (PosixPath.normalize p).

Definition handleFsError (e : js_error) (what : string) : mcp_error :=
  {| mcp_code := InternalError;
     mcp_message := "Failed to " +:+ what +:+ ": " +:+ error_message e |}.

(** The markdown files below [dir], in ascending order. *)
Definition markdown_below (dir : string) (fs : gmap string string) : list string :=
  @ListFiles.sort posix
    (List.filter (fun p => startsWith p (dir +:+ "/") && endsWith p ".md")
                 (map fst (map_to_list fs))).

Definition getAllMarkdownFiles (env : environment) (vaultPath dir : string) : M (list string) :=
  attempt env (op_readdir dir) (fun _ fs => fs) (fun fs => inr (markdown_below dir fs, fs)).

(** A tag is a word that starts with [#]. *)
Definition words (s : string) : list string :=
  List.filter PosixPath.nonempty
    (flat_map (split_on " ") (flat_map (split_on "009") (split_on "010" s))).

Definition extractTags (s : string) : list string :=
  flat_map (fun w => match w with
                     | String "#" (String c t) => [String c t]
                     | _ => []
                     end) (words s).

Definition normalizeTag (t : string) : string :=
  AsciiText.toLowerCase (match t with String "#" r => r | _ => t end).

(** A tag matches a pattern that names one of its ancestors. *)
Definition matchesTagPattern (pattern tag : string) : bool :=
  startsWith tag (pattern +:+ "/").

Definition formatFileResult (r : FileOperationResult) : string :=
  message r +:+ nl +:+ "Path: " +:+ path r.

End SpecUtils.

Definition spec_utils : RepoUtils := {|
  ensureCanvasExtension := SpecUtils.ensureExtension ".canvas";
  ensureMarkdownExtension := SpecUtils.ensureExtension ".md";
  validateVaultPath := SpecUtils.validateVaultPath;
  safeJoinPath := SpecUtils.safeJoinPath;
  normalizePath := SpecUtils.normalizePath;
  createCanvasNotFoundError := fun name =>
    {| mcp_code := InvalidRequest; mcp_message := "Canvas not found: " +:+ name |};
  createCanvasExistsError := fun p =>
    {| mcp_code := InvalidRequest; mcp_message := "A canvas already exists at: " +:+ p |};
  createNoteNotFoundError := fun name =>
    {| mcp_code := InvalidRequest; mcp_message := "Note not found: " +:+ name |};
  createInvalidJsonError := fun name msg =>
    {| mcp_code := InvalidParams; mcp_message := "Invalid JSON in " +:+ name +:+ ": " +:+ msg |};
  handleFsError := SpecUtils.handleFsError;
  getAllMarkdownFiles := SpecUtils.getAllMarkdownFiles;
  extractTags := SpecUtils.extractTags;
  normalizeTag := SpecUtils.normalizeTag;
  matchesTagPattern := SpecUtils.matchesTagPattern;
  formatFileResult := SpecUtils.formatFileResult
|}.

(** An environment in which no call fails, and one in which the calls
    selected by [broken] fail. *)
Definition steady (time : Z) : environment :=
  {| faults := fun _ _ => None; clock := fun n => time + Z.of_nat n |}.

Definition failing (time : Z) (broken : fs_op -> option fault) : environment :=
  {| faults := fun _ op => broken op; clock := fun n => time + Z.of_nat n |}.

Definition fresh (fs : gmap string string) : world := {| files := fs; log := [] |}.

(** * The canvas data model of the specification

    Section 3 of the specification, read as a predicate on parsed JSON,
    and what it means to add an unknown key to a document.  These follow
    the specification's words; [CanvasSchema] above follows the code. *)

Module CanvasSpec.

Section Model.

(** "valid URL string" *)
Variable valid_url : string -> bool.

Definition required (ms : list (string * value)) (k : string) (P : value -> bool) : bool :=
  match get k ms with
  | Some v => P v
  | None => false
  end.

Definition optional (ms : list (string * value)) (k : string) (P : value -> bool) : bool :=
  match get k ms with
  | Some v => P v
  | None => true
  end.

(** "no extra/unknown keys permitted (closed schema)" *)
Definition closed (ms : list (string * value)) (allowed : list string) : bool :=
  forallb (fun k => inb k allowed) (keys ms).

Definition is_string (v : value) : bool :=
  match v with JString _ => true | _ => false end.

Definition is_nonempty_string (v : value) : bool :=
  match v with
  | JString s => (0 <? String.length s)%nat
  | _ => false
  end.

Definition is_integer (v : value) : bool :=
  match v with
  | JNumber (Finite m e) => if 0 <=? e then true else m mod 10 ^ (- e) =? 0
  | _ => false
  end.

Definition is_positive_integer (v : value) : bool :=
  match v with
  | JNumber (Finite m e) => is_integer v && (0 <? m)
  | _ => false
  end.

Definition one_of (options : list string) (v : value) : bool :=
  match v with
  | JString s => inb s options
  | _ => false
  end.

(** "one of six preset tokens "1".."6", or a 6-hex-digit color string":
    the hex form is a [#] and six hexadecimal digits. *)
Definition is_color (v : value) : bool :=
  match v with
  | JString s =>
      inb s ["1"; "2"; "3"; "4"; "5"; "6"]
      || match list_ascii_of_string s with
         | [h; a; b; c; d; e; f] =>
             Ascii.eqb h "#" && forallb CanvasSchema.is_hex_digit [a; b; c; d; e; f]
         | _ => false
         end
  | _ => false
  end.

Definition is_url (v : value) : bool :=
  match v with
  | JString s => valid_url s
  | _ => false
  end.

(** "optional subpath (must start with #)" *)
Definition is_subpath (v : value) : bool :=
  match v with
  | JString (String c _) => Ascii.eqb c "#"
  | _ => false
  end.

Definition base_keys : list string := ["id"; "x"; "y"; "width"; "height"; "color"].

(** The keys a node of the given variant may have. *)
Definition node_keys (type : string) : list string :=
  "type" :: base_keys
  ++ (if String.eqb type "text" then ["text"]
      else if String.eqb type "file" then ["file"; "subpath"]
      else if String.eqb type "link" then ["url"]
      else if String.eqb type "group" then ["label"; "background"; "backgroundStyle"]
      else []).

Definition edge_keys : list string :=
  ["id"; "fromNode"; "toNode"; "fromSide"; "toSide"; "fromEnd"; "toEnd"; "color"; "label"].

Definition canvas_keys : list string := ["nodes"; "edges"].

(** The shared base of every node. *)
Definition has_base (ms : list (string * value)) : bool :=
  required ms "id" is_nonempty_string
  && required ms "x" is_integer
  && required ms "y" is_integer
  && required ms "width" is_positive_integer
  && required ms "height" is_positive_integer
  && optional ms "color" is_color.

Definition variant_fields (type : string) (ms : list (string * value)) : bool :=
  if String.eqb type "text" then required ms "text" is_string
  else if String.eqb type "file" then
    required ms "file" is_nonempty_string && optional ms "subpath" is_subpath
  else if String.eqb type "link" then required ms "url" is_url
  else if String.eqb type "group" then
    optional ms "label" is_string
    && optional ms "background" is_string
    && optional ms "backgroundStyle" (one_of ["cover"; "ratio"; "repeat"])
  else false.

Definition is_node (v : value) : bool :=
  match v with
  | JObject ms =>
      match get "type" ms with
      | Some (JString type) =>
          has_base ms && variant_fields type ms && closed ms (node_keys type)
      | _ => false
      end
  | _ => false
  end.

Definition is_side : value -> bool := one_of ["top"; "right"; "bottom"; "left"].
Definition is_end : value -> bool := one_of ["none"; "arrow"].

Definition is_edge (v : value) : bool :=
  match v with
  | JObject ms =>
      required ms "id" is_nonempty_string
      && required ms "fromNode" is_nonempty_string
      && required ms "toNode" is_nonempty_string
      && optional ms "fromSide" is_side
      && optional ms "toSide" is_side
      && optional ms "fromEnd" is_end
      && optional ms "toEnd" is_end
      && optional ms "color" is_color
      && optional ms "label" is_string
      && closed ms edge_keys
  | _ => false
  end.

Definition is_array_of (P : value -> bool) (v : value) : bool :=
  match v with
  | JArray items => forallb P items
  | _ => false
  end.

(** A canvas document: an object with two optional sequences. *)
Definition is_canvas (v : value) : bool :=
  match v with
  | JObject ms =>
      optional ms "nodes" (is_array_of is_node)
      && optional ms "edges" (is_array_of is_edge)
      && closed ms canvas_keys
  | _ => false
  end.

End Model.

(** [ms'] is [ms] with the member [(k, v)] put in somewhere. *)
Definition with_member (k : string) (v : value) (ms ms' : list (string * value)) : Prop :=
  exists before after, ms = before ++ after /\ ms' = before ++ (k, v) :: after.

(** [adds_unknown_key doc at k doc']: [doc'] is [doc] with a key [k] that
    the data model does not know, added to the object at path [at]: the
    document itself, its [i]-th node, or its [i]-th edge. *)
Inductive adds_unknown_key : value -> list Zod.path_seg -> string -> value -> Prop :=
| add_top ms k v ms' :
    inb k canvas_keys = false ->
    with_member k v ms ms' ->
    adds_unknown_key (JObject ms) [] k (JObject ms')
| add_node ms nodes i type node k v node' :
    get "nodes" ms = Some (JArray nodes) ->
    nodes !! i = Some (JObject node) ->
    get "type" node = Some (JString type) ->
    inb k (node_keys type) = false ->
    with_member k v node node' ->
    adds_unknown_key (JObject ms) [Zod.PKey "nodes"; Zod.PIndex i] k
      (JObject (Json.set "nodes" (JArray (<[i := JObject node']> nodes)) ms))
| add_edge ms edges i edge k v edge' :
    get "edges" ms = Some (JArray edges) ->
    edges !! i = Some (JObject edge) ->
    inb k edge_keys = false ->
    with_member k v edge edge' ->
    adds_unknown_key (JObject ms) [Zod.PKey "edges"; Zod.PIndex i] k
      (JObject (Json.set "edges" (JArray (<[i := JObject edge']> edges)) ms)).

End CanvasSpec.

(** * Vocabulary of the statements *)

(** The call [op] succeeds, or fails, whenever it is made. *)
Definition works (env : environment) (op : fs_op) : Prop :=
  forall n, faults env n op = None.

Definition breaks (env : environment) (op : fs_op) : Prop :=
  forall n, is_Some (faults env n op).

(** The fault of a call that fails at step [n], and the store a failed
    write or copy to [dst] leaves behind. *)
Definition the_fault (env : environment) (n : nat) (op : fs_op) : fault :=
  default {| fault_message := ""; fault_residue := None |} (faults env n op).

Definition damaged (f : fault) (dst : string) (fs : gmap string string) : gmap string string :=
  match fault_residue f with
  | Some r => <[dst := r]> fs
  | None => fs
  end.

(** The computation [c], run from [w], ends with a result and in a world
    that satisfy [Q]. *)
Definition leads {A} (c : M A) (w : world) (Q : outcome A -> world -> Prop) : Prop :=
  Q (fst (c w)) (snd (c w)).

(** A result of [Zod.parse] whose status is valid only if it raised no issue. *)
Definition clean (r : Zod.parse_return) : Prop :=
  fst r = Zod.valid -> snd r = [].

(** The issue zod raises for the unknown key [k] of the object at [holder]. *)
Definition unknown_key_issue (holder : list Zod.path_seg) (k : string) (msg : option string)
    : Zod.issue :=
  {| Zod.code := Zod.unrecognized_keys [k];
     Zod.path := holder;
     Zod.message := default ("Unrecognized key(s) in object: '" +:+ k +:+ "'") msg |}.

(** The claim that validation points at the offending key by its field
    path: some issue's path goes through the key. *)
Definition rejects_with_path_to_key (valid_url : string -> bool) (doc : value) (k : string) : Prop :=
  exists issues,
    Zod.safeParse valid_url canvasSchema doc = Zod.failure issues
    /\ Exists (fun i => In (Zod.PKey k) (Zod.path i)) issues.

(** * Scenarios for the examples *)

Definition one_text_node : list (string * value) :=
  [("id", JString "n1"); ("type", JString "text"); ("text", JString "Initial idea");
   ("x", JNumber (Finite 100 0)); ("y", JNumber (Finite 100 0));
   ("width", JNumber (Finite 150 0)); ("height", JNumber (Finite 50 0))].

Definition small_canvas : value :=
  JObject [("nodes", JArray [JObject one_text_node]); ("edges", JArray [])].

(** [s] between double quotes. *)
Definition quoted (s : string) : string := dquote +:+ s +:+ dquote.

(** The text [{"nodes":[],"edges":[]}]. *)
Definition empty_canvas_text : string :=
  "{" +:+ quoted "nodes" +:+ ":[]," +:+ quoted "edges" +:+ ":[]}".

(** The text [{"foo":1}]: JSON, but not a canvas. *)
Definition not_a_canvas_text : string := "{" +:+ quoted "foo" +:+ ":1}".

(** A vault with one canvas and one note. *)
Definition small_vault : gmap string string :=
  {[ "/vault/board.canvas" := empty_canvas_text;
     "/vault/daily.md" := "# Today" ]}.

(** The disk is full: every write fails and leaves a truncated file. *)
Definition disk_full : environment :=
  failing 1700000000000
    (fun op => match op with
               | op_writeFile _ => Some {| fault_message := "ENOSPC: no space left on device";
                                           fault_residue := Some "" |}
               | _ => None
               end).

(** The disk is full and the backup cannot be copied back either. *)
Definition disk_full_restore_fails : environment :=
  failing 1700000000000
    (fun op => match op with
               | op_writeFile _ => Some {| fault_message := "ENOSPC: no space left on device";
                                           fault_residue := Some "" |}
               | op_copyFile src _ =>
                   if endsWith src ".backup"
                   then Some {| fault_message := "EIO: i/o error"; fault_residue := None |}
                   else None
               | _ => None
               end).

(** The result record of a successful [readCanvas]. *)
Definition read_result (fullPath : string) (parsed : value) : ReadCanvasResult :=
  {| rc_result := {| success := true;
                     message := "Canvas read and parsed successfully";
                     path := fullPath;
                     operation := "edit" |};
     rc_content := parsed |}.

(** Reading the canvas back from [w]: the file still holds [s]; what
    [readCanvas] returns is the value [JSON.parse] gives for [s], and what
    the read-canvas tool answers is that value printed by
    [JSON.stringify(_, null, 2)]. *)
Definition reads_back {node : NodeRuntime} {utils : RepoUtils} (env : environment)
    (vaultPath filename : string) (folder : option string) (s : string) (w : world) : Prop :=
  let fullPath := target_path vaultPath folder (ensureCanvasExtension filename) in
  exists parsed w',
    JSON_parse s = inr parsed
    /\ readCanvas env vaultPath filename folder w = (returned (read_result fullPath parsed), w')
    /\ readCanvasTool env vaultPath filename folder w
       = (returned (formatFileResult (rc_result (read_result fullPath parsed))
                    +:+ nl +:+ nl +:+ "Canvas Content:" +:+ nl +:+ JSON_stringify parsed), w')
    /\ files w' !! fullPath = Some s.

(** The steps [createCanvas] may take on the file system. *)
Definition create_step (canvasDir canvasPath : string) (e : event) : Prop :=
  exists ok, e = ev_fs (op_mkdir canvasDir) ok
             \/ e = ev_fs (op_access canvasPath) ok
             \/ e = ev_fs (op_writeFile canvasPath) ok.

(** A vault of three notes, for the searches. *)
Definition notes_vault : gmap string string :=
  {[ "/vault/a.md" := "hello world" +:+ nl +:+ "second line";
     "/vault/b.md" := "nothing here";
     "/vault/sub/c.md" := "Hello again" ]}.

(** The first listing of a directory fails, later ones work. *)
Definition first_listing_fails : environment :=
  {| faults := fun n op =>
       match op with
       | op_readdir _ =>
           if (n =? 0)%nat
           then Some {| fault_message := "EMFILE: too many open files"; fault_residue := None |}
           else None
       | _ => None
       end;
     clock := fun _ => 0 |}.

(** One note cannot be read. *)
Definition unreadable_note : environment :=
  failing 0
    (fun op => match op with
               | op_readFile p =>
                   if String.eqb p "/vault/a.md"
                   then Some {| fault_message := "EACCES: permission denied"; fault_residue := None |}
                   else None
               | _ => None
               end).

Definition search_for (q : string) (t : SearchVault.SearchType) : SearchVault.SearchOptions :=
  {| SearchVault.path := None; SearchVault.caseSensitive := false; SearchVault.searchType := t |}.

(** A vault directory with hidden, ignored and unreadable parts. *)
Definition sample_tree : list ListFiles.Dirent :=
  [ ListFiles.file_entry "b.md";
    ListFiles.dir_entry ".trash" (Some [ListFiles.file_entry "x.canvas"]);
    ListFiles.dir_entry "sub"
      (Some [ListFiles.file_entry "a.md"; ListFiles.file_entry ".hidden";
             ListFiles.dir_entry "node_modules" (Some [ListFiles.file_entry "p.js"]);
             ListFiles.other_entry "link"]);
    ListFiles.dir_entry "locked" None;
    ListFiles.file_entry "a.md" ].

(** * Further vocabulary: what a call leaves alone *)

(** The computation [c] changes no file outside [ps], whatever fails. *)
Definition keeps {A} (ps : list string) (c : M A) : Prop :=
  forall w p, ~ In p ps -> files (snd (c w)) !! p = files w !! p.

(** The computation [c] leaves the path [p] as it is, whatever fails. *)
Definition untouched {A} (p : string) (c : M A) : Prop :=
  forall w, files (snd (c w)) !! p = files w !! p.

(** A result of [Zod.parse] that is not valid tells why. *)
Definition loud (r : Zod.parse_return) : Prop :=
  fst r <> Zod.valid -> snd r <> [].

(** The issue [i] is about the value at path [p] or about a part of it. *)
Definition under (p : list Zod.path_seg) (i : Zod.issue) : Prop :=
  exists sub, Zod.path i = p ++ sub.

(** Where an issue that the canvas schema raises on [doc] can point: at
    the document, at its [nodes] or [edges], or into one of the nodes or
    edges that are there. *)
Definition located (doc : value) (i : Zod.issue) : Prop :=
  Zod.path i = []
  \/ exists k, (k = "nodes" \/ k = "edges")
               /\ (Zod.path i = [Zod.PKey k]
                   \/ exists items n x,
                        field k doc = Some (JArray items)
                        /\ nth_error items n = Some x
                        /\ under [Zod.PKey k; Zod.PIndex n] i).

(** The issue zod raises for a field that is not there. *)
Definition required_issue (expected : string) (p : list Zod.path_seg) (k : string) : Zod.issue :=
  {| Zod.code := Zod.invalid_type expected "undefined";
     Zod.path := p ++ [Zod.PKey k];
     Zod.message := "Required" |}.

(** What a filename search and a content search put in a result: the
    single match on line 0 that names the file, and matches on numbered
    lines. *)
Definition filename_hit (r : SearchVault.SearchResult) : Prop :=
  SearchVault.matches r
  = [{| SearchVault.line := 0;
        SearchVault.text := "Filename match: " +:+ SearchVault.file r |}].

Definition content_hit (r : SearchVault.SearchResult) : Prop :=
  SearchVault.matches r <> []
  /\ Forall (fun m => (1 <= SearchVault.line m)%nat) (SearchVault.matches r).

(** * The handler of the list-files tool *)

Module ListFilesTool.

Section Handler.

Context {node : NodeRuntime}.

(** The text of the response, for the vault named [vault] at [vaultPath]. *)
Definition handler (vault vaultPath : string) (root : option (list ListFiles.Dirent)) : string :=
  let files := ListFiles.listVaultFiles vaultPath root in
  if (0 <? length files)%nat
  then "Files in vault " +:+ dquote +:+ vault +:+ dquote +:+ ":" +:+ nl +:+ join nl files
  else "No files found in vault " +:+ dquote +:+ vault +:+ dquote +:+ ".".

End Handler.

End ListFilesTool.

(** * Further scenarios *)

(** The sidecar of a trashed canvas cannot be written. *)
Definition sidecar_fails : environment :=
  failing 1700000000000
    (fun op => match op with
               | op_writeFile p =>
                   if endsWith p ".meta.json"
                   then Some {| fault_message := "ENOSPC: no space left on device";
                                fault_residue := None |}
                   else None
               | _ => None
               end).

(** Nothing can be moved. *)
Definition move_fails : environment :=
  failing 1700000000000
    (fun op => match op with
               | op_rename _ _ =>
                   Some {| fault_message := "EXDEV: cross-device link not permitted";
                           fault_residue := None |}
               | _ => None
               end).

(** Nothing can be removed. *)
Definition removal_fails : environment :=
  failing 1700000000000
    (fun op => match op with
               | op_unlink _ =>
                   Some {| fault_message := "EPERM: operation not permitted";
                           fault_residue := None |}
               | _ => None
               end).

(** Nothing can be read. *)
Definition reading_fails : environment :=
  failing 1700000000000
    (fun op => match op with
               | op_readFile _ =>
                   Some {| fault_message := "EACCES: permission denied";
                           fault_residue := None |}
               | _ => None
               end).

(** A canvas whose only node has a type that the schema does not know,
    and one whose only node has no [id]. *)
Definition odd_node : list (string * value) :=
  [("id", JString "n1"); ("type", JString "note");
   ("x", JNumber (Finite 0 0)); ("y", JNumber (Finite 0 0));
   ("width", JNumber (Finite 10 0)); ("height", JNumber (Finite 10 0))].

Definition nameless_node : list (string * value) :=
  [("type", JString "text"); ("text", JString "Initial idea");
   ("x", JNumber (Finite 100 0)); ("y", JNumber (Finite 100 0));
   ("width", JNumber (Finite 150 0)); ("height", JNumber (Finite 50 0))].

(** * Properties *)
(** * Facts about the zod combinators *)

Module ZodFacts.

Import Zod.

Lemma merge_status_valid a b : merge_status a b = valid -> a = valid /\ b = valid.
Proof. destruct a, b; simpl; intros H; try discriminate; auto. Qed.

Lemma merge_results_cons r rs :
  merge_results (r :: rs)
  = (merge_status (fst r) (fst (merge_results rs)), snd r ++ snd (merge_results rs)).
Proof. reflexivity. Qed.

Lemma merge_results_valid rs :
  merge_results rs = (valid, []) <-> Forall (fun r => r = (valid, [])) rs.
Proof.
  induction rs as [|r rs IH].
  - split; [constructor | reflexivity].
  - rewrite merge_results_cons. split.
    + intros H. injection H as Hs Hi.
      apply merge_status_valid in Hs as [Hr Hrs].
      apply app_eq_nil in Hi as [Hi1 Hi2].
      constructor.
      * rewrite (surjective_pairing r). now f_equal.
      * apply IH. rewrite (surjective_pairing (merge_results rs)). now f_equal.
    + intros H. inversion H as [|? ? Hr Hrs]; subst.
      apply IH in Hrs. rewrite Hrs. reflexivity.
Qed.

Lemma merge_results_app a b :
  merge_results (a ++ b)
  = (merge_status (fst (merge_results a)) (fst (merge_results b)),
     snd (merge_results a) ++ snd (merge_results b)).
Proof.
  induction a as [|r a IH].
  - change ([] ++ b) with b. rewrite (surjective_pairing (merge_results b)) at 1.
    f_equal. change (fst (merge_results [])) with valid.
    now destruct (fst (merge_results b)).
  - change ((r :: a) ++ b) with (r :: (a ++ b)).
    rewrite !merge_results_cons, IH. cbn [fst snd]. f_equal.
    + destruct (fst r), (fst (merge_results a)), (fst (merge_results b)); reflexivity.
    + now rewrite app_assoc.
Qed.

(** One result of a list of valid ones turns dirty. *)
Lemma merge_results_one_dirty before after issues :
  Forall (fun r => r = (valid, [])) before ->
  Forall (fun r => r = (valid, [])) after ->
  merge_results (before ++ (dirty, issues) :: after) = (dirty, issues).
Proof.
  intros Hb Ha. apply merge_results_valid in Hb, Ha.
  rewrite merge_results_app, merge_results_cons, Hb, Ha. simpl.
  now rewrite app_nil_r.
Qed.

Lemma inb_false_not_In k l : inb k l = false -> ~ In k l.
Proof.
  unfold inb. intros H Hin.
  assert (existsb (String.eqb k) l = true) as Ht.
  { apply existsb_exists. exists k. split; [assumption | apply String.eqb_refl]. }
  congruence.
Qed.

Lemma inb_true_In k l : inb k l = true -> In k l.
Proof.
  unfold inb. intros H. apply existsb_exists in H as (x & Hx & He).
  apply String.eqb_eq in He. now subst.
Qed.

Lemma get_app k a b :
  get k (a ++ b) = match get k a with Some v => Some v | None => get k b end.
Proof.
  induction a as [|[k' v'] a IH]; simpl; [reflexivity|].
  destruct (String.eqb k k'); [reflexivity | apply IH].
Qed.

Lemma get_with_member k v ms ms' k' :
  CanvasSpec.with_member k v ms ms' -> k' <> k -> get k' ms' = get k' ms.
Proof.
  intros (a & b & -> & ->) Hne. rewrite !get_app. simpl.
  apply String.eqb_neq in Hne. now rewrite Hne.
Qed.

Lemma extraKeys_with_member sh k v ms ms' :
  CanvasSpec.with_member k v ms ms' ->
  inb k (map fst sh) = false ->
  extraKeys sh ms = [] ->
  extraKeys sh ms' = [k].
Proof.
  intros (a & b & -> & ->) Hk. unfold extraKeys, keys.
  rewrite !map_app, !List.filter_app. simpl. rewrite Hk. simpl.
  intros H. apply app_eq_nil in H as [-> ->]. reflexivity.
Qed.

Section WithUrl.

Variable URL_canParse : string -> bool.

(** A strict object that was valid gets exactly one issue when a key its
    shape does not have is added: the issue sits at the object's path
    and lists the key. *)
Lemma strict_object_extra_key sh msg p ms ms' k v :
  parse URL_canParse (z_object sh (strict_keys msg)) p (Some (JObject ms)) = (valid, []) ->
  inb k (map fst sh) = false ->
  CanvasSpec.with_member k v ms ms' ->
  parse URL_canParse (z_object sh (strict_keys msg)) p (Some (JObject ms'))
  = (dirty, [addIssue p [] (unrecognized_keys [k]) msg]).
Proof.
  intros Hvalid Hk Hm. simpl in *.
  apply merge_results_valid in Hvalid.
  apply Forall_app in Hvalid as [Hpairs Hunknown].
  inversion Hunknown as [|? ? Hu _]; subst.
  assert (extraKeys sh ms = []) as Hextra.
  { destruct (extraKeys sh ms); [reflexivity | discriminate]. }
  rewrite (extraKeys_with_member sh k v ms ms' Hm Hk Hextra). simpl.
  replace (map (fun ks => parse URL_canParse (snd ks) (p ++ [PKey (fst ks)]) (get (fst ks) ms')) sh)
    with (map (fun ks => parse URL_canParse (snd ks) (p ++ [PKey (fst ks)]) (get (fst ks) ms)) sh).
  - apply merge_results_one_dirty; [assumption | constructor].
  - apply map_ext_in. intros [k' s'] Hin. simpl.
    rewrite (get_with_member k v ms ms' k' Hm); [reflexivity|].
    intros ->. apply (inb_false_not_In _ _ Hk).
    apply in_map_iff. exists (k, s'). split; [reflexivity | assumption].
Qed.

Lemma parse_items_valid item p start xs :
  (forall i x, xs !! i = Some x -> item (p ++ [PIndex (start + i)]) (Some x) = (valid, [])) ->
  Forall (fun r => r = (valid, [])) (parse_items item p start xs).
Proof.
  revert start. induction xs as [|x xs IH]; intros start H; simpl; constructor.
  - specialize (H 0%nat x eq_refl). now rewrite Nat.add_0_r in H.
  - apply IH. intros i y Hy. specialize (H (S i) y Hy).
    now rewrite Nat.add_succ_r in H.
Qed.

Lemma parse_items_valid_inv item p start xs :
  Forall (fun r => r = (valid, [])) (parse_items item p start xs) ->
  forall i x, xs !! i = Some x -> item (p ++ [PIndex (start + i)]) (Some x) = (valid, []).
Proof.
  revert start. induction xs as [|x xs IH]; intros start H i y Hy; [discriminate|].
  simpl in H. inversion H as [|? ? Hx Hxs]; subst.
  destruct i as [|i]; simpl in Hy.
  - injection Hy as <-. now rewrite Nat.add_0_r.
  - rewrite Nat.add_succ_r. apply (IH (S start) Hxs i y Hy).
Qed.

(** One item of a valid array turns dirty. *)
Lemma parse_items_one_dirty item p start xs i x x' issues :
  Forall (fun r => r = (valid, [])) (parse_items item p start xs) ->
  xs !! i = Some x ->
  item (p ++ [PIndex (start + i)]) (Some x') = (dirty, issues) ->
  merge_results (parse_items item p start (<[i := x']> xs)) = (dirty, issues).
Proof.
  revert start i. induction xs as [|y xs IH]; intros start i H Hi Hx'; [discriminate|].
  simpl in H. inversion H as [|? ? Hy Hxs]; subst.
  destruct i as [|i]; simpl in *.
  - rewrite Nat.add_0_r in Hx'. rewrite Hx'.
    apply (merge_results_one_dirty [] _ issues); [constructor | assumption].
  - rewrite merge_results_cons, Hy.
    rewrite (IH (S start) i Hxs Hi); [reflexivity|].
    now rewrite Nat.add_succ_r in Hx'.
Qed.

End WithUrl.

End ZodFacts.

(** * The canvas schema accepts the data model *)

Module CanvasFacts.

Import Zod ZodFacts CanvasSpec.

Lemma parse_object U sh uk p ms :
  parse U (z_object sh uk) p (Some (JObject ms))
  = merge_results
      (map (fun ks => parse U (snd ks) (p ++ [PKey (fst ks)]) (get (fst ks) ms)) sh
       ++ [unknown_keys_result p uk (extraKeys sh ms)]).
Proof. reflexivity. Qed.

Lemma closed_extraKeys ms allowed sh :
  closed ms allowed = true ->
  forallb (fun k => inb k (map fst sh)) allowed = true ->
  extraKeys sh ms = [].
Proof.
  unfold closed, extraKeys. intros Hc Hs.
  induction (keys ms) as [|k ks IH]; [reflexivity|].
  simpl in *. apply andb_prop in Hc as [Hk Hks].
  rewrite forallb_forall in Hs.
  rewrite (Hs k (inb_true_In _ _ Hk)). simpl. auto.
Qed.

Lemma inb_false_subset k big small :
  forallb (fun x => inb x big) small = true ->
  inb k big = false -> inb k small = false.
Proof.
  intros Hs Hk. destruct (inb k small) eqn:E; [|reflexivity].
  rewrite forallb_forall in Hs. rewrite (Hs k (inb_true_In _ _ E)) in Hk. discriminate.
Qed.

Section Accept.

Variable U : string -> bool.

Lemma accept_nonempty_string p ms k :
  required ms k is_nonempty_string = true ->
  parse U (z_string [check_min 1]) p (get k ms) = (valid, []).
Proof.
  unfold required. destruct (get k ms) as [[]|]; simpl; try discriminate.
  destruct s; simpl; [discriminate | reflexivity].
Qed.

Lemma accept_string p ms k :
  required ms k is_string = true ->
  parse U (z_string []) p (get k ms) = (valid, []).
Proof. unfold required. destruct (get k ms) as [[]|]; simpl; try discriminate. reflexivity. Qed.

Lemma accept_optional_string p ms k :
  optional ms k is_string = true ->
  parse U (z_optional (z_string [])) p (get k ms) = (valid, []).
Proof. unfold optional. destruct (get k ms) as [[]|]; simpl; try discriminate; reflexivity. Qed.

Lemma accept_integer p ms k :
  required ms k is_integer = true ->
  parse U (z_number [check_int]) p (get k ms) = (valid, []).
Proof.
  unfold required. destruct (get k ms) as [[| |[]| | |]|]; simpl; try discriminate.
  intros ->. reflexivity.
Qed.

Lemma accept_positive_integer p ms k :
  required ms k is_positive_integer = true ->
  parse U (z_number [check_int; check_positive]) p (get k ms) = (valid, []).
Proof.
  unfold required. destruct (get k ms) as [[| |[]| | |]|]; simpl; try discriminate.
  intros H. apply andb_prop in H as [-> Hpos].
  apply Z.ltb_lt in Hpos. destruct (Z.leb_spec m 0); [lia | reflexivity].
Qed.

Lemma accept_url p ms k :
  required ms k (is_url U) = true ->
  parse U (z_string [check_url]) p (get k ms) = (valid, []).
Proof.
  unfold required. destruct (get k ms) as [[]|]; simpl; try discriminate.
  intros ->. reflexivity.
Qed.

Lemma accept_subpath p ms k :
  optional ms k is_subpath = true ->
  parse U (z_optional (z_string [check_startsWith "#"])) p (get k ms) = (valid, []).
Proof.
  unfold optional. destruct (get k ms) as [[]|]; simpl; try discriminate; try reflexivity.
  destruct s as [|c s]; [discriminate|]. unfold startsWith. simpl.
  intros H. rewrite Ascii.eqb_sym in H.
  destruct (Ascii.eqb_spec "#"%char c) as [<-|]; [|discriminate].
  destruct (ascii_dec "#" "#"); [|congruence].
  now destruct s.
Qed.

Lemma accept_optional_enum values p ms k :
  optional ms k (one_of values) = true ->
  parse U (z_optional (z_enum values)) p (get k ms) = (valid, []).
Proof.
  unfold optional. destruct (get k ms) as [[]|]; simpl; try discriminate; try reflexivity.
  intros ->. reflexivity.
Qed.

Lemma hex_color_of_spec s a b c d e f :
  list_ascii_of_string s = ["#"%char; a; b; c; d; e; f] ->
  forallb is_hex_digit [a; b; c; d; e; f] = true ->
  hex_color_regex s = true.
Proof.
  intros Hs Hd. rewrite <- (string_of_list_ascii_of_string s), Hs. simpl in *.
  exact Hd.
Qed.

Lemma parse_color p s :
  parse U canvasColorSchema p (Some (JString s))
  = if inb s ["1"; "2"; "3"; "4"; "5"; "6"] then (valid, [])
    else if hex_color_regex s then (valid, [])
    else (dirty, [addIssue p [] (invalid_string v_regex)
                    (Some "Must be a 6-digit hex color code starting with #")]).
Proof.
  unfold canvasColorSchema. cbn -[inb hex_color_regex].
  destruct (inb s ["1"; "2"; "3"; "4"; "5"; "6"]); [reflexivity|].
  cbn -[hex_color_regex]. destruct (hex_color_regex s); reflexivity.
Qed.

Lemma accept_optional_color p ms k :
  optional ms k is_color = true ->
  parse U (z_optional canvasColorSchema) p (get k ms) = (valid, []).
Proof.
  unfold optional. destruct (get k ms) as [v|]; [|reflexivity].
  destruct v as [| | |s| |]; try discriminate.
  change (parse U (z_optional canvasColorSchema) p (Some (JString s)))
    with (parse U canvasColorSchema p (Some (JString s))).
  rewrite parse_color. unfold is_color.
  destruct (inb s ["1"; "2"; "3"; "4"; "5"; "6"]); [reflexivity|].
  rewrite orb_false_l.
  destruct (list_ascii_of_string s) as [|h [|a [|b [|c [|d [|e [|f [|]]]]]]]] eqn:Hs;
    try discriminate.
  intros H. apply andb_prop in H as [Hh Hd]. apply Ascii.eqb_eq in Hh. subst h.
  now rewrite (hex_color_of_spec s a b c d e f Hs Hd).
Qed.

Lemma accept_literal p ms v :
  get "type" ms = Some (JString v) ->
  parse U (z_literal v) p (get "type" ms) = (valid, []).
Proof. intros ->. simpl. now rewrite String.eqb_refl. Qed.

Lemma accept_unknown_keys p msg sh ms allowed :
  closed ms allowed = true ->
  forallb (fun k => inb k (map fst sh)) allowed = true ->
  unknown_keys_result p (strict_keys msg) (extraKeys sh ms) = (valid, []).
Proof. intros Hc Hs. now rewrite (closed_extraKeys ms allowed sh Hc Hs). Qed.

End Accept.

Create HintDb canvas.

#[local] Hint Resolve accept_nonempty_string accept_string accept_optional_string
  accept_integer accept_positive_integer accept_url accept_subpath accept_optional_enum
  accept_optional_color accept_literal : canvas.

(** Put a schema of the canvas in its evaluated form. *)
Tactic Notation "evaluate_schema" constr(s) :=
  let s' := eval cbv -[canvasColorSchema] in s in
  change s with s'.

Tactic Notation "evaluate_schema" constr(s) "in" hyp(H) :=
  let s' := eval cbv -[canvasColorSchema] in s in
  change s with s' in H.

Ltac split_conditions :=
  repeat match goal with
         | H : (_ && _)%bool = true |- _ =>
             let H1 := fresh "H" in let H2 := fresh "H" in
             apply andb_prop in H as [H1 H2]
         end.

Ltac accept_fields :=
  rewrite parse_object; cbn [map app fst snd];
  apply merge_results_valid;
  repeat (apply Forall_cons; split; [solve [eauto with canvas] |]);
  try apply Forall_nil.

Section Documents.

Variable U : string -> bool.

(** The option that the discriminated union of the nodes picks. *)
Lemma nodeSchema_pick p ms type :
  get "type" ms = Some (JString type) ->
  parse U nodeSchema p (Some (JObject ms))
  = if String.eqb type "text" then parse U textNodeSchema p (Some (JObject ms))
    else if String.eqb type "file" then parse U fileNodeSchema p (Some (JObject ms))
    else if String.eqb type "link" then parse U linkNodeSchema p (Some (JObject ms))
    else if String.eqb type "group" then parse U groupNodeSchema p (Some (JObject ms))
    else (aborted,
          [addIssue p [PKey "type"]
             (invalid_union_discriminator ["text"; "file"; "link"; "group"]) None]).
Proof.
  intros Ht. unfold nodeSchema. cbn [parse]. rewrite Ht. cbn [map].
  change (discriminator_of "type" textNodeSchema) with (Some "text").
  change (discriminator_of "type" fileNodeSchema) with (Some "file").
  change (discriminator_of "type" linkNodeSchema) with (Some "link").
  change (discriminator_of "type" groupNodeSchema) with (Some "group").
  cbn [pick_option].
  destruct (String.eqb type "text"); [reflexivity|].
  destruct (String.eqb type "file"); [reflexivity|].
  destruct (String.eqb type "link"); [reflexivity|].
  destruct (String.eqb type "group"); reflexivity.
Qed.

Lemma accept_node p v :
  is_node U v = true -> parse U nodeSchema p (Some v) = (valid, []).
Proof.
  destruct v as [| | | | |ms]; try discriminate. unfold is_node.
  destruct (get "type" ms) as [[| | |type| |]|] eqn:Ht; try discriminate.
  intros H. rewrite (nodeSchema_pick p ms type Ht).
  unfold has_base, variant_fields, node_keys in H.
  destruct (String.eqb_spec type "text") as [->|_].
  { split_conditions. evaluate_schema textNodeSchema. accept_fields.
    constructor; [|constructor].
    eapply accept_unknown_keys; [eassumption | reflexivity]. }
  destruct (String.eqb_spec type "file") as [->|_].
  { split_conditions. evaluate_schema fileNodeSchema. accept_fields.
    constructor; [|constructor].
    eapply accept_unknown_keys; [eassumption | reflexivity]. }
  destruct (String.eqb_spec type "link") as [->|_].
  { split_conditions. evaluate_schema linkNodeSchema. accept_fields.
    constructor; [|constructor].
    eapply accept_unknown_keys; [eassumption | reflexivity]. }
  destruct (String.eqb_spec type "group") as [->|_].
  { split_conditions. evaluate_schema groupNodeSchema. accept_fields.
    constructor; [|constructor].
    eapply accept_unknown_keys; [eassumption | reflexivity]. }
  rewrite andb_false_r in H. discriminate.
Qed.

Lemma accept_edge p v :
  is_edge v = true -> parse U edgeSchema p (Some v) = (valid, []).
Proof.
  destruct v as [| | | | |ms]; try discriminate. unfold is_edge. intros H.
  split_conditions. evaluate_schema edgeSchema. unfold is_side, is_end in *.
  accept_fields. constructor; [|constructor].
  eapply accept_unknown_keys; [eassumption | reflexivity].
Qed.

Lemma accept_optional_array element P p ms k :
  (forall q x, P x = true -> parse U element q (Some x) = (valid, [])) ->
  optional ms k (is_array_of P) = true ->
  parse U (z_optional (z_array element)) p (get k ms) = (valid, []).
Proof.
  intros Hel. unfold optional.
  destruct (get k ms) as [[| | | |items|]|]; simpl; try discriminate; try reflexivity.
  intros H. apply merge_results_valid, parse_items_valid.
  intros i x Hx. apply Hel. rewrite forallb_forall in H. apply H.
  apply list_elem_of_In, list_elem_of_lookup. eauto.
Qed.

Lemma accept_canvas v :
  is_canvas U v = true -> parse U canvasSchema [] (Some v) = (valid, []).
Proof.
  destruct v as [| | | | |ms]; try discriminate. unfold is_canvas. intros H.
  split_conditions. evaluate_schema canvasSchema.
  rewrite parse_object; cbn [map app fst snd].
  apply merge_results_valid. repeat constructor.
  - eapply accept_optional_array; [|eassumption]. intros; now apply accept_node.
  - eapply accept_optional_array; [|eassumption]. intros; now apply accept_edge.
  - eapply accept_unknown_keys; [eassumption | reflexivity].
Qed.

End Documents.

End CanvasFacts.

(** * An unknown key is reported at the object that holds it *)

Module UnknownKeys.

Import Zod ZodFacts CanvasSpec CanvasFacts.

Lemma get_set_eq k v ms : get k (Json.set k v ms) = Some v.
Proof.
  induction ms as [|[k' v'] ms IH]; simpl.
  - now rewrite String.eqb_refl.
  - destruct (String.eqb k k') eqn:E; simpl; rewrite ?E, ?String.eqb_refl; auto.
Qed.

Lemma get_set_ne k k' v ms : k' <> k -> get k' (Json.set k v ms) = get k' ms.
Proof.
  intros Hne. apply String.eqb_neq in Hne.
  induction ms as [|[k0 v0] ms IH]; simpl.
  - now rewrite Hne.
  - destruct (String.eqb k k0) eqn:E; simpl.
    + apply String.eqb_eq in E. subst k0. now rewrite Hne.
    + destruct (String.eqb k' k0); auto.
Qed.

Lemma keys_set_present k v v0 ms : get k ms = Some v0 -> keys (Json.set k v ms) = keys ms.
Proof.
  unfold keys. induction ms as [|[k' v'] ms IH]; simpl; [discriminate|].
  destruct (String.eqb k k') eqn:E; simpl.
  - apply String.eqb_eq in E. now subst.
  - intros H. f_equal. now apply IH.
Qed.

Lemma extraKeys_set_present sh k v v0 ms :
  get k ms = Some v0 -> extraKeys sh (Json.set k v ms) = extraKeys sh ms.
Proof. intros H. unfold extraKeys. now rewrite (keys_set_present k v v0 ms H). Qed.

Section Reject.

Variable U : string -> bool.

Lemma addIssue_unknown_key p k msg :
  addIssue p [] (unrecognized_keys [k]) msg = unknown_key_issue p k msg.
Proof. unfold addIssue, unknown_key_issue. now rewrite app_nil_r. Qed.

Ltac extra_key_of Hvalid Hk Hm :=
  eapply strict_object_extra_key;
  [ exact Hvalid
  | eapply inb_false_subset; [|exact Hk]; reflexivity
  | exact Hm ].

Lemma reject_node_extra_key p node type k v node' :
  is_node U (JObject node) = true ->
  get "type" node = Some (JString type) ->
  inb k (node_keys type) = false ->
  with_member k v node node' ->
  parse U nodeSchema p (Some (JObject node'))
  = (dirty, [unknown_key_issue p k None]).
Proof.
  intros Hnode Ht Hk Hm.
  pose proof (accept_node U p _ Hnode) as Hvalid.
  rewrite (nodeSchema_pick U p node type Ht) in Hvalid.
  assert (get "type" node' = Some (JString type)) as Ht'.
  { rewrite (get_with_member k v node node' "type" Hm); [assumption|].
    intros <-. unfold node_keys in Hk. simpl in Hk. discriminate. }
  rewrite (nodeSchema_pick U p node' type Ht'), <- addIssue_unknown_key.
  unfold is_node in Hnode. rewrite Ht in Hnode. unfold variant_fields in Hnode.
  destruct (String.eqb_spec type "text") as [->|_].
  { evaluate_schema textNodeSchema. evaluate_schema textNodeSchema in Hvalid.
    extra_key_of Hvalid Hk Hm. }
  destruct (String.eqb_spec type "file") as [->|_].
  { evaluate_schema fileNodeSchema. evaluate_schema fileNodeSchema in Hvalid.
    extra_key_of Hvalid Hk Hm. }
  destruct (String.eqb_spec type "link") as [->|_].
  { evaluate_schema linkNodeSchema. evaluate_schema linkNodeSchema in Hvalid.
    extra_key_of Hvalid Hk Hm. }
  destruct (String.eqb_spec type "group") as [->|_].
  { evaluate_schema groupNodeSchema. evaluate_schema groupNodeSchema in Hvalid.
    extra_key_of Hvalid Hk Hm. }
  rewrite andb_false_r in Hnode. discriminate.
Qed.

Lemma reject_edge_extra_key p edge k v edge' :
  is_edge (JObject edge) = true ->
  inb k edge_keys = false ->
  with_member k v edge edge' ->
  parse U edgeSchema p (Some (JObject edge'))
  = (dirty, [unknown_key_issue p k None]).
Proof.
  intros Hedge Hk Hm.
  pose proof (accept_edge U p _ Hedge) as Hvalid.
  rewrite <- addIssue_unknown_key.
  evaluate_schema edgeSchema. evaluate_schema edgeSchema in Hvalid.
  extra_key_of Hvalid Hk Hm.
Qed.

(** One element of a valid optional array turns dirty. *)
Lemma reject_in_array element P k items i x x' issues :
  (forall q y, P y = true -> parse U element q (Some y) = (valid, [])) ->
  forallb P items = true ->
  items !! i = Some x ->
  parse U element ([PKey k] ++ [PIndex i]) (Some x') = (dirty, issues) ->
  parse U (z_optional (z_array element)) [PKey k] (Some (JArray (<[i := x']> items)))
  = (dirty, issues).
Proof.
  intros Hel Hall Hi Hx'. cbn [parse].
  eapply parse_items_one_dirty; [|exact Hi|exact Hx'].
  apply parse_items_valid. intros j y Hy. apply Hel.
  rewrite forallb_forall in Hall. apply Hall.
  apply list_elem_of_In, list_elem_of_lookup. eauto.
Qed.

Lemma canvasSchema_shape :
  canvasSchema
  = z_object [("nodes", z_optional (z_array nodeSchema));
              ("edges", z_optional (z_array edgeSchema))]
      (strict_keys (Some "Canvas object must only contain 'nodes' and 'edges' properties")).
Proof. reflexivity. Qed.

Lemma reject_unknown_key doc holder k doc' :
  is_canvas U doc = true ->
  adds_unknown_key doc holder k doc' ->
  parse U canvasSchema [] (Some doc')
  = (dirty,
     [unknown_key_issue holder k
        (match holder with
         | [] => Some "Canvas object must only contain 'nodes' and 'edges' properties"
         | _ => None
         end)]).
Proof.
  intros Hdoc Hadd. pose proof (accept_canvas U doc Hdoc) as Hvalid.
  destruct Hadd as [ms k v ms' Hk Hm
                   |ms nodes i type node k v node' Hnodes Hi Ht Hk Hm
                   |ms edges i edge k v edge' Hedges Hi Hk Hm].
  - rewrite <- addIssue_unknown_key.
    evaluate_schema canvasSchema. evaluate_schema canvasSchema in Hvalid.
    eapply strict_object_extra_key; [exact Hvalid | exact Hk | exact Hm].
  - unfold is_canvas in Hdoc. split_conditions.
    match goal with H : optional ms "nodes" _ = true |- _ =>
      unfold optional in H; rewrite Hnodes in H; cbn [is_array_of] in H; rename H into Hall end.
    assert (is_node U (JObject node) = true) as Hnode.
    { rewrite forallb_forall in Hall. apply Hall.
      apply list_elem_of_In, list_elem_of_lookup. eauto. }
    rewrite canvasSchema_shape, parse_object; cbn [map app fst snd].
    rewrite get_set_eq, get_set_ne by discriminate.
    rewrite (extraKeys_set_present _ _ _ _ _ Hnodes).
    rewrite (reject_in_array nodeSchema (is_node U) "nodes" nodes i (JObject node)
               (JObject node') [unknown_key_issue [PKey "nodes"; PIndex i] k None]);
      [ | intros; now apply accept_node | exact Hall | exact Hi
        | now apply (reject_node_extra_key _ node type k v node') ].
    rewrite (accept_optional_array U edgeSchema is_edge _ ms "edges");
      [ | intros; now apply accept_edge | eassumption ].
    erewrite accept_unknown_keys; [reflexivity | eassumption | reflexivity].
  - unfold is_canvas in Hdoc. split_conditions.
    match goal with H : optional ms "edges" _ = true |- _ =>
      unfold optional in H; rewrite Hedges in H; cbn [is_array_of] in H; rename H into Hall end.
    assert (is_edge (JObject edge) = true) as Hedge.
    { rewrite forallb_forall in Hall. apply Hall.
      apply list_elem_of_In, list_elem_of_lookup. eauto. }
    rewrite canvasSchema_shape, parse_object; cbn [map app fst snd].
    rewrite get_set_eq, get_set_ne by discriminate.
    rewrite (extraKeys_set_present _ _ _ _ _ Hedges).
    rewrite (reject_in_array edgeSchema is_edge "edges" edges i (JObject edge)
               (JObject edge') [unknown_key_issue [PKey "edges"; PIndex i] k None]);
      [ | intros; now apply accept_edge | exact Hall | exact Hi
        | now apply (reject_edge_extra_key _ edge k v edge') ].
    rewrite (accept_optional_array U nodeSchema (is_node U) _ ms "nodes");
      [ | intros; now apply accept_node | eassumption ].
    erewrite accept_unknown_keys; [reflexivity | eassumption | reflexivity].
Qed.

End Reject.

End UnknownKeys.

(** * The canvas schema: what the specification claims *)

(** C5, as amended: every parsed JSON value that conforms to the canvas
    data model of section 3 is accepted by the canvas schema; and when an
    unknown key is added to such a document, at the top level, in a node or
    in an edge, validation rejects it with exactly one issue, an
    [unrecognized_keys] issue that lists the key and whose field path is
    the path of the object that holds the key (empty for the document,
    [nodes.i] for a node, [edges.i] for an edge). *)
Theorem canvas_schema_accepts_model_and_reports_unknown_keys :
  forall (valid_url : string -> bool) (doc : value),
    CanvasSpec.is_canvas valid_url doc = true ->
    Zod.safeParse valid_url canvasSchema doc = Zod.success
    /\ forall holder k doc',
         CanvasSpec.adds_unknown_key doc holder k doc' ->
         Zod.safeParse valid_url canvasSchema doc'
         = Zod.failure
             [ {| Zod.code := Zod.unrecognized_keys [k];
                  Zod.path := holder;
                  Zod.message :=
                    match holder with
                    | [] => "Canvas object must only contain 'nodes' and 'edges' properties"
                    | _ => "Unrecognized key(s) in object: '" +:+ k +:+ "'"
                    end |} ].
Proof.
  intros valid_url doc Hdoc. split.
  - unfold Zod.safeParse. now rewrite (CanvasFacts.accept_canvas valid_url doc Hdoc).
  - intros holder k doc' Hadd. unfold Zod.safeParse.
    rewrite (UnknownKeys.reject_unknown_key valid_url doc holder k doc' Hdoc Hadd).
    cbn [fst snd]. unfold unknown_key_issue. now destruct holder.
Qed.

Lemma canvas_schema_accepts_model_and_reports_unknown_keys_witness :
  CanvasSpec.is_canvas has_scheme small_canvas = true
  /\ Zod.safeParse has_scheme canvasSchema small_canvas = Zod.success
  /\ Zod.safeParse has_scheme canvasSchema
       (JObject [("nodes", JArray [JObject (one_text_node ++ [("colour", JString "red")])]);
                 ("edges", JArray [])])
     = Zod.failure
         [ {| Zod.code := Zod.unrecognized_keys ["colour"];
              Zod.path := [Zod.PKey "nodes"; Zod.PIndex 0];
              Zod.message := "Unrecognized key(s) in object: 'colour'" |} ].
Proof.
  split; [reflexivity|].
  destruct (canvas_schema_accepts_model_and_reports_unknown_keys has_scheme small_canvas eq_refl)
    as [Haccept Hreject].
  split; [exact Haccept|].
  assert (CanvasSpec.with_member "colour" (JString "red") one_text_node
            (one_text_node ++ [("colour", JString "red")])) as Hmember.
  { exists one_text_node, []. split; reflexivity. }
  exact (Hreject _ "colour" _
           (CanvasSpec.add_node
              [("nodes", JArray [JObject one_text_node]); ("edges", JArray [])]
              [JObject one_text_node] 0%nat "text" one_text_node "colour" (JString "red")
              (one_text_node ++ [("colour", JString "red")])
              eq_refl eq_refl eq_refl eq_refl Hmember)).
Defined.

(** C5 as the specification words it does not hold: for an unknown key at
    the top level, and for one in a node, no issue has a field path that
    goes through the key. *)
Lemma unknown_key_is_not_in_the_field_path :
  CanvasSpec.is_canvas has_scheme small_canvas = true
  /\ CanvasSpec.adds_unknown_key (JObject []) [] "colour" (JObject [("colour", JString "red")])
  /\ ~ rejects_with_path_to_key has_scheme (JObject [("colour", JString "red")]) "colour"
  /\ ~ rejects_with_path_to_key has_scheme
         (JObject [("nodes", JArray [JObject (one_text_node ++ [("colour", JString "red")])]);
                   ("edges", JArray [])]) "colour".
Proof.
  split; [reflexivity|]. split.
  { apply CanvasSpec.add_top with (v := JString "red"); [reflexivity|].
    exists [], []. split; reflexivity. }
  split; intros (issues & Hparse & Hpath); vm_compute in Hparse;
    injection Hparse as <-;
    apply Exists_cons in Hpath as [Hin | Hnil];
    try (now apply Exists_nil in Hnil);
    simpl in Hin; intuition discriminate.
Qed.

(** C6: the refinement of [content] in the input schemas accepts a string
    exactly when the check inside [createCanvas] and [editCanvas] accepts
    it, and rejects it exactly when that check throws; the check leaves the
    file system alone. *)
Theorem content_checks_agree :
  forall (node : NodeRuntime) (utils : RepoUtils) (sanitizedFilename content : string) (w : world),
    (content_refine content = true
     <-> exists parsed, parse_content sanitizedFilename content w = (returned parsed, w))
    /\ (content_refine content = false
        <-> exists e, parse_content sanitizedFilename content w = (thrown (McpError e), w)).
Proof.
  intros node utils name content w.
  unfold content_refine, parse_content, Zod.parse_or_throw.
  destruct (JSON_parse content) as [msg|parsed];
    [|destruct (Zod.safeParse URL_canParse canvasSchema parsed)];
    split; split; intros H;
    try discriminate; try reflexivity;
    try (destruct H as (? & H); discriminate);
    eexists; reflexivity.
Qed.

(** * The canvas schema accepts nothing but the data model *)

Module CanvasConverse.

Import Zod ZodFacts CanvasSpec CanvasFacts.

Lemma extraKeys_closed ms allowed sh :
  extraKeys sh ms = [] ->
  forallb (fun k => inb k allowed) (map fst sh) = true ->
  closed ms allowed = true.
Proof.
  unfold closed, extraKeys. intros He Hs.
  induction (keys ms) as [|k ks IH]; [reflexivity|].
  simpl in *. destruct (inb k (map fst sh)) eqn:Hk; simpl in He; [|discriminate].
  rewrite forallb_forall in Hs. rewrite (Hs k (inb_true_In _ _ Hk)). simpl. auto.
Qed.

Section Only.

Variable U : string -> bool.

Lemma only_nonempty_string p ms k :
  parse U (z_string [check_min 1]) p (get k ms) = (valid, []) ->
  required ms k is_nonempty_string = true.
Proof.
  unfold required. destruct (get k ms) as [[]|]; simpl; try discriminate.
  destruct s; simpl; [discriminate | reflexivity].
Qed.

Lemma only_string p ms k :
  parse U (z_string []) p (get k ms) = (valid, []) -> required ms k is_string = true.
Proof. unfold required. destruct (get k ms) as [[]|]; simpl; try discriminate. reflexivity. Qed.

Lemma only_optional_string p ms k :
  parse U (z_optional (z_string [])) p (get k ms) = (valid, []) ->
  optional ms k is_string = true.
Proof. unfold optional. destruct (get k ms) as [[]|]; simpl; try discriminate; reflexivity. Qed.

Lemma only_integer p ms k :
  parse U (z_number [check_int]) p (get k ms) = (valid, []) -> required ms k is_integer = true.
Proof.
  unfold required. destruct (get k ms) as [[| |[]| | |]|]; simpl; try discriminate.
  destruct (if 0 <=? e then true else m mod 10 ^ (- e) =? 0); [reflexivity | discriminate].
Qed.

Lemma only_positive_integer p ms k :
  parse U (z_number [check_int; check_positive]) p (get k ms) = (valid, []) ->
  required ms k is_positive_integer = true.
Proof.
  unfold required. destruct (get k ms) as [[| |[m e|negative]| | |]|]; simpl; try discriminate.
  destruct (if 0 <=? e then true else m mod 10 ^ (- e) =? 0); simpl;
    destruct (Z.leb_spec m 0); simpl; try discriminate.
  intros _. apply Z.ltb_lt. lia.
Qed.

Lemma only_url p ms k :
  parse U (z_string [check_url]) p (get k ms) = (valid, []) -> required ms k (is_url U) = true.
Proof.
  unfold required. destruct (get k ms) as [[]|]; simpl; try discriminate.
  destruct (U s); [reflexivity | discriminate].
Qed.

Lemma only_subpath p ms k :
  parse U (z_optional (z_string [check_startsWith "#"])) p (get k ms) = (valid, []) ->
  optional ms k is_subpath = true.
Proof.
  unfold optional. destruct (get k ms) as [[]|]; simpl; try discriminate; try reflexivity.
  destruct s as [|c s]; [discriminate|]. unfold startsWith. cbn [String.prefix].
  destruct (ascii_dec "#" c) as [<-|]; [reflexivity | simpl; discriminate].
Qed.

Lemma only_optional_enum values p ms k :
  parse U (z_optional (z_enum values)) p (get k ms) = (valid, []) ->
  optional ms k (one_of values) = true.
Proof.
  unfold optional. destruct (get k ms) as [[]|]; simpl; try discriminate; try reflexivity.
  destruct (inb s values); [reflexivity | discriminate].
Qed.

Lemma spec_of_hex_color s :
  hex_color_regex s = true ->
  match list_ascii_of_string s with
  | [h; a; b; c; d; e; f] => Ascii.eqb h "#" && forallb is_hex_digit [a; b; c; d; e; f]
  | _ => false
  end = true.
Proof.
  unfold hex_color_regex. destruct s as [|h s]; [discriminate|].
  destruct (Ascii.eqb_spec h "#") as [->|Hne].
  - intros H. apply andb_prop in H as [Hlen Hd]. apply Nat.eqb_eq in Hlen.
    destruct s as [|a [|b [|c [|d [|e [|f [|]]]]]]]; try discriminate.
    simpl. exact Hd.
  - intros H. exfalso. apply Hne.
    destruct h as [[] [] [] [] [] [] [] []]; try discriminate. reflexivity.
Qed.

Lemma only_optional_color p ms k :
  parse U (z_optional canvasColorSchema) p (get k ms) = (valid, []) ->
  optional ms k is_color = true.
Proof.
  unfold optional. destruct (get k ms) as [v|]; [|reflexivity].
  destruct v as [| | |s| |]; try discriminate.
  change (parse U (z_optional canvasColorSchema) p (Some (JString s)))
    with (parse U canvasColorSchema p (Some (JString s))).
  rewrite parse_color. unfold is_color.
  destruct (inb s ["1"; "2"; "3"; "4"; "5"; "6"]); [reflexivity|].
  rewrite orb_false_l.
  destruct (hex_color_regex s) eqn:Hhex; [|discriminate].
  intros _. now apply spec_of_hex_color.
Qed.

End Only.

Create HintDb canvas_only.

#[local] Hint Resolve only_nonempty_string only_string only_optional_string only_integer
  only_positive_integer only_url only_subpath only_optional_enum only_optional_color
  : canvas_only.

(** Read the checks of the fields off a valid strict object. *)
Ltac fields_of H :=
  rewrite parse_object in H; cbn [map app fst snd] in H;
  apply merge_results_valid in H;
  repeat match type of H with
         | Forall _ (_ :: _) =>
             let Hfield := fresh "Hfield" in
             apply Forall_cons in H as [Hfield H]
         end.

Ltac closed_of H :=
  match type of H with
  | unknown_keys_result _ _ (extraKeys ?sh ?ms) = _ =>
      apply (extraKeys_closed ms _ sh);
      [ destruct (extraKeys sh ms); [reflexivity | discriminate H] | reflexivity ]
  end.

Section Documents.

Variable U : string -> bool.

Lemma only_node p v :
  parse U nodeSchema p (Some v) = (valid, []) -> is_node U v = true.
Proof.
  destruct v as [| | | | |ms]; try discriminate. unfold is_node.
  destruct (get "type" ms) as [[| | |type| |]|] eqn:Ht;
    try (unfold nodeSchema; cbn [parse]; rewrite Ht; discriminate).
  rewrite (nodeSchema_pick U p ms type Ht).
  unfold has_base, variant_fields, node_keys.
  destruct (String.eqb_spec type "text") as [->|_].
  { evaluate_schema textNodeSchema. intros H. fields_of H.
    repeat (apply andb_true_intro; split); eauto with canvas_only. closed_of Hfield7. }
  destruct (String.eqb_spec type "file") as [->|_].
  { evaluate_schema fileNodeSchema. intros H. fields_of H.
    repeat (apply andb_true_intro; split); eauto with canvas_only. closed_of Hfield8. }
  destruct (String.eqb_spec type "link") as [->|_].
  { evaluate_schema linkNodeSchema. intros H. fields_of H.
    repeat (apply andb_true_intro; split); eauto with canvas_only. closed_of Hfield7. }
  destruct (String.eqb_spec type "group") as [->|_].
  { evaluate_schema groupNodeSchema. intros H. fields_of H.
    repeat (apply andb_true_intro; split); eauto with canvas_only. closed_of Hfield9. }
  discriminate.
Qed.

Lemma only_edge p v :
  parse U edgeSchema p (Some v) = (valid, []) -> is_edge v = true.
Proof.
  destruct v as [| | | | |ms]; try discriminate. unfold is_edge, is_side, is_end.
  evaluate_schema edgeSchema. intros H. fields_of H.
  repeat (apply andb_true_intro; split); eauto with canvas_only. closed_of Hfield8.
Qed.

Lemma only_optional_array element P p ms k :
  (forall q x, parse U element q (Some x) = (valid, []) -> P x = true) ->
  parse U (z_optional (z_array element)) p (get k ms) = (valid, []) ->
  optional ms k (is_array_of P) = true.
Proof.
  intros Hel. unfold optional.
  destruct (get k ms) as [[| | | |items|]|]; simpl; try discriminate; try reflexivity.
  intros H. apply merge_results_valid in H.
  apply forallb_forall. intros x Hx.
  apply list_elem_of_In, list_elem_of_lookup in Hx as [i Hi].
  apply (Hel (p ++ [PIndex (0 + i)])).
  now apply (parse_items_valid_inv (parse U element) p 0 items H i x).
Qed.

Lemma only_canvas v :
  parse U canvasSchema [] (Some v) = (valid, []) -> is_canvas U v = true.
Proof.
  destruct v as [| | | | |ms]; try discriminate. unfold is_canvas.
  rewrite UnknownKeys.canvasSchema_shape. intros H. fields_of H.
  repeat (apply andb_true_intro; split).
  - eapply only_optional_array; [|exact Hfield]. intros q x. apply only_node.
  - eapply only_optional_array; [|exact Hfield0]. intros q x. apply only_edge.
  - closed_of Hfield1.
Qed.

(** A value is accepted exactly when its status is valid. *)
Lemma parse_valid_no_issues s p input :
  fst (parse U s p input) = valid -> parse U s p input = (valid, snd (parse U s p input)).
Proof. intros H. rewrite <- H. apply surjective_pairing. Qed.

End Documents.

End CanvasConverse.

(** * A valid status comes without issues *)

Module StatusFacts.

Import Zod ZodFacts.

(** Induction on a schema. *)
Fixpoint schema_tree_ind (P : schema -> Prop)
    (Hstring : forall checks, P (z_string checks))
    (Hnumber : forall checks, P (z_number checks))
    (Hliteral : forall v, P (z_literal v))
    (Henum : forall values, P (z_enum values))
    (Hoptional : forall inner, P inner -> P (z_optional inner))
    (Hunion : forall options, Forall P options -> P (z_union options))
    (Harray : forall element, P element -> P (z_array element))
    (Hobject : forall shape uk, Forall (fun ks => P (snd ks)) shape -> P (z_object shape uk))
    (Hdisc : forall d options, Forall P options -> P (z_discriminatedUnion d options))
    (s : schema) {struct s} : P s :=
  let rec := schema_tree_ind P Hstring Hnumber Hliteral Henum Hoptional Hunion Harray
               Hobject Hdisc in
  match s with
  | z_string checks => Hstring checks
  | z_number checks => Hnumber checks
  | z_literal v => Hliteral v
  | z_enum values => Henum values
  | z_optional inner => Hoptional inner (rec inner)
  | z_union options =>
      Hunion options
        ((fix all (os : list schema) : Forall P os :=
            match os with
            | [] => @List.Forall_nil _ P
            | o :: os' => @List.Forall_cons _ P o os' (rec o) (all os')
            end) options)
  | z_array element => Harray element (rec element)
  | z_object shape uk =>
      Hobject shape uk
        ((fix all (sh : list (string * schema)) : Forall (fun ks => P (snd ks)) sh :=
            match sh with
            | [] => @List.Forall_nil _ (fun ks => P (snd ks))
            | ks :: sh' =>
                @List.Forall_cons _ (fun ks => P (snd ks)) ks sh' (rec (snd ks)) (all sh')
            end) shape)
  | z_discriminatedUnion d options =>
      Hdisc d options
        ((fix all (os : list schema) : Forall P os :=
            match os with
            | [] => @List.Forall_nil _ P
            | o :: os' => @List.Forall_cons _ P o os' (rec o) (all os')
            end) options)
  end.

Lemma merge_results_clean rs : Forall clean rs -> clean (merge_results rs).
Proof.
  induction 1 as [|r rs Hr _ IH]; [intros _; reflexivity|].
  rewrite merge_results_cons. intros Hs. cbn [fst snd] in *.
  apply merge_status_valid in Hs as [H1 H2]. now rewrite (Hr H1), (IH H2).
Qed.

Lemma union_result_clean p rs firstDirty :
  Forall clean rs ->
  match firstDirty with Some r => fst r = dirty | None => True end ->
  clean (union_result p rs firstDirty).
Proof.
  revert firstDirty. induction rs as [|r rs IH]; intros firstDirty Hrs Hd; simpl.
  - destruct firstDirty as [r|]; intros H; [congruence | discriminate].
  - inversion Hrs as [|? ? Hr Hrs']; subst.
    destruct (fst r) eqn:Hf; [intros _; reflexivity | | now apply IH].
    apply IH; [assumption|]. now destruct firstDirty.
Qed.

Lemma pick_option_In data os r :
  pick_option data os = Some r -> exists d, In (d, r) os.
Proof.
  induction os as [|[d r'] os IH]; simpl; [discriminate|].
  destruct d as [v|], data as [[| | |s| |]|];
    try (intros H; destruct (IH H) as [d' Hd']; eauto; fail).
  destruct (String.eqb s v).
  - intros [= <-]. eauto.
  - intros H. destruct (IH H) as [d' Hd']. eauto.
Qed.

Section Clean.

Variable U : string -> bool.

Lemma string_check_clean p data c : clean (run_string_check U p data c).
Proof.
  unfold clean. destruct c; simpl;
    match goal with |- context [if ?b then _ else _] => destruct b end;
    simpl; congruence.
Qed.

Lemma number_check_clean p data c : clean (run_number_check p data c).
Proof.
  unfold clean. destruct c; simpl;
    match goal with |- context [if ?b then _ else _] => destruct b end;
    simpl; congruence.
Qed.

Lemma parse_items_clean item p i xs :
  (forall q x, clean (item q x)) -> Forall clean (parse_items item p i xs).
Proof. intros H. revert i. induction xs; intros i; simpl; constructor; auto. Qed.

(** Every schema gives a valid status only when it raised no issue. *)
Lemma parse_clean s : forall p input, clean (parse U s p input).
Proof.
  induction s as [checks|checks|v|values|inner IH|options IH|element IH|shape uk IH|d options IH]
    using schema_tree_ind; intros p input.
  - destruct input as [[]|]; try (intros H; discriminate H).
    apply merge_results_clean, List.Forall_forall. intros r Hr.
    apply in_map_iff in Hr as (c & <- & _). apply string_check_clean.
  - destruct input as [[]|]; try (intros H; discriminate H).
    apply merge_results_clean, List.Forall_forall. intros r Hr.
    apply in_map_iff in Hr as (c & <- & _). apply number_check_clean.
  - destruct input as [[]|]; try (intros H; discriminate H).
    unfold clean. simpl. destruct (String.eqb s v); intros H; [reflexivity | discriminate H].
  - destruct input as [[]|]; try (intros H; discriminate H).
    unfold clean. simpl. destruct (inb s values); intros H; [reflexivity | discriminate H].
  - destruct input as [v|]; [apply IH | intros _; reflexivity].
  - cbn [parse]. apply union_result_clean; [|exact I].
    apply List.Forall_forall. intros r Hr. apply in_map_iff in Hr as (o & <- & Ho).
    rewrite List.Forall_forall in IH. now apply IH.
  - destruct input as [[]|]; try (intros H; discriminate H).
    cbn [parse]. apply merge_results_clean, parse_items_clean. intros q x. apply IH.
  - destruct input as [[]|]; try (intros H; discriminate H).
    cbn [parse]. apply merge_results_clean, Forall_app. split.
    + apply List.Forall_forall. intros r Hr. apply in_map_iff in Hr as (ks & <- & Hks).
      rewrite List.Forall_forall in IH. now apply (IH ks).
    + constructor; [|constructor]. unfold clean.
      destruct uk as [|msg]; [reflexivity|]. simpl.
      destruct (extraKeys shape members); intros H; [reflexivity | discriminate H].
  - destruct input as [[]|]; try (intros H; discriminate H).
    cbn [parse].
    destruct (pick_option (get d members)
                (map (fun o => (discriminator_of d o, parse U o p (Some (JObject members))))
                     options)) as [r|] eqn:Hpick; [|intros H; discriminate H].
    apply pick_option_In in Hpick as [d' Hin].
    apply in_map_iff in Hin as (o & [= _ <-] & Ho).
    rewrite List.Forall_forall in IH. now apply IH.
Qed.

(** [safeParse] succeeds exactly when [parse] raised nothing. *)
Lemma safeParse_success s data :
  safeParse U s data = success <-> parse U s [] (Some data) = (valid, []).
Proof.
  unfold safeParse. split.
  - destruct (fst (parse U s [] (Some data))) eqn:Hs; try discriminate.
    intros _. rewrite (surjective_pairing (parse U s [] (Some data))), Hs.
    now rewrite (parse_clean s [] (Some data) Hs).
  - now intros ->.
Qed.

End Clean.

End StatusFacts.

(** * The canvas schema at its edges *)

Module SchemaEdges.

Import Zod ZodFacts CanvasSpec CanvasFacts.

Lemma merge_results_issue iss r rs :
  In r rs -> In iss (snd r) -> In iss (snd (merge_results rs)).
Proof.
  intros Hr Hi. unfold merge_results. cbn [snd]. apply in_concat.
  exists (snd r). split; [now apply in_map | exact Hi].
Qed.

Lemma merge_results_aborted r rs :
  In r rs -> fst r = aborted -> fst (merge_results rs) = aborted.
Proof.
  intros Hr Ha. induction rs as [|r' rs IH]; [destruct Hr|].
  rewrite merge_results_cons. cbn [fst]. destruct Hr as [->|Hr].
  - rewrite Ha. reflexivity.
  - rewrite (IH Hr). now destruct (fst r').
Qed.

Section WithUrl.

Variable U : string -> bool.

(** A field of an object that fails makes the object fail with it. *)
Lemma object_field_issue sh uk p ms k s iss :
  In (k, s) sh ->
  parse U s (p ++ [PKey k]) (get k ms) = (aborted, [iss]) ->
  fst (parse U (z_object sh uk) p (Some (JObject ms))) = aborted
  /\ In iss (snd (parse U (z_object sh uk) p (Some (JObject ms)))).
Proof.
  intros Hin Hfield. rewrite parse_object.
  assert (In (parse U s (p ++ [PKey k]) (get k ms))
            (map (fun ks => parse U (snd ks) (p ++ [PKey (fst ks)]) (get (fst ks) ms)) sh
             ++ [unknown_keys_result p uk (extraKeys sh ms)])) as Hr.
  { apply in_or_app. left. apply in_map_iff. exists (k, s). auto. }
  split.
  - eapply merge_results_aborted; [exact Hr|]. now rewrite Hfield.
  - eapply merge_results_issue; [exact Hr|]. rewrite Hfield. now left.
Qed.

Lemma node_accepted n : safeParse U nodeSchema n = success <-> is_node U n = true.
Proof.
  rewrite StatusFacts.safeParse_success. split.
  - apply CanvasConverse.only_node.
  - apply accept_node.
Qed.

Lemma edge_accepted e : safeParse U edgeSchema e = success <-> is_edge e = true.
Proof.
  rewrite StatusFacts.safeParse_success. split.
  - apply CanvasConverse.only_edge.
  - apply accept_edge.
Qed.

Lemma forallb_Forall_iff {A} (P : A -> bool) (Q : A -> Prop) l :
  (forall x, Q x <-> P x = true) -> forallb P l = true <-> Forall Q l.
Proof.
  intros HPQ. rewrite forallb_forall, List.Forall_forall.
  split; intros H x Hx; apply HPQ; auto.
Qed.

Lemma canvas_elementwise nodes edges :
  safeParse U canvasSchema (JObject [("nodes", JArray nodes); ("edges", JArray edges)]) = success
  <-> Forall (fun n => safeParse U nodeSchema n = success) nodes
      /\ Forall (fun e => safeParse U edgeSchema e = success) edges.
Proof.
  rewrite StatusFacts.safeParse_success.
  rewrite <- (forallb_Forall_iff (is_node U) _ nodes node_accepted).
  rewrite <- (forallb_Forall_iff is_edge _ edges edge_accepted).
  rewrite <- andb_true_iff.
  assert (is_canvas U (JObject [("nodes", JArray nodes); ("edges", JArray edges)])
          = forallb (is_node U) nodes && forallb is_edge edges) as <-.
  { unfold is_canvas, optional, closed. cbn. now rewrite andb_true_r. }
  split; [apply CanvasConverse.only_canvas | apply accept_canvas].
Qed.

(** The node's [type] is not one of the four: nothing else of the node
    is looked at. *)
Lemma node_unknown_type p ms :
  (forall t, get "type" ms = Some (JString t) -> ~ In t ["text"; "file"; "link"; "group"]) ->
  parse U nodeSchema p (Some (JObject ms))
  = (aborted,
     [{| code := invalid_union_discriminator ["text"; "file"; "link"; "group"];
         path := p ++ [PKey "type"];
         message := "Invalid discriminator value. Expected 'text' | 'file' | 'link' | 'group'" |}]).
Proof.
  intros Hnot.
  destruct (get "type" ms) as [[| | |t| |]|] eqn:Ht;
    try (unfold nodeSchema; cbn [parse]; rewrite Ht; reflexivity).
  rewrite (nodeSchema_pick U p ms t Ht). specialize (Hnot t eq_refl). cbn in Hnot.
  destruct (String.eqb_spec t "text") as [->|_]; [tauto|].
  destruct (String.eqb_spec t "file") as [->|_]; [tauto|].
  destruct (String.eqb_spec t "link") as [->|_]; [tauto|].
  destruct (String.eqb_spec t "group") as [->|_]; [tauto|].
  reflexivity.
Qed.

Ltac missing_field Hk :=
  match type of Hk with
  | get ?k _ = None => eapply (object_field_issue _ _ _ _ k)
  end;
  [ cbn [In]; eauto 12
  | rewrite Hk; cbn [parse]; unfold addIssue, required_issue;
    rewrite app_nil_r; reflexivity ].

Lemma node_missing_field p ms t k expected :
  get "type" ms = Some (JString t) ->
  In t ["text"; "file"; "link"; "group"] ->
  In (k, expected) [("id", "string"); ("x", "number"); ("y", "number");
                    ("width", "number"); ("height", "number")]
  \/ In (t, k, expected) [("text", "text", "string"); ("file", "file", "string");
                          ("link", "url", "string")] ->
  get k ms = None ->
  fst (parse U nodeSchema p (Some (JObject ms))) = aborted
  /\ In (required_issue expected p k) (snd (parse U nodeSchema p (Some (JObject ms)))).
Proof.
  intros Ht Hknown Hk Hmissing. rewrite (nodeSchema_pick U p ms t Ht).
  cbn [In] in Hknown, Hk.
  destruct Hknown as [<-|[<-|[<-|[<-|[]]]]]; cbn [String.eqb Ascii.eqb Bool.eqb];
    [ evaluate_schema textNodeSchema | evaluate_schema fileNodeSchema
    | evaluate_schema linkNodeSchema | evaluate_schema groupNodeSchema ];
    destruct Hk as [[H|[H|[H|[H|[H|[]]]]]] | [H|[H|[H|[]]]]];
    try discriminate H; injection H as <- <-;
    missing_field Hmissing.
Qed.

Lemma edge_missing_field p ms k :
  In k ["id"; "fromNode"; "toNode"] ->
  get k ms = None ->
  fst (parse U edgeSchema p (Some (JObject ms))) = aborted
  /\ In (required_issue "string" p k) (snd (parse U edgeSchema p (Some (JObject ms)))).
Proof.
  intros Hk Hmissing. evaluate_schema edgeSchema. cbn [In] in Hk.
  destruct Hk as [<-|[<-|[<-|[]]]]; missing_field Hmissing.
Qed.

End WithUrl.

(** ** A rejection tells why *)

Lemma merge_results_loud rs : Forall loud rs -> loud (merge_results rs).
Proof.
  induction 1 as [|r rs Hr _ IH]; [intros H; now destruct H|].
  rewrite merge_results_cons. unfold loud in *. cbn [fst snd]. intros Hs Hnil.
  apply app_eq_nil in Hnil as [H1 H2].
  destruct (fst r) eqn:Hf; try (apply Hr; [discriminate | exact H1]).
  destruct (fst (merge_results rs)) eqn:Hm; try (apply IH; [discriminate | exact H2]).
  now apply Hs.
Qed.

Lemma union_result_loud p rs firstDirty :
  Forall loud rs ->
  match firstDirty with Some r => fst r = dirty /\ snd r <> [] | None => True end ->
  loud (union_result p rs firstDirty).
Proof.
  revert firstDirty. induction rs as [|r rs IH]; intros firstDirty Hrs Hd; simpl.
  - destruct firstDirty as [r|]; intros _; [tauto | discriminate].
  - inversion Hrs as [|? ? Hr Hrs']; subst.
    destruct (fst r) eqn:Hf; [intros H; now destruct H | | now apply IH].
    apply IH; [assumption|]. destruct firstDirty as [r'|]; cbn [default]; [exact Hd|].
    split; [exact Hf|]. apply Hr. rewrite Hf. discriminate.
Qed.

Section Loud.

Variable U : string -> bool.

Lemma string_check_loud p data c : loud (run_string_check U p data c).
Proof.
  unfold loud. destruct c; simpl;
    match goal with |- context [if ?b then _ else _] => destruct b end;
    simpl; intros H; congruence.
Qed.

Lemma number_check_loud p data c : loud (run_number_check p data c).
Proof.
  unfold loud. destruct c; simpl;
    match goal with |- context [if ?b then _ else _] => destruct b end;
    simpl; intros H; congruence.
Qed.

Ltac one_issue := unfold loud; cbn [fst snd]; intros _; discriminate.

(** Every schema that does not accept raises at least one issue. *)
Lemma parse_loud s : forall p input, loud (parse U s p input).
Proof.
  induction s as [checks|checks|v|values|inner IH|options IH|element IH|shape uk IH|d options IH]
    using StatusFacts.schema_tree_ind; intros p input.
  - destruct input as [[]|]; try one_issue.
    apply merge_results_loud, List.Forall_forall. intros r Hr.
    apply in_map_iff in Hr as (c & <- & _). apply string_check_loud.
  - destruct input as [[]|]; try one_issue.
    apply merge_results_loud, List.Forall_forall. intros r Hr.
    apply in_map_iff in Hr as (c & <- & _). apply number_check_loud.
  - destruct input as [[]|]; try one_issue.
    unfold loud. simpl. destruct (String.eqb s v); intros H; [now destruct H | discriminate].
  - destruct input as [[]|]; try one_issue.
    unfold loud. simpl. destruct (inb s values); intros H; [now destruct H | discriminate].
  - destruct input as [v|]; [apply IH | intros H; now destruct H].
  - cbn [parse]. apply union_result_loud; [|exact I].
    apply List.Forall_forall. intros r Hr. apply in_map_iff in Hr as (o & <- & Ho).
    rewrite List.Forall_forall in IH. now apply IH.
  - destruct input as [[]|]; try one_issue.
    cbn [parse]. apply merge_results_loud, List.Forall_forall. intros r Hr.
    revert Hr. generalize 0%nat. induction items as [|x xs IHx]; intros i [].
    + subst r. apply IH.
    + now apply (IHx (S i)).
  - destruct input as [[]|]; try one_issue.
    cbn [parse]. apply merge_results_loud, Forall_app. split.
    + apply List.Forall_forall. intros r Hr. apply in_map_iff in Hr as (ks & <- & Hks).
      rewrite List.Forall_forall in IH. now apply (IH ks).
    + constructor; [|constructor]. unfold loud.
      destruct uk as [|msg]; [intros H; now destruct H|]. simpl.
      destruct (extraKeys shape members); intros H; [now destruct H | discriminate].
  - destruct input as [[]|]; try one_issue.
    cbn [parse].
    destruct (pick_option (get d members)
                (map (fun o => (discriminator_of d o, parse U o p (Some (JObject members))))
                     options)) as [r|] eqn:Hpick; [|one_issue].
    apply StatusFacts.pick_option_In in Hpick as [d' Hin].
    apply in_map_iff in Hin as (o & [= _ <-] & Ho).
    rewrite List.Forall_forall in IH. now apply IH.
Qed.

Lemma safeParse_failure s data issues :
  safeParse U s data = failure issues -> issues <> [].
Proof.
  unfold safeParse. pose proof (parse_loud s [] (Some data)) as Hl. unfold loud in Hl.
  destruct (fst (parse U s [] (Some data))) eqn:Hs; [discriminate| |];
    intros [= <-]; apply Hl; discriminate.
Qed.

End Loud.

(** ** Where the issues point *)

Lemma merge_results_issues iss rs :
  In iss (snd (merge_results rs)) -> exists r, In r rs /\ In iss (snd r).
Proof.
  unfold merge_results. cbn [snd]. intros H. apply in_concat in H as (l & Hl & Hi).
  apply in_map_iff in Hl as (r & <- & Hr). eauto.
Qed.

Lemma parse_items_In item p xs : forall i r,
  In r (parse_items item p i xs) ->
  exists n x, nth_error xs n = Some x /\ r = item (p ++ [PIndex (i + n)]) (Some x).
Proof.
  induction xs as [|x xs IH]; intros i r; cbn [parse_items]; [intros []|].
  intros [<-|Hr].
  - exists 0%nat, x. split; [reflexivity|]. now rewrite Nat.add_0_r.
  - destruct (IH (S i) r Hr) as (n & y & Hn & ->).
    exists (S n), y. split; [exact Hn|].
    now replace (i + S n)%nat with (S i + n)%nat by lia.
Qed.

Lemma under_app p q i : under (p ++ q) i -> under p i.
Proof. intros [sub H]. exists (q ++ sub). now rewrite H, app_assoc. Qed.

Lemma under_here p c msg : under p (addIssue p [] c msg).
Proof. exists []. reflexivity. Qed.

Lemma union_result_under p rs firstDirty :
  Forall (fun r => Forall (under p) (snd r)) rs ->
  match firstDirty with Some r => Forall (under p) (snd r) | None => True end ->
  Forall (under p) (snd (union_result p rs firstDirty)).
Proof.
  revert firstDirty. induction rs as [|r rs IH]; intros firstDirty Hrs Hd; simpl.
  - destruct firstDirty as [r|]; [exact Hd|]. repeat constructor. apply under_here.
  - inversion Hrs as [|? ? Hr Hrs']; subst.
    destruct (fst r); [constructor | | now apply IH].
    apply IH; [assumption|]. now destruct firstDirty.
Qed.

Section Located.

Variable U : string -> bool.

Ltac here := cbn [snd]; repeat constructor; apply under_here.

(** Every issue is about the value parsed or about a part of it. *)
Lemma parse_under s : forall p input, Forall (under p) (snd (parse U s p input)).
Proof.
  induction s as [checks|checks|v|values|inner IH|options IH|element IH|shape uk IH|d options IH]
    using StatusFacts.schema_tree_ind; intros p input.
  - destruct input as [[]|]; try here.
    apply List.Forall_forall. intros i Hi. cbn [parse] in Hi.
    apply merge_results_issues in Hi as (r & Hr & Hi).
    apply in_map_iff in Hr as (c & <- & _).
    destruct c; simpl in Hi;
      match type of Hi with context [if ?b then _ else _] => destruct b end;
      simpl in Hi; first [contradiction | destruct Hi as [<-|[]]; apply under_here].
  - destruct input as [[]|]; try here.
    apply List.Forall_forall. intros i Hi. cbn [parse] in Hi.
    apply merge_results_issues in Hi as (r & Hr & Hi).
    apply in_map_iff in Hr as (c & <- & _).
    destruct c; simpl in Hi;
      match type of Hi with context [if ?b then _ else _] => destruct b end;
      simpl in Hi; first [contradiction | destruct Hi as [<-|[]]; apply under_here].
  - destruct input as [[]|]; try here.
    simpl. destruct (String.eqb s v); [constructor | here].
  - destruct input as [[]|]; try here.
    simpl. destruct (inb s values); [constructor | here].
  - destruct input as [v|]; [apply IH | constructor].
  - cbn [parse]. apply union_result_under; [|exact I].
    apply List.Forall_forall. intros r Hr. apply in_map_iff in Hr as (o & <- & Ho).
    rewrite List.Forall_forall in IH. now apply IH.
  - destruct input as [[]|]; try here.
    apply List.Forall_forall. intros i Hi. cbn [parse] in Hi.
    apply merge_results_issues in Hi as (r & Hr & Hi).
    apply parse_items_In in Hr as (n & x & _ & ->).
    apply (under_app p [PIndex (0 + n)]).
    pose proof (IH (p ++ [PIndex (0 + n)]) (Some x)) as Hall.
    rewrite List.Forall_forall in Hall. now apply Hall.
  - destruct input as [[]|]; try here.
    apply List.Forall_forall. intros i Hi. cbn [parse] in Hi.
    apply merge_results_issues in Hi as (r & Hr & Hi).
    apply in_app_or in Hr as [Hr|[<-|[]]].
    + apply in_map_iff in Hr as (ks & <- & Hks).
      rewrite List.Forall_forall in IH.
      pose proof (IH ks Hks (p ++ [PKey (fst ks)]) (get (fst ks) members)) as Hall.
      rewrite List.Forall_forall in Hall.
      apply (under_app p [PKey (fst ks)]). now apply Hall.
    + destruct uk as [|msg]; [destruct Hi|]. simpl in Hi.
      destruct (extraKeys shape members); simpl in Hi;
        first [contradiction | destruct Hi as [<-|[]]; apply under_here].
  - destruct input as [[]|]; try here.
    cbn [parse].
    destruct (pick_option (get d members)
                (map (fun o => (discriminator_of d o, parse U o p (Some (JObject members))))
                     options)) as [r|] eqn:Hpick.
    + apply StatusFacts.pick_option_In in Hpick as [d' Hin].
      apply in_map_iff in Hin as (o & [= _ <-] & Ho).
      rewrite List.Forall_forall in IH. now apply IH.
    + cbn [snd]. repeat constructor. exists [PKey d]. reflexivity.
Qed.

Lemma array_field_located doc ms k element i :
  doc = JObject ms ->
  k = "nodes" \/ k = "edges" ->
  In i (snd (parse U (z_optional (z_array element)) [PKey k] (get k ms))) ->
  located doc i.
Proof.
  intros -> Hk Hi. right. exists k. split; [exact Hk|].
  destruct (get k ms) as [[| | | |items|]|] eqn:Hget;
    try (destruct Hi as [<-|[]]; left; reflexivity); [|destruct Hi].
  right. cbn [parse] in Hi.
  apply merge_results_issues in Hi as (r & Hr & Hi).
  apply parse_items_In in Hr as (n & x & Hn & ->).
  exists items, n, x. split; [exact Hget|]. split; [exact Hn|].
  pose proof (parse_under element ([PKey k] ++ [PIndex (0 + n)]) (Some x)) as Hall.
  rewrite List.Forall_forall in Hall. now apply Hall.
Qed.

Lemma canvas_issues_located doc :
  Forall (located doc) (snd (parse U canvasSchema [] (Some doc))).
Proof.
  apply List.Forall_forall. intros i Hi.
  rewrite UnknownKeys.canvasSchema_shape in Hi.
  destruct doc as [| | | | |ms]; try (destruct Hi as [<-|[]]; left; reflexivity).
  rewrite parse_object in Hi. cbn [map app fst snd] in Hi.
  apply merge_results_issues in Hi as (r & Hr & Hi).
  destruct Hr as [<-|[<-|[<-|[]]]].
  - eapply array_field_located; [reflexivity | now left | exact Hi].
  - eapply array_field_located; [reflexivity | now right | exact Hi].
  - left. cbn [unknown_keys_result] in Hi.
    destruct (extraKeys _ ms); simpl in Hi;
      first [contradiction | destruct Hi as [<-|[]]; reflexivity].
Qed.

End Located.

End SchemaEdges.

(** * Running the file-system calls *)

Module FsFacts.

Lemma length_append (a b : string) :
  String.length (a +:+ b) = (String.length a + String.length b)%nat.
Proof. induction a as [|c a IH]; simpl; [reflexivity | now rewrite IH]. Qed.

Lemma append_assoc (a b c : string) : (a +:+ b) +:+ c = a +:+ (b +:+ c).
Proof.
  induction a as [|x a IH]; [reflexivity|].
  change (String x ((a +:+ b) +:+ c) = String x (a +:+ (b +:+ c))). now f_equal.
Qed.

Lemma append_ne_self (a b : string) : b <> "" -> a +:+ b <> a.
Proof.
  intros Hb Heq. apply (f_equal String.length) in Heq. rewrite length_append in Heq.
  destruct b; [congruence | simpl in Heq; lia].
Qed.

(** The backup is never the target itself. *)
Lemma backup_path_ne (fullPath : string) (timestamp : Z) :
  backup_path fullPath timestamp <> fullPath.
Proof. unfold backup_path. apply append_ne_self. discriminate. Qed.

Lemma lookup_damaged_ne f dst (fs : gmap string string) p :
  dst <> p -> damaged f dst fs !! p = fs !! p.
Proof. intros Hne. unfold damaged. destruct (fault_residue f); [now rewrite lookup_insert_ne | reflexivity]. Qed.

Section Steps.

Variable env : environment.

(** A computation is run by running its parts. *)
Lemma leads_bind {A B} (c : M A) (k : A -> M B) w Q :
  leads c w (fun r w1 => match r with
                         | returned a => leads (k a) w1 Q
                         | thrown e => Q (thrown e) w1
                         end) ->
  leads (bind c k) w Q.
Proof. unfold leads, bind. now destruct (c w) as [[a|e] w1]. Qed.

Lemma leads_try {A} (c : M A) (h : js_error -> M A) w Q :
  leads c w (fun r w1 => match r with
                         | returned a => Q (returned a) w1
                         | thrown e => leads (h e) w1 Q
                         end) ->
  leads (try_catch c h) w Q.
Proof. unfold leads, try_catch. now destruct (c w) as [[a|e] w1]. Qed.

Lemma leads_step {A} (c : M A) w r w1 (Q : outcome A -> world -> Prop) :
  c w = (r, w1) -> Q r w1 -> leads c w Q.
Proof. unfold leads. now intros ->. Qed.

Lemma leads_result {A} (c : M A) w (Q : outcome A -> world -> Prop) :
  leads c w Q -> exists r w1, c w = (r, w1) /\ Q r w1.
Proof. unfold leads. intros H. exists (fst (c w)), (snd (c w)). now rewrite <- surjective_pairing. Qed.

Lemma fileExists_present p w c :
  files w !! p = Some c ->
  fileExists p w = (returned true, log_event (ev_fs (op_access p) true) w).
Proof. unfold fileExists. now intros ->. Qed.

Lemma fileExists_absent p w :
  files w !! p = None ->
  fileExists p w = (returned false, log_event (ev_fs (op_access p) false) w).
Proof. unfold fileExists. now intros ->. Qed.

Lemma copyFile_works src dst w c :
  works env (op_copyFile src dst) ->
  files w !! src = Some c ->
  copyFile env src dst w
  = (returned tt,
     {| files := <[dst := c]> (files w); log := ev_fs (op_copyFile src dst) true :: log w |}).
Proof. intros Hw Hs. unfold copyFile, attempt. now rewrite Hw, Hs. Qed.

Lemma copyFile_breaks src dst w :
  breaks env (op_copyFile src dst) ->
  let f := the_fault env (length (log w)) (op_copyFile src dst) in
  copyFile env src dst w
  = (thrown (SystemError (fault_message f)),
     {| files := damaged f dst (files w); log := ev_fs (op_copyFile src dst) false :: log w |}).
Proof.
  intros Hb f. subst f. unfold the_fault.
  destruct (Hb (length (log w))) as [f Hf].
  unfold copyFile, attempt. now rewrite Hf.
Qed.

Lemma writeFile_works p data w :
  works env (op_writeFile p) ->
  writeFile env p data w
  = (returned tt,
     {| files := <[p := data]> (files w); log := ev_fs (op_writeFile p) true :: log w |}).
Proof. intros Hw. unfold writeFile, attempt. now rewrite Hw. Qed.

Lemma writeFile_breaks p data w :
  breaks env (op_writeFile p) ->
  let f := the_fault env (length (log w)) (op_writeFile p) in
  writeFile env p data w
  = (thrown (SystemError (fault_message f)),
     {| files := damaged f p (files w); log := ev_fs (op_writeFile p) false :: log w |}).
Proof.
  intros Hb f. subst f. unfold the_fault.
  destruct (Hb (length (log w))) as [f Hf].
  unfold writeFile, attempt. now rewrite Hf.
Qed.

Lemma readFile_works p w c :
  works env (op_readFile p) ->
  files w !! p = Some c ->
  readFile env p w
  = (returned c, {| files := files w; log := ev_fs (op_readFile p) true :: log w |}).
Proof. intros Hw Hs. unfold readFile, attempt. now rewrite Hw, Hs. Qed.

(** A read changes no file, whether it works or not. *)
Lemma readFile_files p w :
  files (snd (readFile env p w)) = files w.
Proof.
  unfold readFile, attempt.
  destruct (faults env (length (log w)) (op_readFile p)) as [f|].
  - simpl. now destruct (fault_residue f).
  - now destruct (files w !! p).
Qed.

Lemma unlink_works p w c :
  works env (op_unlink p) ->
  files w !! p = Some c ->
  unlink env p w
  = (returned tt,
     {| files := delete p (files w); log := ev_fs (op_unlink p) true :: log w |}).
Proof. intros Hw Hs. unfold unlink, attempt. now rewrite Hw, Hs. Qed.

Lemma rename_works src dst w c :
  works env (op_rename src dst) ->
  files w !! src = Some c ->
  rename env src dst w
  = (returned tt,
     {| files := <[dst := c]> (delete src (files w));
        log := ev_fs (op_rename src dst) true :: log w |}).
Proof. intros Hw Hs. unfold rename, attempt. now rewrite Hw, Hs. Qed.

Lemma ensureDirectory_works dir w :
  works env (op_mkdir dir) ->
  ensureDirectory env dir w
  = (returned tt, {| files := files w; log := ev_fs (op_mkdir dir) true :: log w |}).
Proof. intros Hw. unfold ensureDirectory, attempt. now rewrite Hw. Qed.

End Steps.

End FsFacts.

Import FsFacts.

(** Look a path up in a store built by inserts and deletes. *)
Ltac lookup :=
  cbn [files log log_event];
  repeat first
    [ rewrite lookup_insert_eq
    | rewrite lookup_delete_eq
    | rewrite lookup_insert_ne by congruence
    | rewrite lookup_delete_ne by congruence
    | rewrite lookup_damaged_ne by congruence ];
  eauto.

(** Run the next call of a sequence, or its last call, with the lemma
    [l]; run a step that computes. *)
Tactic Notation "call" uconstr(l) :=
  apply leads_bind; eapply leads_step;
  [eapply l; try eassumption; try lookup | cbn beta iota].

Tactic Notation "tail_call" uconstr(l) :=
  eapply leads_step; [eapply l; try eassumption; try lookup | cbn beta iota].

Ltac compute_next := apply leads_bind; eapply leads_step; [reflexivity | cbn beta iota].
Ltac compute_last := eapply leads_step; [reflexivity | cbn beta iota].

(** * What the file-system calls leave alone *)

Module FrameFacts.

Lemma keeps_ret {A} ps (a : A) : keeps ps (ret a).
Proof. intros w p _. reflexivity. Qed.

Lemma keeps_throw {A} ps e : keeps ps (@throw A e).
Proof. intros w p _. reflexivity. Qed.

Lemma keeps_bind {A B} ps (c : M A) (k : A -> M B) :
  keeps ps c -> (forall a, keeps ps (k a)) -> keeps ps (bind c k).
Proof.
  intros Hc Hk w p Hp. unfold bind. specialize (Hc w p Hp).
  destruct (c w) as [[a|e] w1]; cbn [snd] in *; [|exact Hc].
  now rewrite (Hk a w1 p Hp).
Qed.

Lemma keeps_try {A} ps (c : M A) (h : js_error -> M A) :
  keeps ps c -> (forall e, keeps ps (h e)) -> keeps ps (try_catch c h).
Proof.
  intros Hc Hh w p Hp. unfold try_catch. specialize (Hc w p Hp).
  destruct (c w) as [[a|e] w1]; cbn [snd] in *; [exact Hc|].
  now rewrite (Hh e w1 p Hp).
Qed.

Lemma keeps_console_error ps msg : keeps ps (console_error msg).
Proof. intros w p _. reflexivity. Qed.

Lemma keeps_setTimeout ps q delay : keeps ps (setTimeout_unlink q delay).
Proof. intros w p _. reflexivity. Qed.

Lemma keeps_fileExists ps q : keeps ps (fileExists q).
Proof. intros w p _. reflexivity. Qed.

Lemma keeps_more {A} ps ps' (c : M A) :
  (forall p, In p ps -> In p ps') -> keeps ps c -> keeps ps' c.
Proof. intros Hsub Hc w p Hp. apply Hc. auto. Qed.

Section Calls.

Variable env : environment.

Lemma keeps_Date_now ps : keeps ps (Date_now env).
Proof. intros w p _. reflexivity. Qed.

Lemma keeps_attempt {A} ps op damage (run : gmap string string -> string + (A * gmap string string)) :
  (forall r fs p, ~ In p ps -> damage r fs !! p = fs !! p) ->
  (forall fs a fs' p, run fs = inr (a, fs') -> ~ In p ps -> fs' !! p = fs !! p) ->
  keeps ps (attempt env op damage run).
Proof.
  intros Hd Hr w p Hp. unfold attempt.
  destruct (faults env (length (log w)) op) as [f|]; cbn [snd files].
  - destruct (fault_residue f); [now apply Hd | reflexivity].
  - destruct (run (files w)) as [msg|[a fs']] eqn:Hrun; cbn [snd files log_event]; [reflexivity|].
    now apply (Hr _ _ _ _ Hrun).
Qed.

Lemma keeps_copyFile ps src dst : In dst ps -> keeps ps (copyFile env src dst).
Proof.
  intros Hin. apply keeps_attempt.
  - intros r fs p Hp. apply lookup_insert_ne. congruence.
  - intros fs a fs' p Hrun Hp. destruct (fs !! src); [|discriminate].
    injection Hrun as _ <-. apply lookup_insert_ne. congruence.
Qed.

Lemma keeps_writeFile ps q data : In q ps -> keeps ps (writeFile env q data).
Proof.
  intros Hin. apply keeps_attempt.
  - intros r fs p Hp. apply lookup_insert_ne. congruence.
  - intros fs a fs' p Hrun Hp. injection Hrun as _ <-. apply lookup_insert_ne. congruence.
Qed.

Lemma keeps_readFile ps q : keeps ps (readFile env q).
Proof.
  apply keeps_attempt; [reflexivity|].
  intros fs a fs' p Hrun _. destruct (fs !! q); [|discriminate]. now injection Hrun as _ <-.
Qed.

Lemma keeps_unlink ps q : In q ps -> keeps ps (unlink env q).
Proof.
  intros Hin. apply keeps_attempt; [reflexivity|].
  intros fs a fs' p Hrun Hp. destruct (fs !! q); [|discriminate].
  injection Hrun as _ <-. apply lookup_delete_ne. congruence.
Qed.

Lemma keeps_rename ps src dst : In src ps -> In dst ps -> keeps ps (rename env src dst).
Proof.
  intros Hs Hd. apply keeps_attempt; [reflexivity|].
  intros fs a fs' p Hrun Hp. destruct (fs !! src); [|discriminate].
  injection Hrun as _ <-.
  rewrite lookup_insert_ne, lookup_delete_ne by congruence. reflexivity.
Qed.

Lemma keeps_ensureDirectory ps dir : keeps ps (ensureDirectory env dir).
Proof.
  apply keeps_attempt; [reflexivity|].
  intros fs a fs' p Hrun _. now injection Hrun as _ <-.
Qed.

End Calls.

Lemma keeps_untouched {A} ps p (c : M A) : keeps ps c -> ~ In p ps -> untouched p c.
Proof. intros Hk Hp w. now apply Hk. Qed.

End FrameFacts.

Create HintDb frame.

#[export] Hint Resolve FrameFacts.keeps_ret FrameFacts.keeps_throw FrameFacts.keeps_console_error
  FrameFacts.keeps_setTimeout FrameFacts.keeps_fileExists FrameFacts.keeps_Date_now
  FrameFacts.keeps_readFile FrameFacts.keeps_ensureDirectory : frame.

(** Go through a tool's body call by call. *)
Ltac frame :=
  repeat first
    [ progress intros
    | apply FrameFacts.keeps_bind
    | apply FrameFacts.keeps_try
    | solve [auto with frame]
    | apply FrameFacts.keeps_copyFile; simpl; tauto
    | apply FrameFacts.keeps_writeFile; simpl; tauto
    | apply FrameFacts.keeps_unlink; simpl; tauto
    | apply FrameFacts.keeps_rename; simpl; tauto
    | match goal with
      | |- keeps _ (if ?b then _ else _) => destruct b
      | |- keeps _ (match ?x with _ => _ end) => destruct x
      end ].

(** * Safe file mutation: edit-canvas and edit-note *)

Module EditFacts.

Section Edits.

Context {node : NodeRuntime} {utils : RepoUtils}.
Variable env : environment.

Lemma parse_content_accepts name content w :
  content_refine content = true ->
  exists parsed, parse_content name content w = (returned parsed, w).
Proof.
  unfold content_refine, parse_content, Zod.parse_or_throw.
  destruct (JSON_parse content) as [msg|parsed]; [discriminate|].
  destruct (Zod.safeParse URL_canParse canvasSchema parsed); [|discriminate].
  intros _. now exists parsed.
Qed.

(** A read leaves the files as they are, whatever it answers. *)
Lemma readFile_leads p w (Q : outcome string -> world -> Prop) :
  (forall r ok, Q r {| files := files w; log := ev_fs (op_readFile p) ok :: log w |}) ->
  leads (readFile env p) w Q.
Proof.
  intros HQ. unfold leads, readFile, attempt.
  destruct (faults env (length (log w)) (op_readFile p)) as [f|].
  - cbn [fst snd]. destruct (fault_residue f); apply HQ.
  - destruct (files w !! p); apply HQ.
Qed.

(** The handlers of a failed write, when the backup can be put back:
    first the inner one, then the outer one of [editNote]. *)
Ltac restore_and_rethrow :=
  call fileExists_present;
  apply leads_bind; apply leads_try;
  call copyFile_works; tail_call unlink_works;
  compute_last;
  call fileExists_absent; compute_next;
  unfold rethrow;
  match goal with |- context [instanceof_McpError ?e] => destruct (instanceof_McpError e) end;
  compute_last.

Lemma edit_canvas_rollback vaultPath filename content folder w original :
  let fullPath := target_path vaultPath folder (ensureCanvasExtension filename) in
  let backupPath := backup_path fullPath (clock env (length (log w))) in
  validateVaultPath vaultPath fullPath = None ->
  files w !! fullPath = Some original ->
  content_refine content = true ->
  works env (op_copyFile fullPath backupPath) ->
  breaks env (op_writeFile fullPath) ->
  works env (op_copyFile backupPath fullPath) ->
  works env (op_unlink backupPath) ->
  exists e w',
    editCanvas env vaultPath filename content folder w = (thrown e, w')
    /\ files w' !! fullPath = Some original
    /\ files w' !! backupPath = None.
Proof.
  intros fullPath backupPath Hpath Hfile Hcontent Hsnap Hwrite Hrestore Hunlink.
  assert (backupPath <> fullPath) as Hne by apply backup_path_ne.
  cut (leads (editCanvas env vaultPath filename content folder) w
         (fun r w' => (exists e, r = thrown e)
                      /\ files w' !! fullPath = Some original
                      /\ files w' !! backupPath = None)).
  { intros H. apply leads_result in H as (r & w' & Hrun & (e & ->) & H1 & H2). eauto. }
  unfold editCanvas, check_vault_path. fold fullPath. rewrite Hpath.
  compute_next. fold backupPath.
  apply leads_try.
  call fileExists_present. cbn [negb].
  match goal with |- leads (bind (parse_content ?n ?c) _) ?W _ =>
    destruct (parse_content_accepts n c W Hcontent) as [parsed Hparsed] end.
  call Hparsed.
  call copyFile_works.
  apply leads_try.
  call writeFile_breaks.
  call fileExists_present.
  apply leads_bind. apply leads_try.
  call copyFile_works. call unlink_works. compute_last.
  compute_last.
  call fileExists_absent. compute_next.
  unfold rethrow. cbn [instanceof_McpError]. compute_last.
  repeat split; eauto; lookup.
Qed.

Lemma edit_note_rollback vaultPath filename operation content folder w original :
  let fullPath := target_path vaultPath folder (ensureMarkdownExtension filename) in
  let backupPath := backup_path fullPath (clock env (length (log w))) in
  operation <> Edit.delete ->
  validateVaultPath vaultPath fullPath = None ->
  files w !! fullPath = Some original ->
  works env (op_copyFile fullPath backupPath) ->
  breaks env (op_writeFile fullPath) ->
  works env (op_copyFile backupPath fullPath) ->
  works env (op_unlink backupPath) ->
  exists e w',
    editNote env vaultPath filename operation content folder w = (thrown e, w')
    /\ files w' !! fullPath = Some original
    /\ files w' !! backupPath = None.
Proof.
  intros fullPath backupPath Hop Hpath Hfile Hsnap Hwrite Hrestore Hunlink.
  assert (backupPath <> fullPath) as Hne by apply backup_path_ne.
  cut (leads (editNote env vaultPath filename operation content folder) w
         (fun r w' => (exists e, r = thrown e)
                      /\ files w' !! fullPath = Some original
                      /\ files w' !! backupPath = None)).
  { intros H. apply leads_result in H as (r & w' & Hrun & (e & ->) & H1 & H2). eauto. }
  unfold editNote, check_vault_path. fold fullPath. rewrite Hpath.
  compute_next. fold backupPath.
  apply leads_try.
  destruct operation; try congruence;
    (apply leads_bind;
     call fileExists_present; tail_call copyFile_works;
     call fileExists_present; cbn [negb];
     apply leads_try; apply leads_bind; apply readFile_leads;
     intros [existingContent|readError] ok; cbn [files log];
     [ unfold writeFile_data;
       match goal with |- context [new_note_content ?o ?x ?c] =>
         destruct (new_note_content o x c) as [newContent|] end;
       [ call writeFile_breaks | compute_last ]
     | ];
     restore_and_rethrow;
     repeat split; eauto; lookup).
Qed.

(** When the write fails and the backup cannot be copied back,
    [editCanvas] reports the backup as preserved and then removes it in
    its outer handler; the target is left as the failed write left it. *)
Lemma edit_canvas_failed_rollback vaultPath filename content folder w original :
  let fullPath := target_path vaultPath folder (ensureCanvasExtension filename) in
  let backupPath := backup_path fullPath (clock env (length (log w))) in
  validateVaultPath vaultPath fullPath = None ->
  files w !! fullPath = Some original ->
  content_refine content = true ->
  works env (op_copyFile fullPath backupPath) ->
  breaks env (op_writeFile fullPath) ->
  breaks env (op_copyFile backupPath fullPath) ->
  works env (op_unlink backupPath) ->
  exists report w',
    editCanvas env vaultPath filename content folder w
    = (thrown (McpError {| mcp_code := InternalError;
                           mcp_message := report +:+ "Backup file preserved at " +:+ backupPath |}),
       w')
    /\ files w' !! backupPath = None.
Proof.
  intros fullPath backupPath Hpath Hfile Hcontent Hsnap Hwrite Hrestore Hunlink.
  assert (backupPath <> fullPath) as Hne by apply backup_path_ne.
  cut (leads (editCanvas env vaultPath filename content folder) w
         (fun r w' =>
            (exists report,
               r = thrown (McpError {| mcp_code := InternalError;
                                       mcp_message := report +:+ "Backup file preserved at "
                                                      +:+ backupPath |}))
            /\ files w' !! backupPath = None)).
  { intros H. apply leads_result in H as (r & w' & Hrun & (report & ->) & H2). eauto. }
  unfold editCanvas, check_vault_path. fold fullPath. rewrite Hpath.
  compute_next. fold backupPath.
  apply leads_try.
  call fileExists_present. cbn [negb].
  match goal with |- leads (bind (parse_content ?n ?c) _) ?W _ =>
    destruct (parse_content_accepts n c W Hcontent) as [parsed Hparsed] end.
  call Hparsed.
  call copyFile_works.
  apply leads_try.
  call writeFile_breaks.
  call fileExists_present.
  apply leads_bind. apply leads_try.
  call copyFile_breaks.
  compute_last.
  call fileExists_present.
  apply leads_bind. apply leads_try. tail_call unlink_works.
  unfold rethrow. cbn [instanceof_McpError]. compute_last.
  split; [|lookup].
  match goal with
  | |- exists report, thrown (McpError {| mcp_code := _;
                                          mcp_message := ?a +:+ ?m1 +:+ ?b +:+ ?m2 +:+ _ |}) = _ =>
      exists (a +:+ m1 +:+ b +:+ m2 +:+ ". ")
  end.
  now rewrite !append_assoc.
Qed.

(** When the write fails and the backup cannot be copied back,
    [editNote] reports the backup as preserved, tries once more to copy
    it back in its outer handler, and leaves it where it is. *)
Lemma edit_note_failed_rollback vaultPath filename operation content folder w original :
  let fullPath := target_path vaultPath folder (ensureMarkdownExtension filename) in
  let backupPath := backup_path fullPath (clock env (length (log w))) in
  operation <> Edit.delete ->
  validateVaultPath vaultPath fullPath = None ->
  files w !! fullPath = Some original ->
  works env (op_copyFile fullPath backupPath) ->
  breaks env (op_writeFile fullPath) ->
  breaks env (op_copyFile backupPath fullPath) ->
  exists report w',
    editNote env vaultPath filename operation content folder w
    = (thrown (McpError {| mcp_code := InternalError;
                           mcp_message := report +:+ "Backup file preserved at " +:+ backupPath |}),
       w')
    /\ files w' !! backupPath = Some original.
Proof.
  intros fullPath backupPath Hop Hpath Hfile Hsnap Hwrite Hrestore.
  assert (backupPath <> fullPath) as Hne by apply backup_path_ne.
  cut (leads (editNote env vaultPath filename operation content folder) w
         (fun r w' =>
            (exists report,
               r = thrown (McpError {| mcp_code := InternalError;
                                       mcp_message := report +:+ "Backup file preserved at "
                                                      +:+ backupPath |}))
            /\ files w' !! backupPath = Some original)).
  { intros H. apply leads_result in H as (r & w' & Hrun & (report & ->) & H2). eauto. }
  unfold editNote, check_vault_path. fold fullPath. rewrite Hpath.
  compute_next. fold backupPath.
  apply leads_try.
  destruct operation; try congruence;
    (apply leads_bind;
     call fileExists_present; tail_call copyFile_works;
     call fileExists_present; cbn [negb];
     apply leads_try; apply leads_bind; apply readFile_leads;
     intros [existingContent|readError] ok; cbn [files log];
     [ unfold writeFile_data;
       match goal with |- context [new_note_content ?o ?x ?c] =>
         destruct (new_note_content o x c) as [newContent|] end;
       [ call writeFile_breaks | compute_last ]
     | ];
     call fileExists_present;
     apply leads_bind; apply leads_try;
     call copyFile_breaks;
     compute_last;
     call fileExists_present;
     apply leads_bind; apply leads_try;
     call copyFile_breaks;
     compute_last;
     unfold rethrow; cbn [instanceof_McpError]; compute_last;
     (split; [|lookup]);
     match goal with
     | |- exists report, thrown (McpError {| mcp_code := _;
                                             mcp_message := ?a +:+ ?m1 +:+ ?b +:+ ?m2 +:+ _ |}) = _ =>
         exists (a +:+ m1 +:+ b +:+ m2 +:+ ". ")
     end;
     now rewrite !append_assoc).
Qed.

End Edits.

End EditFacts.

(** * create-canvas, read-canvas, delete-canvas *)

Module CanvasToolFacts.

Import EditFacts.

Section CanvasTools.

Context {node : NodeRuntime} {utils : RepoUtils}.
Variable env : environment.

Lemma leads_eq {A} (c : M A) w r w1 :
  leads c w (fun r' w' => r' = r /\ w' = w1) -> c w = (r, w1).
Proof. unfold leads. intros [<- <-]. apply surjective_pairing. Qed.

Lemma parse_content_rejects name content w :
  content_refine content = false ->
  exists e, parse_content name content w = (thrown (McpError e), w).
Proof.
  unfold content_refine, parse_content, Zod.parse_or_throw.
  destruct (JSON_parse content) as [msg|parsed]; [intros _; eauto|].
  destruct (Zod.safeParse URL_canParse canvasSchema parsed); [discriminate|].
  intros _. eauto.
Qed.

(** The check of the content never touches the world. *)
Lemma parse_content_pure name content w :
  snd (parse_content name content w) = w.
Proof.
  unfold parse_content. destruct (JSON_parse content) as [msg|parsed]; [reflexivity|].
  now destruct (Zod.parse_or_throw URL_canParse canvasSchema parsed).
Qed.

Lemma ensureDirectory_leads dir w (Q : outcome unit -> world -> Prop) :
  (forall r ok, Q r {| files := files w; log := ev_fs (op_mkdir dir) ok :: log w |}) ->
  leads (ensureDirectory env dir) w Q.
Proof.
  intros HQ. unfold leads, ensureDirectory, attempt.
  destruct (faults env (length (log w)) (op_mkdir dir)) as [f|].
  - cbn [fst snd]. destruct (fault_residue f); apply HQ.
  - apply HQ.
Qed.

Lemma writeFile_leads p data w (Q : outcome unit -> world -> Prop) :
  (forall r ok fs',
      (forall q, q <> p -> fs' !! q = files w !! q) ->
      Q r {| files := fs'; log := ev_fs (op_writeFile p) ok :: log w |}) ->
  leads (writeFile env p data) w Q.
Proof.
  intros HQ. unfold leads, writeFile, attempt.
  destruct (faults env (length (log w)) (op_writeFile p)) as [f|]; cbn [fst snd].
  - apply HQ. intros q Hq. destruct (fault_residue f); [now rewrite lookup_insert_ne | reflexivity].
  - apply HQ. intros q Hq. now rewrite lookup_insert_ne.
Qed.

Lemma ensureDirectory_breaks dir w :
  breaks env (op_mkdir dir) ->
  ensureDirectory env dir w
  = (thrown (SystemError (fault_message (the_fault env (length (log w)) (op_mkdir dir)))),
     {| files := files w; log := ev_fs (op_mkdir dir) false :: log w |}).
Proof.
  intros Hb. unfold the_fault. destruct (Hb (length (log w))) as [f Hf].
  unfold ensureDirectory, attempt. rewrite Hf. cbn [default].
  now destruct (fault_residue f).
Qed.

(** ** create-canvas *)

Lemma create_canvas_writes args vaultPath w :
  let canvasPath := target_path vaultPath (cc_folder args) (ensureCanvasExtension (cc_filename args)) in
  validateVaultPath vaultPath canvasPath = None ->
  content_refine (cc_content args) = true ->
  files w !! canvasPath = None ->
  works env (op_mkdir (path_dirname canvasPath)) ->
  works env (op_writeFile canvasPath) ->
  createCanvas env args vaultPath w
  = (returned {| success := true; message := "Canvas created successfully";
                 path := canvasPath; operation := "create" |},
     {| files := <[canvasPath := cc_content args]> (files w);
        log := ev_fs (op_writeFile canvasPath) true
               :: ev_fs (op_access canvasPath) false
               :: ev_fs (op_mkdir (path_dirname canvasPath)) true :: log w |}).
Proof.
  intros canvasPath Hpath Hcontent Hfree Hmkdir Hwrite.
  apply leads_eq. unfold createCanvas, check_vault_path. fold canvasPath. rewrite Hpath.
  apply leads_try.
  destruct (parse_content_accepts (ensureCanvasExtension (cc_filename args))
              (cc_content args) w Hcontent) as [parsed Hparsed].
  call Hparsed. call ensureDirectory_works. call fileExists_absent.
  call writeFile_works. compute_last. split; reflexivity.
Qed.

Lemma create_canvas_exists args vaultPath w existing :
  let canvasPath := target_path vaultPath (cc_folder args) (ensureCanvasExtension (cc_filename args)) in
  validateVaultPath vaultPath canvasPath = None ->
  content_refine (cc_content args) = true ->
  works env (op_mkdir (path_dirname canvasPath)) ->
  files w !! canvasPath = Some existing ->
  createCanvas env args vaultPath w
  = (thrown (McpError (createCanvasExistsError canvasPath)),
     {| files := files w;
        log := ev_fs (op_access canvasPath) true
               :: ev_fs (op_mkdir (path_dirname canvasPath)) true :: log w |}).
Proof.
  intros canvasPath Hpath Hcontent Hmkdir Hthere.
  apply leads_eq. unfold createCanvas, check_vault_path. fold canvasPath. rewrite Hpath.
  apply leads_try.
  destruct (parse_content_accepts (ensureCanvasExtension (cc_filename args))
              (cc_content args) w Hcontent) as [parsed Hparsed].
  call Hparsed. call ensureDirectory_works. call fileExists_present.
  compute_last. unfold rethrow. cbn [instanceof_McpError]. compute_last.
  split; reflexivity.
Qed.

Lemma create_canvas_invalid args vaultPath w :
  let canvasPath := target_path vaultPath (cc_folder args) (ensureCanvasExtension (cc_filename args)) in
  validateVaultPath vaultPath canvasPath = None ->
  content_refine (cc_content args) = false ->
  exists e, createCanvas env args vaultPath w = (thrown (McpError e), w).
Proof.
  intros canvasPath Hpath Hcontent.
  destruct (parse_content_rejects (ensureCanvasExtension (cc_filename args))
              (cc_content args) w Hcontent) as [e He].
  exists e. apply leads_eq.
  unfold createCanvas, check_vault_path. fold canvasPath. rewrite Hpath.
  apply leads_try. call He.
  unfold rethrow. cbn [instanceof_McpError]. compute_last. split; reflexivity.
Qed.

Lemma create_canvas_mkdir_fails args vaultPath w :
  let canvasPath := target_path vaultPath (cc_folder args) (ensureCanvasExtension (cc_filename args)) in
  validateVaultPath vaultPath canvasPath = None ->
  content_refine (cc_content args) = true ->
  breaks env (op_mkdir (path_dirname canvasPath)) ->
  exists e,
    createCanvas env args vaultPath w
    = (thrown e, {| files := files w;
                    log := ev_fs (op_mkdir (path_dirname canvasPath)) false :: log w |}).
Proof.
  intros canvasPath Hpath Hcontent Hmkdir.
  eexists. apply leads_eq.
  unfold createCanvas, check_vault_path. fold canvasPath. rewrite Hpath.
  apply leads_try.
  destruct (parse_content_accepts (ensureCanvasExtension (cc_filename args))
              (cc_content args) w Hcontent) as [parsed Hparsed].
  call Hparsed. call ensureDirectory_breaks.
  unfold rethrow. cbn [instanceof_McpError]. compute_last. split; reflexivity.
Qed.

(** Whatever happens, [createCanvas] only creates the directory, looks
    the target up and writes it: it takes no snapshot and restores
    nothing, and no other file changes. *)
Lemma create_canvas_steps args vaultPath w :
  let canvasPath := target_path vaultPath (cc_folder args) (ensureCanvasExtension (cc_filename args)) in
  let after := snd (createCanvas env args vaultPath w) in
  exists steps,
    log after = steps ++ log w
    /\ Forall (create_step (path_dirname canvasPath) canvasPath) steps
    /\ forall p, p <> canvasPath -> files after !! p = files w !! p.
Proof.
  intros canvasPath after. subst after.
  cut (leads (createCanvas env args vaultPath) w
         (fun _ w' => exists steps,
              log w' = steps ++ log w
              /\ Forall (create_step (path_dirname canvasPath) canvasPath) steps
              /\ forall p, p <> canvasPath -> files w' !! p = files w !! p)).
  { intros H. exact H. }
  assert (forall ok, create_step (path_dirname canvasPath) canvasPath
                       (ev_fs (op_mkdir (path_dirname canvasPath)) ok)) as Hmk.
  { intros ok. exists ok. auto. }
  assert (forall ok, create_step (path_dirname canvasPath) canvasPath
                       (ev_fs (op_access canvasPath) ok)) as Hac.
  { intros ok. exists ok. auto. }
  assert (forall ok, create_step (path_dirname canvasPath) canvasPath
                       (ev_fs (op_writeFile canvasPath) ok)) as Hwr.
  { intros ok. exists ok. auto. }
  unfold createCanvas, check_vault_path. fold canvasPath.
  destruct (validateVaultPath vaultPath canvasPath).
  { compute_last. exists []. auto. }
  apply leads_try. apply leads_bind.
  pose proof (parse_content_pure (ensureCanvasExtension (cc_filename args)) (cc_content args) w)
    as Hpure.
  unfold leads at 1.
  destruct (parse_content (ensureCanvasExtension (cc_filename args)) (cc_content args) w)
    as [[parsed|e] w0]; cbn [fst snd] in *; subst w0.
  2:{ unfold rethrow. destruct (instanceof_McpError e); compute_last; exists []; auto. }
  apply leads_bind. apply ensureDirectory_leads. intros [[]|e] ok.
  2:{ unfold rethrow. destruct (instanceof_McpError e); compute_last;
      exists [ev_fs (op_mkdir (path_dirname canvasPath)) ok]; auto. }
  apply leads_bind. unfold leads at 1, fileExists at 1. cbn [fst snd log_event files log].
  destruct (bool_decide (is_Some (files w !! canvasPath))).
  { compute_last. unfold rethrow. cbn [instanceof_McpError]. compute_last.
    eexists [_; _]. split; [reflexivity|]. split; [|reflexivity]. repeat constructor; auto. }
  apply leads_bind. apply writeFile_leads. intros [[]|e] ok' fs' Hfs'.
  - compute_last. eexists [_; _; _]. split; [reflexivity|]. split; [|exact Hfs'].
    repeat constructor; auto.
  - unfold rethrow. destruct (instanceof_McpError e); compute_last;
      (eexists [_; _; _]; split; [reflexivity|]; split; [|exact Hfs'];
       repeat constructor; auto).
Qed.

(** ** read-canvas *)

Lemma read_canvas_runs vaultPath filename folder w raw :
  let fullPath := target_path vaultPath folder (ensureCanvasExtension filename) in
  validateVaultPath vaultPath fullPath = None ->
  files w !! fullPath = Some raw ->
  works env (op_readFile fullPath) ->
  readCanvas env vaultPath filename folder w
  = (match JSON_parse raw with
     | inr parsed => returned (read_result fullPath parsed)
     | inl msg => thrown (McpError (createInvalidJsonError filename msg))
     end,
     {| files := files w;
        log := ev_fs (op_readFile fullPath) true :: ev_fs (op_access fullPath) true :: log w |}).
Proof.
  intros fullPath Hpath Hfile Hread.
  apply leads_eq. unfold readCanvas, check_vault_path. fold fullPath. rewrite Hpath.
  apply leads_try. call fileExists_present. cbn [negb]. call readFile_works.
  destruct (JSON_parse raw) as [msg|parsed]; compute_last.
  - unfold rethrow. cbn [instanceof_McpError]. compute_last. split; reflexivity.
  - split; reflexivity.
Qed.

Lemma reads_back_after vaultPath filename folder s w :
  let fullPath := target_path vaultPath folder (ensureCanvasExtension filename) in
  validateVaultPath vaultPath fullPath = None ->
  content_refine s = true ->
  files w !! fullPath = Some s ->
  works env (op_readFile fullPath) ->
  reads_back env vaultPath filename folder s w.
Proof.
  intros fullPath Hpath Hcontent Hfile Hread. unfold reads_back. fold fullPath.
  pose proof (read_canvas_runs vaultPath filename folder w s Hpath Hfile Hread) as Hrun.
  fold fullPath in Hrun. cbv zeta in Hrun.
  unfold content_refine in Hcontent.
  destruct (JSON_parse s) as [msg|parsed]; [discriminate|].
  exists parsed. eexists. split; [reflexivity|]. split; [exact Hrun|].
  split; [|exact Hfile].
  unfold readCanvasTool, bind. rewrite Hrun. reflexivity.
Qed.

(** ** edit-canvas, when nothing fails *)

Lemma edit_canvas_replaces vaultPath filename content folder w original :
  let fullPath := target_path vaultPath folder (ensureCanvasExtension filename) in
  let backupPath := backup_path fullPath (clock env (length (log w))) in
  validateVaultPath vaultPath fullPath = None ->
  files w !! fullPath = Some original ->
  content_refine content = true ->
  works env (op_copyFile fullPath backupPath) ->
  works env (op_writeFile fullPath) ->
  works env (op_unlink backupPath) ->
  exists w',
    editCanvas env vaultPath filename content folder w
    = (returned {| success := true; message := "Canvas replaced successfully";
                   path := fullPath; operation := "edit" |}, w')
    /\ files w' !! fullPath = Some content
    /\ files w' !! backupPath = None.
Proof.
  intros fullPath backupPath Hpath Hfile Hcontent Hsnap Hwrite Hunlink.
  assert (backupPath <> fullPath) as Hne by apply backup_path_ne.
  cut (leads (editCanvas env vaultPath filename content folder) w
         (fun r w' =>
            r = returned {| success := true; message := "Canvas replaced successfully";
                            path := fullPath; operation := "edit" |}
            /\ files w' !! fullPath = Some content
            /\ files w' !! backupPath = None)).
  { intros H. apply leads_result in H as (r & w' & Hrun & -> & H1 & H2). eauto. }
  unfold editCanvas, check_vault_path. fold fullPath. rewrite Hpath.
  compute_next. fold backupPath.
  apply leads_try.
  call fileExists_present. cbn [negb].
  match goal with |- leads (bind (parse_content ?n ?c) _) ?W _ =>
    destruct (parse_content_accepts n c W Hcontent) as [parsed Hparsed] end.
  call Hparsed. call copyFile_works.
  apply leads_try. call writeFile_works. call unlink_works. compute_last.
  repeat split; lookup.
Qed.

End CanvasTools.

End CanvasToolFacts.

(** * delete-canvas: the move to the trash *)

Module TrashFacts.

Section Trash.

Context {node : NodeRuntime} {utils : RepoUtils}.
Variable env : environment.

Lemma delete_canvas_moves vaultPath canvasRelativePath reason w original :
  let fullPath := path_join [vaultPath; canvasRelativePath] in
  let trashPath := path_join [vaultPath; ".trash"] in
  let trashName := trash_name canvasRelativePath (clock env (2 + length (log w))) in
  let trashFilePath := path_join [trashPath; trashName] in
  let trashMetaPath := trashFilePath +:+ ".meta.json" in
  let deletedAt := toISOString (clock env (3 + length (log w))) in
  validateVaultPath vaultPath fullPath = None ->
  files w !! fullPath = Some original ->
  works env (op_mkdir trashPath) ->
  works env (op_rename fullPath trashFilePath) ->
  works env (op_writeFile trashMetaPath) ->
  exists steps,
    deleteCanvas env vaultPath canvasRelativePath false reason w
    = (returned ("Moved canvas " +:+ dquote +:+ canvasRelativePath +:+ dquote
                 +:+ " to trash as " +:+ dquote +:+ trashName +:+ dquote),
       {| files := <[trashMetaPath := JSON_stringify (TrashMetadata canvasRelativePath deletedAt reason)]>
                     (<[trashFilePath := original]> (base.delete fullPath (files w)));
          log := steps ++ log w |}).
Proof.
  intros fullPath trashPath trashName trashFilePath trashMetaPath deletedAt
         Hpath Hfile Hmkdir Hrename Hwrite.
  eexists. apply CanvasToolFacts.leads_eq.
  unfold deleteCanvas, check_vault_path. fold fullPath. rewrite Hpath.
  apply leads_try. call fileExists_present. cbn [negb].
  apply leads_bind. unfold moveCanvasToTrash, ensureTrashDirectory. fold trashPath.
  apply leads_bind. call ensureDirectory_works. compute_last.
  compute_next. compute_next.
  apply leads_try.
  call rename_works. call writeFile_works. compute_last. compute_last.
  split; [reflexivity|].
  f_equal. instantiate (1 := [_; _; _; _; _; _]). reflexivity.
Qed.

End Trash.

End TrashFacts.

(** * The tools at their edges *)

Module EdgeFacts.

Import EditFacts CanvasToolFacts.

(** Look a path up, the paths being told apart by the hypotheses. *)
Ltac apart := solve [assumption | apply not_eq_sym; assumption | congruence].

Ltac lookup_apart :=
  cbn [files log log_event];
  repeat first
    [ rewrite lookup_insert_eq
    | rewrite lookup_delete_eq
    | rewrite lookup_insert_ne by apart
    | rewrite lookup_delete_ne by apart
    | rewrite lookup_damaged_ne by apart ];
  eauto.

Section Edges.

Context {node : NodeRuntime} {utils : RepoUtils}.
Variable env : environment.

Lemma unlink_leads p w (Q : outcome unit -> world -> Prop) :
  (forall r ok fs',
      (forall q, q <> p -> fs' !! q = files w !! q) ->
      Q r {| files := fs'; log := ev_fs (op_unlink p) ok :: log w |}) ->
  leads (unlink env p) w Q.
Proof.
  intros HQ. unfold leads, unlink, attempt.
  destruct (faults env (length (log w)) (op_unlink p)) as [f|]; cbn [fst snd].
  - apply HQ. intros q Hq. now destruct (fault_residue f).
  - destruct (files w !! p); cbn [fst snd log_event]; apply HQ; intros q Hq;
      [now rewrite lookup_delete_ne | reflexivity].
Qed.

Lemma unlink_breaks p w :
  breaks env (op_unlink p) ->
  unlink env p w
  = (thrown (SystemError (fault_message (the_fault env (length (log w)) (op_unlink p)))),
     {| files := files w; log := ev_fs (op_unlink p) false :: log w |}).
Proof.
  intros Hb. unfold the_fault. destruct (Hb (length (log w))) as [f Hf].
  unfold unlink, attempt. rewrite Hf. cbn [default]. now destruct (fault_residue f).
Qed.

Lemma rename_breaks src dst w :
  breaks env (op_rename src dst) ->
  rename env src dst w
  = (thrown (SystemError (fault_message (the_fault env (length (log w)) (op_rename src dst)))),
     {| files := files w; log := ev_fs (op_rename src dst) false :: log w |}).
Proof.
  intros Hb. unfold the_fault. destruct (Hb (length (log w))) as [f Hf].
  unfold rename, attempt. rewrite Hf. cbn [default]. now destruct (fault_residue f).
Qed.

Lemma readFile_fails p w :
  breaks env (op_readFile p) ->
  readFile env p w
  = (thrown (SystemError (fault_message (the_fault env (length (log w)) (op_readFile p)))),
     {| files := files w; log := ev_fs (op_readFile p) false :: log w |}).
Proof.
  intros Hb. unfold the_fault. destruct (Hb (length (log w))) as [f Hf].
  unfold readFile, attempt. rewrite Hf. cbn [default]. now destruct (fault_residue f).
Qed.

(** ** read-canvas *)

Lemma read_canvas_missing vaultPath filename folder w :
  let fullPath := target_path vaultPath folder (ensureCanvasExtension filename) in
  validateVaultPath vaultPath fullPath = None ->
  files w !! fullPath = None ->
  readCanvas env vaultPath filename folder w
  = (thrown (McpError (createCanvasNotFoundError filename)),
     {| files := files w; log := ev_fs (op_access fullPath) false :: log w |}).
Proof.
  intros fullPath Hpath Hfile.
  apply leads_eq. unfold readCanvas, check_vault_path. fold fullPath. rewrite Hpath.
  apply leads_try. call fileExists_absent. cbn [negb]. compute_last.
  unfold rethrow. cbn [instanceof_McpError]. compute_last. split; reflexivity.
Qed.

Lemma read_canvas_unreadable vaultPath filename folder w raw :
  let fullPath := target_path vaultPath folder (ensureCanvasExtension filename) in
  validateVaultPath vaultPath fullPath = None ->
  files w !! fullPath = Some raw ->
  breaks env (op_readFile fullPath) ->
  readCanvas env vaultPath filename folder w
  = (thrown (McpError
               (handleFsError
                  (SystemError (fault_message (the_fault env (S (length (log w)))
                                                 (op_readFile fullPath))))
                  "read canvas")),
     {| files := files w;
        log := ev_fs (op_readFile fullPath) false :: ev_fs (op_access fullPath) true :: log w |}).
Proof.
  intros fullPath Hpath Hfile Hread.
  apply leads_eq. unfold readCanvas, check_vault_path. fold fullPath. rewrite Hpath.
  apply leads_try. call fileExists_present. cbn [negb]. call readFile_fails.
  unfold rethrow. cbn [instanceof_McpError]. compute_last. split; reflexivity.
Qed.

(** ** edit-canvas *)

Lemma edit_canvas_missing vaultPath filename content folder w :
  let fullPath := target_path vaultPath folder (ensureCanvasExtension filename) in
  let timestamp := clock env (length (log w)) in
  let backupPath := backup_path fullPath timestamp in
  validateVaultPath vaultPath fullPath = None ->
  files w !! fullPath = None ->
  files w !! backupPath = None ->
  editCanvas env vaultPath filename content folder w
  = (thrown (McpError (createCanvasNotFoundError (ensureCanvasExtension filename))),
     {| files := files w;
        log := ev_fs (op_access backupPath) false :: ev_fs (op_access fullPath) false
               :: ev_now timestamp :: log w |}).
Proof.
  intros fullPath timestamp backupPath Hpath Hfile Hbackup.
  apply leads_eq. unfold editCanvas, check_vault_path. fold fullPath. rewrite Hpath.
  compute_next. fold timestamp backupPath.
  apply leads_try. call fileExists_absent. cbn [negb]. compute_last.
  call fileExists_absent. compute_next.
  unfold rethrow. cbn [instanceof_McpError]. compute_last. split; reflexivity.
Qed.

Lemma edit_canvas_invalid vaultPath filename content folder w original :
  let fullPath := target_path vaultPath folder (ensureCanvasExtension filename) in
  let timestamp := clock env (length (log w)) in
  let backupPath := backup_path fullPath timestamp in
  validateVaultPath vaultPath fullPath = None ->
  files w !! fullPath = Some original ->
  files w !! backupPath = None ->
  content_refine content = false ->
  exists e,
    editCanvas env vaultPath filename content folder w
    = (thrown (McpError e),
       {| files := files w;
          log := ev_fs (op_access backupPath) false :: ev_fs (op_access fullPath) true
                 :: ev_now timestamp :: log w |}).
Proof.
  intros fullPath timestamp backupPath Hpath Hfile Hbackup Hcontent.
  match goal with |- exists e, ?c ?w0 = _ =>
    destruct (parse_content_rejects (ensureCanvasExtension filename) content
                (log_event (ev_fs (op_access fullPath) true) (log_event (ev_now timestamp) w))
                Hcontent) as [e He] end.
  exists e.
  apply leads_eq. unfold editCanvas, check_vault_path. fold fullPath. rewrite Hpath.
  compute_next. fold timestamp backupPath.
  apply leads_try. call fileExists_present. cbn [negb].
  call He.
  call fileExists_absent. compute_next.
  unfold rethrow. cbn [instanceof_McpError]. compute_last. split; reflexivity.
Qed.

(** ** edit-note *)

Lemma edit_note_missing vaultPath filename operation content folder w :
  let fullPath := target_path vaultPath folder (ensureMarkdownExtension filename) in
  let backupPath := backup_path fullPath (clock env (length (log w))) in
  validateVaultPath vaultPath fullPath = None ->
  files w !! fullPath = None ->
  files w !! backupPath = None ->
  exists w',
    editNote env vaultPath filename operation content folder w
    = (thrown (McpError (createNoteNotFoundError filename)), w')
    /\ files w' = files w.
Proof.
  intros fullPath backupPath Hpath Hfile Hbackup.
  cut (leads (editNote env vaultPath filename operation content folder) w
         (fun r w' =>
            r = thrown (McpError (createNoteNotFoundError filename))
            /\ files w' = files w)).
  { intros H. apply leads_result in H as (r & w' & Hrun & -> & H1). eauto. }
  unfold editNote, check_vault_path. fold fullPath. rewrite Hpath.
  compute_next. fold backupPath.
  apply leads_try.
  destruct operation;
    [ apply leads_bind; call fileExists_absent; compute_last
    | apply leads_bind; call fileExists_absent; compute_last
    | apply leads_bind; call fileExists_absent; compute_last
    | apply leads_bind; compute_last ];
    (call fileExists_absent; cbn [negb]; compute_last;
     call fileExists_absent; compute_next;
     unfold rethrow; cbn [instanceof_McpError]; compute_last;
     split; reflexivity).
Qed.

(** A delete keeps the old text in the backup and only schedules its
    removal. *)
Lemma edit_note_deletes vaultPath filename content folder w original :
  let fullPath := target_path vaultPath folder (ensureMarkdownExtension filename) in
  let timestamp := clock env (length (log w)) in
  let backupPath := backup_path fullPath timestamp in
  validateVaultPath vaultPath fullPath = None ->
  files w !! fullPath = Some original ->
  works env (op_copyFile fullPath backupPath) ->
  works env (op_unlink fullPath) ->
  editNote env vaultPath filename Edit.delete content folder w
  = (returned {| success := true; message := "Note deleted successfully";
                 path := fullPath; operation := "delete" |},
     {| files := base.delete fullPath (<[backupPath := original]> (files w));
        log := ev_setTimeout 5000 backupPath
               :: ev_fs (op_unlink fullPath) true
               :: ev_fs (op_copyFile fullPath backupPath) true
               :: ev_fs (op_access fullPath) true
               :: ev_now timestamp :: log w |}).
Proof.
  intros fullPath timestamp backupPath Hpath Hfile Hsnap Hunlink.
  assert (backupPath <> fullPath) as Hne by apply backup_path_ne.
  apply leads_eq. unfold editNote, check_vault_path. fold fullPath. rewrite Hpath.
  compute_next. fold timestamp backupPath.
  apply leads_try. compute_next.
  call fileExists_present. cbn [negb].
  call copyFile_works. call unlink_works. compute_next. compute_last.
  split; reflexivity.
Qed.

(** An edit that goes through leaves the new text and no backup. *)
Lemma edit_note_writes vaultPath filename operation content folder w original newContent :
  let fullPath := target_path vaultPath folder (ensureMarkdownExtension filename) in
  let backupPath := backup_path fullPath (clock env (length (log w))) in
  operation <> Edit.delete ->
  validateVaultPath vaultPath fullPath = None ->
  files w !! fullPath = Some original ->
  new_note_content operation original content = Some newContent ->
  works env (op_copyFile fullPath backupPath) ->
  works env (op_readFile fullPath) ->
  works env (op_writeFile fullPath) ->
  works env (op_unlink backupPath) ->
  exists w',
    editNote env vaultPath filename operation content folder w
    = (returned {| success := true;
                   message := "Note " +:+ Edit.text operation +:+ "ed successfully";
                   path := fullPath; operation := "edit" |}, w')
    /\ files w' !! fullPath = Some newContent
    /\ files w' !! backupPath = None.
Proof.
  intros fullPath backupPath Hop Hpath Hfile Hnew Hsnap Hread Hwrite Hunlink.
  assert (backupPath <> fullPath) as Hne by apply backup_path_ne.
  cut (leads (editNote env vaultPath filename operation content folder) w
         (fun r w' =>
            r = returned {| success := true;
                            message := "Note " +:+ Edit.text operation +:+ "ed successfully";
                            path := fullPath; operation := "edit" |}
            /\ files w' !! fullPath = Some newContent
            /\ files w' !! backupPath = None)).
  { intros H. apply leads_result in H as (r & w' & Hrun & -> & H1 & H2). eauto. }
  unfold editNote, check_vault_path. fold fullPath. rewrite Hpath.
  compute_next. fold backupPath.
  apply leads_try.
  destruct operation; try congruence;
    (apply leads_bind;
     call fileExists_present; tail_call copyFile_works;
     call fileExists_present; cbn [negb];
     apply leads_try;
     call readFile_works;
     rewrite Hnew; unfold writeFile_data;
     call writeFile_works; call unlink_works; compute_last;
     repeat split; lookup).
Qed.

(** ** What a rejected content is told *)

Lemma parse_content_unknown_key name content w doc holder k doc' :
  JSON_parse content = inr doc' ->
  CanvasSpec.is_canvas URL_canParse doc = true ->
  CanvasSpec.adds_unknown_key doc holder k doc' ->
  parse_content name content w
  = (thrown (McpError {|
       mcp_code := InvalidParams;
       mcp_message :=
         "Invalid canvas JSON structure: " +:+ path_text holder +:+ ": "
         +:+ match holder with
             | [] => "Canvas object must only contain 'nodes' and 'edges' properties"
             | _ => "Unrecognized key(s) in object: '" +:+ k +:+ "'"
             end |}), w).
Proof.
  intros Hjson Hdoc Hadd. unfold parse_content, Zod.parse_or_throw, Zod.safeParse.
  rewrite Hjson, (UnknownKeys.reject_unknown_key URL_canParse doc holder k doc' Hdoc Hadd).
  cbn [fst snd map join]. unfold format_issue, unknown_key_issue. cbn [Zod.path Zod.message].
  now destruct holder.
Qed.

Lemma parse_content_not_json name content w msg :
  JSON_parse content = inl msg ->
  parse_content name content w = (thrown (McpError (createInvalidJsonError name msg)), w).
Proof. intros Hjson. unfold parse_content. now rewrite Hjson. Qed.

Lemma create_canvas_content_error args vaultPath w e :
  let sanitizedFilename := ensureCanvasExtension (cc_filename args) in
  let canvasPath := target_path vaultPath (cc_folder args) sanitizedFilename in
  validateVaultPath vaultPath canvasPath = None ->
  parse_content sanitizedFilename (cc_content args) w = (thrown (McpError e), w) ->
  createCanvas env args vaultPath w = (thrown (McpError e), w).
Proof.
  intros sanitizedFilename canvasPath Hpath He.
  apply leads_eq. unfold createCanvas, check_vault_path.
  fold sanitizedFilename canvasPath. rewrite Hpath.
  apply leads_try. call He.
  unfold rethrow. cbn [instanceof_McpError]. compute_last. split; reflexivity.
Qed.

Lemma edit_canvas_content_error vaultPath filename content folder w original e :
  let sanitizedFilename := ensureCanvasExtension filename in
  let fullPath := target_path vaultPath folder sanitizedFilename in
  let timestamp := clock env (length (log w)) in
  let backupPath := backup_path fullPath timestamp in
  validateVaultPath vaultPath fullPath = None ->
  files w !! fullPath = Some original ->
  files w !! backupPath = None ->
  (forall w0, parse_content sanitizedFilename content w0 = (thrown (McpError e), w0)) ->
  editCanvas env vaultPath filename content folder w
  = (thrown (McpError e),
     {| files := files w;
        log := ev_fs (op_access backupPath) false :: ev_fs (op_access fullPath) true
               :: ev_now timestamp :: log w |}).
Proof.
  intros sanitizedFilename fullPath timestamp backupPath Hpath Hfile Hbackup He.
  apply leads_eq. unfold editCanvas, check_vault_path.
  fold sanitizedFilename fullPath. rewrite Hpath.
  compute_next. fold timestamp backupPath.
  apply leads_try. call fileExists_present. cbn [negb].
  call He.
  call fileExists_absent. compute_next.
  unfold rethrow. cbn [instanceof_McpError]. compute_last. split; reflexivity.
Qed.

(** ** create-canvas *)

(** A write that fails is not cleaned up: what it left stays. *)
Lemma create_canvas_write_fails args vaultPath w :
  let canvasPath := target_path vaultPath (cc_folder args) (ensureCanvasExtension (cc_filename args)) in
  let canvasDir := path_dirname canvasPath in
  let f := the_fault env (2 + length (log w)) (op_writeFile canvasPath) in
  validateVaultPath vaultPath canvasPath = None ->
  content_refine (cc_content args) = true ->
  files w !! canvasPath = None ->
  works env (op_mkdir canvasDir) ->
  breaks env (op_writeFile canvasPath) ->
  createCanvas env args vaultPath w
  = (thrown (McpError (handleFsError (SystemError (fault_message f)) "create canvas")),
     {| files := damaged f canvasPath (files w);
        log := ev_fs (op_writeFile canvasPath) false
               :: ev_fs (op_access canvasPath) false
               :: ev_fs (op_mkdir canvasDir) true :: log w |}).
Proof.
  intros canvasPath canvasDir f Hpath Hcontent Hfree Hmkdir Hwrite.
  apply leads_eq. unfold createCanvas, check_vault_path. fold canvasPath. rewrite Hpath.
  apply leads_try.
  destruct (parse_content_accepts (ensureCanvasExtension (cc_filename args))
              (cc_content args) w Hcontent) as [parsed Hparsed].
  call Hparsed. call ensureDirectory_works. call fileExists_absent.
  call writeFile_breaks.
  unfold rethrow. cbn [instanceof_McpError]. compute_last. split; reflexivity.
Qed.

(** ** delete-canvas *)

Lemma delete_canvas_missing vaultPath canvasRelativePath permanent reason w :
  let fullPath := path_join [vaultPath; canvasRelativePath] in
  validateVaultPath vaultPath fullPath = None ->
  files w !! fullPath = None ->
  deleteCanvas env vaultPath canvasRelativePath permanent reason w
  = (thrown (McpError (createCanvasNotFoundError canvasRelativePath)),
     {| files := files w; log := ev_fs (op_access fullPath) false :: log w |}).
Proof.
  intros fullPath Hpath Hfile.
  apply leads_eq. unfold deleteCanvas, check_vault_path. fold fullPath. rewrite Hpath.
  apply leads_try. call fileExists_absent. cbn [negb]. compute_last.
  unfold rethrow. cbn [instanceof_McpError]. compute_last. split; reflexivity.
Qed.

Lemma delete_canvas_unlinks vaultPath canvasRelativePath reason w original :
  let fullPath := path_join [vaultPath; canvasRelativePath] in
  validateVaultPath vaultPath fullPath = None ->
  files w !! fullPath = Some original ->
  works env (op_unlink fullPath) ->
  deleteCanvas env vaultPath canvasRelativePath true reason w
  = (returned ("Permanently deleted canvas " +:+ dquote +:+ canvasRelativePath +:+ dquote),
     {| files := base.delete fullPath (files w);
        log := ev_fs (op_unlink fullPath) true :: ev_fs (op_access fullPath) true :: log w |}).
Proof.
  intros fullPath Hpath Hfile Hunlink.
  apply leads_eq. unfold deleteCanvas, check_vault_path. fold fullPath. rewrite Hpath.
  apply leads_try. call fileExists_present. cbn [negb].
  call unlink_works. compute_last. split; reflexivity.
Qed.

Lemma delete_canvas_unlink_fails vaultPath canvasRelativePath reason w original :
  let fullPath := path_join [vaultPath; canvasRelativePath] in
  let f := the_fault env (1 + length (log w)) (op_unlink fullPath) in
  validateVaultPath vaultPath fullPath = None ->
  files w !! fullPath = Some original ->
  breaks env (op_unlink fullPath) ->
  deleteCanvas env vaultPath canvasRelativePath true reason w
  = (thrown (McpError (handleFsError (SystemError (fault_message f)) "delete canvas")),
     {| files := files w;
        log := ev_fs (op_unlink fullPath) false :: ev_fs (op_access fullPath) true :: log w |}).
Proof.
  intros fullPath f Hpath Hfile Hunlink.
  apply leads_eq. unfold deleteCanvas, check_vault_path. fold fullPath. rewrite Hpath.
  apply leads_try. call fileExists_present. cbn [negb].
  call unlink_breaks.
  unfold rethrow. cbn [instanceof_McpError]. compute_last. split; reflexivity.
Qed.

(** The sidecar cannot be written after the canvas was moved: the handler
    of [moveCanvasToTrash] removes the canvas from the trash, and it is in
    neither place. *)
Lemma delete_canvas_sidecar_fails vaultPath canvasRelativePath reason w original :
  let fullPath := path_join [vaultPath; canvasRelativePath] in
  let trashPath := path_join [vaultPath; ".trash"] in
  let trashName := trash_name canvasRelativePath (clock env (2 + length (log w))) in
  let trashFilePath := path_join [trashPath; trashName] in
  let trashMetaPath := trashFilePath +:+ ".meta.json" in
  let f := the_fault env (5 + length (log w)) (op_writeFile trashMetaPath) in
  validateVaultPath vaultPath fullPath = None ->
  files w !! fullPath = Some original ->
  works env (op_mkdir trashPath) ->
  works env (op_rename fullPath trashFilePath) ->
  breaks env (op_writeFile trashMetaPath) ->
  works env (op_unlink trashFilePath) ->
  trashFilePath <> fullPath ->
  trashMetaPath <> fullPath ->
  exists w',
    deleteCanvas env vaultPath canvasRelativePath false reason w
    = (thrown (McpError (handleFsError (SystemError (fault_message f)) "move canvas to trash")),
       w')
    /\ files w' !! fullPath = None
    /\ files w' !! trashFilePath = None.
Proof.
  intros fullPath trashPath trashName trashFilePath trashMetaPath f
         Hpath Hfile Hmkdir Hrename Hwrite Hunlink Hne1 Hne2.
  assert (trashMetaPath <> trashFilePath) as Hne3.
  { apply append_ne_self. discriminate. }
  cut (leads (deleteCanvas env vaultPath canvasRelativePath false reason) w
         (fun r w' =>
            r = thrown (McpError (handleFsError (SystemError (fault_message f))
                                    "move canvas to trash"))
            /\ files w' !! fullPath = None
            /\ files w' !! trashFilePath = None)).
  { intros H. apply leads_result in H as (r & w' & Hrun & -> & H1 & H2). eauto. }
  unfold deleteCanvas, check_vault_path. fold fullPath. rewrite Hpath.
  apply leads_try. call fileExists_present. cbn [negb].
  apply leads_bind. unfold moveCanvasToTrash, ensureTrashDirectory. fold trashPath.
  apply leads_bind. call ensureDirectory_works. compute_last.
  compute_next. compute_next.
  apply leads_try.
  call rename_works. call writeFile_breaks.
  apply leads_bind. apply leads_try.
  eapply leads_step; [eapply unlink_works; [exact Hunlink | lookup_apart] | cbn beta iota].
  apply leads_bind. apply leads_try. apply unlink_leads.
  intros r ok fs' Hfs'.
  assert (fs' !! fullPath = None /\ fs' !! trashFilePath = None) as [Hgone1 Hgone2].
  { rewrite !Hfs' by apart. split; lookup_apart. }
  destruct r as [[]|e]; [|compute_last];
    (compute_last; unfold rethrow; cbn [instanceof_McpError]; compute_last;
     split; [reflexivity | split; assumption]).
Qed.

(** The move itself fails: the canvas stays where it was. *)
Lemma delete_canvas_rename_fails vaultPath canvasRelativePath reason w original :
  let fullPath := path_join [vaultPath; canvasRelativePath] in
  let trashPath := path_join [vaultPath; ".trash"] in
  let trashName := trash_name canvasRelativePath (clock env (2 + length (log w))) in
  let trashFilePath := path_join [trashPath; trashName] in
  let trashMetaPath := trashFilePath +:+ ".meta.json" in
  let f := the_fault env (4 + length (log w)) (op_rename fullPath trashFilePath) in
  validateVaultPath vaultPath fullPath = None ->
  files w !! fullPath = Some original ->
  works env (op_mkdir trashPath) ->
  breaks env (op_rename fullPath trashFilePath) ->
  trashFilePath <> fullPath ->
  trashMetaPath <> fullPath ->
  exists w',
    deleteCanvas env vaultPath canvasRelativePath false reason w
    = (thrown (McpError (handleFsError (SystemError (fault_message f)) "move canvas to trash")),
       w')
    /\ files w' !! fullPath = Some original.
Proof.
  intros fullPath trashPath trashName trashFilePath trashMetaPath f
         Hpath Hfile Hmkdir Hrename Hne1 Hne2.
  cut (leads (deleteCanvas env vaultPath canvasRelativePath false reason) w
         (fun r w' =>
            r = thrown (McpError (handleFsError (SystemError (fault_message f))
                                    "move canvas to trash"))
            /\ files w' !! fullPath = Some original)).
  { intros H. apply leads_result in H as (r & w' & Hrun & -> & H1). eauto. }
  unfold deleteCanvas, check_vault_path. fold fullPath. rewrite Hpath.
  apply leads_try. call fileExists_present. cbn [negb].
  apply leads_bind. unfold moveCanvasToTrash, ensureTrashDirectory. fold trashPath.
  apply leads_bind. call ensureDirectory_works. compute_last.
  compute_next. compute_next.
  apply leads_try.
  call rename_breaks.
  apply leads_bind. apply leads_try. apply unlink_leads.
  intros r1 ok1 fs1 Hfs1.
  assert (fs1 !! fullPath = Some original) as Hkept1.
  { rewrite Hfs1 by apart. exact Hfile. }
  destruct r1 as [[]|e1]; [|compute_last];
    (apply leads_bind; apply leads_try; apply unlink_leads;
     intros r2 ok2 fs2 Hfs2;
     assert (fs2 !! fullPath = Some original) as Hkept2
       by (rewrite Hfs2 by apart; exact Hkept1);
     destruct r2 as [[]|e2]; [|compute_last];
     (compute_last; unfold rethrow; cbn [instanceof_McpError]; compute_last;
      split; [reflexivity | exact Hkept2])).
Qed.

End Edges.

End EdgeFacts.

(** * What the tools leave alone *)

Module ToolFrames.

Section Frames.

Context {node : NodeRuntime} {utils : RepoUtils}.
Variable env : environment.

Lemma keeps_parse_content ps name content : keeps ps (parse_content name content).
Proof.
  unfold parse_content.
  destruct (JSON_parse content); [frame|].
  destruct (Zod.parse_or_throw URL_canParse canvasSchema v); frame.
Qed.

Lemma keeps_rethrow {A} ps what e : keeps ps (@rethrow _ A what e).
Proof. unfold rethrow. frame. Qed.

Lemma keeps_readCanvas vaultPath filename folder :
  keeps [] (readCanvas env vaultPath filename folder).
Proof.
  unfold readCanvas, check_vault_path.
  destruct (validateVaultPath _ _); [frame|].
  frame; apply keeps_rethrow.
Qed.

Lemma editCanvas_frame vaultPath filename content folder w p :
  let fullPath := target_path vaultPath folder (ensureCanvasExtension filename) in
  let backupPath := backup_path fullPath (clock env (length (log w))) in
  p <> fullPath -> p <> backupPath ->
  files (snd (editCanvas env vaultPath filename content folder w)) !! p = files w !! p.
Proof.
  intros fullPath backupPath Hp1 Hp2.
  unfold editCanvas, check_vault_path. fold fullPath.
  destruct (validateVaultPath vaultPath fullPath); [reflexivity|].
  unfold bind at 1. cbn [Date_now]. fold backupPath.
  match goal with |- files (snd (?c ?w1)) !! _ = _ =>
    assert (keeps [fullPath; backupPath] c) as Hk end.
  { frame; try apply keeps_parse_content; apply keeps_rethrow. }
  rewrite Hk; [reflexivity|]. simpl. intuition congruence.
Qed.

Lemma editNote_frame vaultPath filename operation content folder w p :
  let fullPath := target_path vaultPath folder (ensureMarkdownExtension filename) in
  let backupPath := backup_path fullPath (clock env (length (log w))) in
  p <> fullPath -> p <> backupPath ->
  files (snd (editNote env vaultPath filename operation content folder w)) !! p = files w !! p.
Proof.
  intros fullPath backupPath Hp1 Hp2.
  unfold editNote, check_vault_path. fold fullPath.
  destruct (validateVaultPath vaultPath fullPath); [reflexivity|].
  unfold bind at 1. cbn [Date_now]. fold backupPath.
  match goal with |- files (snd (?c ?w1)) !! _ = _ =>
    assert (keeps [fullPath; backupPath] c) as Hk end.
  { unfold writeFile_data. frame; apply keeps_rethrow. }
  rewrite Hk; [reflexivity|]. simpl. intuition congruence.
Qed.

Lemma leads_untouched {A} p v (c : M A) w (Q : outcome A -> world -> Prop) :
  untouched p c ->
  files w !! p = v ->
  (forall r w', files w' !! p = v -> Q r w') ->
  leads c w Q.
Proof. intros Hc Hv HQ. unfold leads. apply HQ. now rewrite Hc. Qed.

(** Whatever fails, [deleteCanvas] changes no file other than the canvas,
    its place in the trash and the sidecar. *)
Lemma deleteCanvas_frame vaultPath canvasRelativePath permanent reason w p :
  let fullPath := path_join [vaultPath; canvasRelativePath] in
  let trashPath := path_join [vaultPath; ".trash"] in
  let trashName := trash_name canvasRelativePath (clock env (2 + length (log w))) in
  let trashFilePath := path_join [trashPath; trashName] in
  let trashMetaPath := trashFilePath +:+ ".meta.json" in
  p <> fullPath -> p <> trashFilePath -> p <> trashMetaPath ->
  files (snd (deleteCanvas env vaultPath canvasRelativePath permanent reason w)) !! p
  = files w !! p.
Proof.
  intros fullPath trashPath trashName trashFilePath trashMetaPath Hp1 Hp2 Hp3.
  change (leads (deleteCanvas env vaultPath canvasRelativePath permanent reason) w
            (fun _ w' => files w' !! p = files w !! p)).
  assert (forall (e : js_error) (w' : world),
             files w' !! p = files w !! p ->
             leads (@rethrow _ string "delete canvas" e) w'
               (fun _ w'' => files w'' !! p = files w !! p)) as Hrethrow.
  { intros e w' H. unfold rethrow. now destruct (instanceof_McpError e). }
  unfold deleteCanvas, check_vault_path. fold fullPath.
  destruct (validateVaultPath vaultPath fullPath); [reflexivity|].
  apply leads_try. compute_next.
  destruct (bool_decide (is_Some (files w !! fullPath))); cbn [negb].
  2:{ compute_last. now apply Hrethrow. }
  destruct permanent.
  - apply (leads_untouched p (files w !! p)).
    + apply (FrameFacts.keeps_untouched [fullPath]); [frame | simpl; intuition congruence].
    + reflexivity.
    + intros [a|e] w' H; [exact H | now apply Hrethrow].
  - apply leads_bind. unfold moveCanvasToTrash, ensureTrashDirectory. fold trashPath.
    apply leads_bind. apply leads_bind. unfold leads at 1, ensureDirectory, attempt.
    cbn [log log_event length].
    destruct (faults env (S (length (log w))) (op_mkdir trashPath)) as [f|]; cbn [fst snd].
    { apply Hrethrow. cbn [files]. now destruct (fault_residue f). }
    compute_last. compute_next. compute_next.
    apply (leads_untouched p (files w !! p)).
    + apply (FrameFacts.keeps_untouched [fullPath; trashFilePath; trashMetaPath]).
      * frame.
      * simpl. intros [H|[H|[H|[]]]]; [apply Hp1 | apply Hp2 | apply Hp3]; symmetry; exact H.
    + reflexivity.
    + intros [a|e] w' H; [compute_last; exact H | now apply Hrethrow].
Qed.

Section Search.

Import SearchVault.

Hypothesis listing_reads : forall vaultPath dir, keeps [] (getAllMarkdownFiles env vaultPath dir).

Lemma keeps_search_dir vaultPath options : keeps [] (search_dir vaultPath options).
Proof. unfold search_dir. frame. Qed.

Lemma keeps_search_files vaultPath query options fs acc :
  keeps [] (search_files env vaultPath query options fs acc).
Proof.
  revert acc. induction fs as [|f fs IH]; intros acc; cbn [search_files]; [frame|].
  apply FrameFacts.keeps_bind; [unfold search_file; frame | intros found; apply IH].
Qed.

Lemma keeps_searchFilenames vaultPath query options :
  keeps [] (searchFilenames env vaultPath query options).
Proof.
  unfold searchFilenames. apply FrameFacts.keeps_try; [|intros e; apply keeps_rethrow].
  apply FrameFacts.keeps_bind; [apply keeps_search_dir|]. intros dir.
  apply FrameFacts.keeps_bind; [apply listing_reads|]. frame.
Qed.

Lemma keeps_searchContent vaultPath query options :
  keeps [] (searchContent env vaultPath query options).
Proof.
  unfold searchContent. apply FrameFacts.keeps_try; [|intros e; apply keeps_rethrow].
  apply FrameFacts.keeps_bind; [apply keeps_search_dir|]. intros dir.
  apply FrameFacts.keeps_bind; [apply listing_reads|]. intros fs. apply keeps_search_files.
Qed.

Lemma keeps_searchVault vaultPath query options :
  keeps [] (searchVault env vaultPath query options).
Proof.
  unfold searchVault. apply FrameFacts.keeps_try; [|intros e; apply keeps_rethrow].
  destruct (normalizePath vaultPath) as [e|normalized]; [frame|].
  apply FrameFacts.keeps_bind.
  - unfold gather, sub_search.
    apply FrameFacts.keeps_bind.
    + destruct (wants_filename _); [|frame].
      apply FrameFacts.keeps_try; [|frame].
      apply FrameFacts.keeps_bind; [apply keeps_searchFilenames | frame].
    + intros acc. destruct (wants_content _); [|frame].
      apply FrameFacts.keeps_try; [|frame].
      apply FrameFacts.keeps_bind; [apply keeps_searchContent | frame].
  - intros acc. unfold conclude. frame.
Qed.

End Search.

End Frames.

End ToolFrames.

(** * search-vault *)

Module SearchFacts.

Import SearchVault.

Section Search.

Context {node : NodeRuntime} {utils : RepoUtils}.
Variable env : environment.

Lemma readFile_breaks p w :
  breaks env (op_readFile p) ->
  readFile env p w
  = (thrown (SystemError (fault_message (the_fault env (length (log w)) (op_readFile p)))),
     {| files := files w; log := ev_fs (op_readFile p) false :: log w |}).
Proof.
  intros Hb. unfold the_fault. destruct (Hb (length (log w))) as [f Hf].
  unfold readFile, attempt. rewrite Hf. cbn [default].
  now destruct (fault_residue f).
Qed.

(** A file that cannot be read is reported on the console and gives no
    result; the loop goes on. *)
Lemma search_file_unreadable vaultPath query options f w :
  breaks env (op_readFile f) ->
  search_file env vaultPath query options f w
  = (returned [],
     {| files := files w;
        log := ev_console_error
                 ("Error reading file " +:+ f +:+ ": "
                  +:+ error_toString
                        (SystemError (fault_message
                                        (the_fault env (length (log w)) (op_readFile f)))))
               :: ev_fs (op_readFile f) false :: log w |}).
Proof.
  intros Hb. apply CanvasToolFacts.leads_eq. unfold search_file.
  apply leads_try. call readFile_breaks. compute_next. compute_last.
  split; reflexivity.
Qed.

Lemma search_file_returns vaultPath query options f w :
  exists found w', search_file env vaultPath query options f w = (returned found, w').
Proof.
  unfold search_file, try_catch, bind.
  destruct (readFile env f w) as [[text|e] w1]; cbn; eauto.
Qed.

(** The loop over the files never throws. *)
Lemma search_files_returns vaultPath query options fs acc w :
  exists found w', search_files env vaultPath query options fs acc w = (returned found, w').
Proof.
  revert acc w. induction fs as [|f fs IH]; intros acc w; simpl.
  - unfold ret. eauto.
  - destruct (search_file_returns vaultPath query options f w) as (found & w1 & Hf).
    unfold bind at 1. rewrite Hf. apply IH.
Qed.

(** The content search fails only when the directory cannot be resolved
    or listed. *)
Lemma searchContent_returns vaultPath query options w dir w0 fs w1 :
  search_dir vaultPath options w = (returned dir, w0) ->
  getAllMarkdownFiles env vaultPath dir w0 = (returned fs, w1) ->
  exists found w2, searchContent env vaultPath query options w = (returned found, w2).
Proof.
  intros Hdir Hfs.
  destruct (search_files_returns vaultPath query options fs [] w1) as (found & w2 & Hloop).
  exists found, w2. unfold searchContent, try_catch, bind. now rewrite Hdir, Hfs, Hloop.
Qed.

Lemma sub_search_run label run acc w :
  sub_search label run acc w
  = (returned match fst (run w) with
              | returned found => (fst acc ++ found, snd acc)
              | thrown e => (fst acc, snd acc ++ [sub_error label e])
              end,
     snd (run w)).
Proof.
  unfold sub_search, try_catch, bind, ret, sub_error.
  destruct (run w) as [[found|e] w1]; reflexivity.
Qed.

Lemma gather_returns vaultPath query options w :
  exists rs errors w', gather env vaultPath query options w = (returned (rs, errors), w').
Proof.
  unfold gather.
  destruct (wants_filename (searchType options)), (wants_content (searchType options));
    unfold bind, ret; rewrite ?sub_search_run; cbn [fst snd];
    try rewrite sub_search_run;
    match goal with |- exists rs errors w', (returned ?x, ?w) = _ =>
      exists (fst x), (snd x), w; now rewrite <- surjective_pairing end.
Qed.

(** An error is gathered only when a whole sub-search threw. *)
Lemma gather_errors vaultPath query options w rs errors w' :
  gather env vaultPath query options w = (returned (rs, errors), w') ->
  errors <> [] ->
  (exists e w1, searchFilenames env vaultPath query options w = (thrown e, w1))
  \/ (exists w0 e w1, searchContent env vaultPath query options w0 = (thrown e, w1)).
Proof.
  unfold gather.
  destruct (wants_filename (searchType options)), (wants_content (searchType options));
    unfold bind, ret; rewrite ?sub_search_run; cbn [fst snd];
    try rewrite sub_search_run; intros Hg Herr.
  - destruct (searchFilenames env vaultPath query options w) as [[f1|e1] w1] eqn:H1;
      [|left; eauto].
    cbn [fst snd] in Hg.
    destruct (searchContent env vaultPath query options w1) as [[f2|e2] w2] eqn:H2;
      [|right; eauto].
    cbn [fst snd] in Hg. congruence.
  - destruct (searchFilenames env vaultPath query options w) as [[f1|e1] w1] eqn:H1;
      [|left; eauto].
    cbn [fst snd] in Hg. congruence.
  - destruct (searchContent env vaultPath query options w) as [[f2|e2] w2] eqn:H2;
      [|right; eauto].
    cbn [fst snd] in Hg. congruence.
  - congruence.
Qed.

Lemma searchVault_concludes vaultPath normalized query options w rs errors w' :
  normalizePath vaultPath = inr normalized ->
  gather env normalized query options w = (returned (rs, errors), w') ->
  searchVault env vaultPath query options w
  = (match rs, errors with
     | _ :: _, _ :: _ => returned (warned rs errors)
     | [], _ :: _ =>
         thrown (McpError {| mcp_code := InternalError;
                             mcp_message := "Search failed:" +:+ nl +:+ join nl errors |})
     | _, [] => returned (completed rs)
     end, w').
Proof.
  intros Hn Hg. unfold searchVault, try_catch, bind. rewrite Hn, Hg. cbn [fst snd].
  unfold conclude. destruct rs, errors; reflexivity.
Qed.

End Search.

End SearchFacts.

(** * search-vault: what the results look like *)

Module SearchResults.

Import SearchVault SearchFacts.

Lemma count_matches_from rs n :
  fold_left (fun sum result => (sum + length (matches result))%nat) rs n
  = (n + count_matches rs)%nat.
Proof.
  unfold count_matches. revert n. induction rs as [|r rs IH]; intros n; simpl; [lia|].
  rewrite IH, (IH (length (matches r))). lia.
Qed.

Lemma count_matches_cons r rs :
  count_matches (r :: rs) = (length (matches r) + count_matches rs)%nat.
Proof. unfold count_matches at 1. simpl. apply count_matches_from. Qed.

Lemma count_matches_sum rs :
  count_matches rs = list_sum (map (fun r => length (matches r)) rs).
Proof.
  induction rs as [|r rs IH]; [reflexivity|].
  rewrite count_matches_cons, IH. reflexivity.
Qed.

(** Results that each hold a match hold at least as many matches as
    there are results. *)
Lemma count_matches_least rs :
  Forall (fun r => matches r <> []) rs -> (length rs <= count_matches rs)%nat.
Proof.
  induction 1 as [|r rs Hr _ IH]; [unfold count_matches; simpl; lia|].
  rewrite count_matches_cons. simpl. destruct (matches r); [congruence | simpl; lia].
Qed.

Section Results.

Context {node : NodeRuntime} {utils : RepoUtils}.
Variable env : environment.

(** ** The lines of a file *)

Lemma collect_matches_In query options lines : forall index m,
  In m (collect_matches query options index lines)
  <-> exists k l,
        nth_error lines k = Some l
        /\ line_matches query options l = true
        /\ line m = (index + k + 1)%nat
        /\ text m = trim l.
Proof.
  induction lines as [|l0 lines IH]; intros index m; cbn [collect_matches].
  - split; [intros [] | intros (k & l & Hk & _)]. now destruct k.
  - rewrite in_app_iff, IH. split.
    + intros [Hhere | (k & l & Hk & Hm & Hline & Htext)].
      * destruct (line_matches query options l0) eqn:Hm0; [|destruct Hhere].
        destruct Hhere as [<-|[]]. exists 0%nat, l0. cbn. repeat split; auto; lia.
      * exists (S k), l. repeat split; auto; lia.
    + intros (k & l & Hk & Hm & Hline & Htext). destruct k as [|k].
      * left. cbn in Hk. injection Hk as ->. rewrite Hm. left.
        destruct m as [ln tx]; cbn in *. subst. f_equal; lia.
      * right. exists k, l. repeat split; auto; lia.
Qed.

Lemma collect_matches_above query options lines : forall index,
  Forall (fun m => (index < line m)%nat) (collect_matches query options index lines).
Proof.
  induction lines as [|l0 lines IH]; intros index; cbn [collect_matches]; [constructor|].
  apply Forall_app. split.
  - destruct (line_matches query options l0); repeat constructor. cbn. lia.
  - eapply List.Forall_impl; [|apply (IH (S index))]. cbn. intros m Hm. lia.
Qed.

Lemma collect_matches_ordered query options lines : forall index,
  StronglySorted (fun a b => (line a < line b)%nat) (collect_matches query options index lines).
Proof.
  induction lines as [|l0 lines IH]; intros index; cbn [collect_matches]; [constructor|].
  destruct (line_matches query options l0); cbn [app]; [|apply IH].
  constructor; [apply IH|].
  eapply List.Forall_impl; [|apply (collect_matches_above query options lines (S index))].
  cbn. intros m Hm. lia.
Qed.

(** ** The results of the two searches *)

Lemma filename_match_hits vaultPath query options f :
  Forall filename_hit (filename_match vaultPath query options f).
Proof.
  unfold filename_match.
  destruct (includes _ _); repeat constructor.
Qed.

Lemma searchFilenames_hits vaultPath query options w rs w' :
  searchFilenames env vaultPath query options w = (returned rs, w') ->
  Forall filename_hit rs.
Proof.
  unfold searchFilenames, try_catch, bind.
  destruct (search_dir vaultPath options w) as [[dir|e] w0].
  - destruct (getAllMarkdownFiles env vaultPath dir w0) as [[fs|e] w1].
    + unfold ret. intros [= <- _].
      induction fs as [|f fs IH]; [constructor|]. cbn [flat_map].
      apply Forall_app. split; [apply filename_match_hits | exact IH].
    + unfold rethrow, throw. destruct (instanceof_McpError e); discriminate.
  - unfold rethrow, throw. destruct (instanceof_McpError e); discriminate.
Qed.

Lemma search_file_hits vaultPath query options f w found w' :
  search_file env vaultPath query options f w = (returned found, w') ->
  Forall content_hit found.
Proof.
  unfold search_file, try_catch, bind.
  destruct (readFile env f w) as [[text|e] w1]; unfold ret; cbn.
  - intros [= <- _].
    pose proof (collect_matches_above query options (split_lines text) 0) as Habove.
    destruct (collect_matches query options 0 (split_lines text)) as [|m ms];
      constructor; [|constructor].
    split; [discriminate|]. cbn [matches].
    eapply List.Forall_impl; [|exact Habove]. cbn. intros ? ?. lia.
  - intros [= <- _]. constructor.
Qed.

Lemma search_files_hits vaultPath query options fs : forall acc w found w',
  Forall content_hit acc ->
  search_files env vaultPath query options fs acc w = (returned found, w') ->
  Forall content_hit found.
Proof.
  induction fs as [|f fs IH]; intros acc w found w' Hacc; cbn [search_files].
  - unfold ret. now intros [= <- _].
  - unfold bind at 1.
    destruct (search_file env vaultPath query options f w) as [[hits|e] w1] eqn:Hf;
      [|discriminate].
    apply IH. apply Forall_app. split; [exact Hacc|].
    exact (search_file_hits _ _ _ _ _ _ _ Hf).
Qed.

Lemma searchContent_hits vaultPath query options w rs w' :
  searchContent env vaultPath query options w = (returned rs, w') ->
  Forall content_hit rs.
Proof.
  unfold searchContent, try_catch, bind.
  destruct (search_dir vaultPath options w) as [[dir|e] w0].
  - destruct (getAllMarkdownFiles env vaultPath dir w0) as [[fs|e] w1].
    + destruct (search_files env vaultPath query options fs [] w1) as [[found|e] w2] eqn:Hloop.
      * intros [= <- _]. exact (search_files_hits _ _ _ _ _ _ _ _ (@List.Forall_nil _ content_hit) Hloop).
      * unfold rethrow, throw. destruct (instanceof_McpError e); discriminate.
    + unfold rethrow, throw. destruct (instanceof_McpError e); discriminate.
  - unfold rethrow, throw. destruct (instanceof_McpError e); discriminate.
Qed.

Lemma gather_hits vaultPath query options w rs errors w' :
  gather env vaultPath query options w = (returned (rs, errors), w') ->
  exists named found,
    rs = named ++ found
    /\ Forall filename_hit named
    /\ Forall content_hit found
    /\ (wants_filename (searchType options) = false -> named = [])
    /\ (wants_content (searchType options) = false -> found = []).
Proof.
  unfold gather.
  destruct (wants_filename (searchType options)), (wants_content (searchType options));
    unfold bind, ret; rewrite ?sub_search_run; cbn [fst snd];
    try rewrite sub_search_run; intros Hg.
  - destruct (searchFilenames env vaultPath query options w) as [[f1|e1] w1] eqn:H1;
      cbn [fst snd] in Hg;
      destruct (searchContent env vaultPath query options w1) as [[f2|e2] w2] eqn:H2;
      cbn [fst snd] in Hg; injection Hg as <- _ _.
    + exists f1, f2. repeat split; try discriminate.
      * exact (searchFilenames_hits _ _ _ _ _ _ H1).
      * exact (searchContent_hits _ _ _ _ _ _ H2).
    + exists f1, []. rewrite app_nil_r. repeat split; try discriminate; try constructor.
      exact (searchFilenames_hits _ _ _ _ _ _ H1).
    + exists [], f2. repeat split; try discriminate; try constructor.
      exact (searchContent_hits _ _ _ _ _ _ H2).
    + exists [], []. repeat split; try discriminate; constructor.
  - destruct (searchFilenames env vaultPath query options w) as [[f1|e1] w1] eqn:H1;
      cbn [fst snd] in Hg; injection Hg as <- _ _.
    + exists f1, []. rewrite app_nil_r. repeat split; try discriminate; try constructor.
      exact (searchFilenames_hits _ _ _ _ _ _ H1).
    + exists [], []. repeat split; try discriminate; constructor.
  - destruct (searchContent env vaultPath query options w) as [[f2|e2] w2] eqn:H2;
      cbn [fst snd] in Hg; injection Hg as <- _ _.
    + exists [], f2. repeat split; try discriminate; try constructor.
      exact (searchContent_hits _ _ _ _ _ _ H2).
    + exists [], []. repeat split; try discriminate; constructor.
  - injection Hg as <- _ _. exists [], []. repeat split; constructor.
Qed.

(** ** The case of the query

    A search that ignores case sees of a query only its lower-case form:
    two queries with the same lower-case form give the same search. *)

Section Lower.

Variable options : SearchOptions.
Variables query query' : string.
Hypothesis Hfold : caseSensitive options = false.
Hypothesis Hplain : isTagSearch query = false.
Hypothesis Hplain' : isTagSearch query' = false.
Hypothesis Hsame : toLowerCase query = toLowerCase query'.

Lemma line_matches_lower l :
  line_matches query options l = line_matches query' options l.
Proof. unfold line_matches. now rewrite Hplain, Hplain', Hfold, Hsame. Qed.

Lemma collect_matches_lower lines : forall index,
  collect_matches query options index lines
  = collect_matches query' options index lines.
Proof.
  induction lines as [|l lines IH]; intros index; cbn [collect_matches]; [reflexivity|].
  now rewrite line_matches_lower, IH.
Qed.

Lemma filename_match_lower vaultPath f :
  filename_match vaultPath query options f
  = filename_match vaultPath query' options f.
Proof. unfold filename_match. now rewrite Hfold, Hsame. Qed.

Lemma search_file_lower vaultPath f w :
  search_file env vaultPath query options f w
  = search_file env vaultPath query' options f w.
Proof.
  unfold search_file, try_catch, bind.
  destruct (readFile env f w) as [[text|e] w1]; [|reflexivity].
  now rewrite collect_matches_lower.
Qed.

Lemma search_files_lower vaultPath fs : forall acc w,
  search_files env vaultPath query options fs acc w
  = search_files env vaultPath query' options fs acc w.
Proof.
  induction fs as [|f fs IH]; intros acc w; cbn [search_files]; [reflexivity|].
  unfold bind. rewrite search_file_lower.
  destruct (search_file env vaultPath query' options f w) as [[found|e] w1]; [apply IH | reflexivity].
Qed.

Lemma searchContent_lower vaultPath w :
  searchContent env vaultPath query options w
  = searchContent env vaultPath query' options w.
Proof.
  unfold searchContent, try_catch, bind.
  destruct (search_dir vaultPath options w) as [[dir|e] w0]; [|reflexivity].
  destruct (getAllMarkdownFiles env vaultPath dir w0) as [[fs|e] w1]; [|reflexivity].
  now rewrite search_files_lower.
Qed.

Lemma searchFilenames_lower vaultPath w :
  searchFilenames env vaultPath query options w
  = searchFilenames env vaultPath query' options w.
Proof.
  unfold searchFilenames, try_catch, bind.
  destruct (search_dir vaultPath options w) as [[dir|e] w0]; [|reflexivity].
  destruct (getAllMarkdownFiles env vaultPath dir w0) as [[fs|e] w1]; [|reflexivity].
  unfold ret. do 2 f_equal. apply flat_map_ext. intros f. apply filename_match_lower.
Qed.

Lemma searchVault_lower vaultPath w :
  searchVault env vaultPath query options w
  = searchVault env vaultPath query' options w.
Proof.
  unfold searchVault, try_catch, bind.
  destruct (normalizePath vaultPath) as [e|normalized]; [reflexivity|].
  assert (gather env normalized query options w
          = gather env normalized query' options w) as ->; [|reflexivity].
  unfold gather, bind, ret.
  destruct (wants_filename (searchType options)), (wants_content (searchType options));
    rewrite ?sub_search_run, ?searchFilenames_lower, ?searchContent_lower; cbn [fst snd];
    rewrite ?sub_search_run, ?searchContent_lower; reflexivity.
Qed.

End Lower.

End Results.

End SearchResults.

(** * list-files *)

Module ListFacts.

Import ListFiles.

(** Induction on a directory tree. *)
Fixpoint Dirent_tree_ind (P : Dirent -> Prop)
    (Hfile : forall n, P (file_entry n))
    (Hother : forall n, P (other_entry n))
    (Hlocked : forall n, P (dir_entry n None))
    (Hdir : forall n entries, Forall P entries -> P (dir_entry n (Some entries)))
    (e : Dirent) {struct e} : P e :=
  match e with
  | file_entry n => Hfile n
  | other_entry n => Hother n
  | dir_entry n None => Hlocked n
  | dir_entry n (Some entries) =>
      Hdir n entries
        ((fix all (es : list Dirent) : Forall P es :=
            match es with
            | [] => @List.Forall_nil _ P
            | x :: xs =>
                @List.Forall_cons _ P x xs
                  (Dirent_tree_ind P Hfile Hother Hlocked Hdir x) (all xs)
            end) entries)
  end.

Lemma In_gathered p (rs : list (list string * list string)) :
  In p (gathered rs) -> exists r, In r rs /\ (In p (fst r) \/ In p (snd r)).
Proof.
  unfold gathered. rewrite in_app_iff, !in_concat.
  intros [(l & Hl & Hp) | (l & Hl & Hp)];
    apply in_map_iff in Hl as (r & <- & Hr); eauto.
Qed.

Lemma inb_false_ne k l x : inb k l = false -> In x l -> k <> x.
Proof. intros H Hin ->. now apply (ZodFacts.inb_false_not_In x l). Qed.

Lemma reaches_file_from entry entries names :
  reaches_file [entry] names -> In entry entries -> reaches_file entries names.
Proof.
  intros Hreach Hin. inversion Hreach as [? ? Hone|? ? below ? Hone Hrest]; subst;
    destruct Hone as [Hone|[]]; subst entry.
  - now apply reach_file.
  - now apply reach_below with (below := below).
Qed.

Section Listing.

Context {node : NodeRuntime}.

(** What [visit] yields for an entry was reached from it through
    visible names only. *)
Lemma visit_sound vaultPath ignored entry :
  In "node_modules" ignored ->
  forall dirPath p,
    In p (fst (visit dirPath vaultPath ignored entry))
    \/ In p (snd (visit dirPath vaultPath ignored entry)) ->
    exists names,
      reaches_file [entry] names
      /\ Forall visible names
      /\ p = path_relative vaultPath (entry_path dirPath names).
Proof.
  intros Hnm. induction entry as [n|n|n|n entries IH] using Dirent_tree_ind;
    intros dirPath p; simpl;
    destruct (inb n ignored) eqn:Hign; simpl; try (intros [[]|[]]; fail);
    destruct (startsWith n ".") eqn:Hdot; simpl; try (intros [[]|[]]; fail).
  - intros [[<-|[]]|[]]. exists [n]. split; [|split].
    + apply reach_file. now left.
    + repeat constructor; [assumption | now apply (inb_false_ne n ignored)].
    + reflexivity.
  - intros [[]|Hp]. apply In_gathered in Hp as (r & Hr & Hp).
    apply in_map_iff in Hr as (sub & <- & Hsub).
    rewrite List.Forall_forall in IH.
    destruct (IH sub Hsub _ p Hp) as (names & Hreach & Hvis & ->).
    exists (n :: names). split; [|split].
    + apply reach_below with (below := entries); [now left|].
      now apply (reaches_file_from sub).
    + constructor; [|assumption].
      split; [assumption | now apply (inb_false_ne n ignored)].
    + reflexivity.
Qed.

Lemma listFilesRecursive_sound vaultPath ignored root p :
  In "node_modules" ignored ->
  In p (listFilesRecursive vaultPath vaultPath ignored (Some root)) ->
  exists names,
    reaches_file root names
    /\ Forall visible names
    /\ p = path_relative vaultPath (entry_path vaultPath names).
Proof.
  intros Hnm Hp. unfold listFilesRecursive in Hp.
  apply In_gathered in Hp as (r & Hr & Hp).
  apply in_map_iff in Hr as (entry & <- & Hentry).
  destruct (visit_sound vaultPath ignored entry Hnm vaultPath p Hp)
    as (names & Hreach & Hvis & ->).
  exists names. split; [|split]; try assumption; try reflexivity.
  now apply (reaches_file_from entry).
Qed.

End Listing.

(** ** The sort *)

Section Sort.

Context {node : NodeRuntime}.

Lemma In_insert_sorted x y l : In x (insert_sorted y l) <-> x = y \/ In x l.
Proof.
  induction l as [|z l IH]; simpl; [intuition|].
  destruct (code_unit_leb y z); simpl; rewrite ?IH; intuition.
Qed.

Lemma In_sort x l : In x (sort l) <-> In x l.
Proof.
  induction l as [|y l IH]; simpl; [reflexivity|].
  rewrite In_insert_sorted, IH. intuition.
Qed.



End Sort.

End ListFacts.

Module SortFacts.
Import ListFiles.

Section Sort.

Context {node : NodeRuntime}.






End Sort.

End SortFacts.

(** * list-files: nothing visible is left out *)

Module ListComplete.

Import ListFiles ListFacts.

Lemma gathered_In p r (rs : list (list string * list string)) :
  In r rs -> In p (fst r) \/ In p (snd r) -> In p (gathered rs).
Proof.
  intros Hr Hp. unfold gathered. rewrite in_app_iff, !in_concat.
  destruct Hp as [Hp|Hp]; [left | right]; eexists; (split; [|exact Hp]);
    apply in_map_iff; eauto.
Qed.

Section Listing.

Context {node : NodeRuntime}.

Lemma entry_path_cons dirPath name names :
  entry_path dirPath (name :: names) = entry_path (path_join [dirPath; name]) names.
Proof. reflexivity. Qed.

(** A regular file reached through names that are neither ignored nor
    hidden is among the files gathered. *)
Lemma listFilesRecursive_complete vaultPath ignored entries names :
  reaches_file entries names ->
  Forall (fun n => inb n ignored = false /\ startsWith n "." = false) names ->
  forall dirPath,
    In (path_relative vaultPath (entry_path dirPath names))
       (listFilesRecursive dirPath vaultPath ignored (Some entries)).
Proof.
  induction 1 as [entries name Hin | entries name below names Hin Hreach IH];
    intros Hnames dirPath; cbn [listFilesRecursive].
  - inversion Hnames as [|? ? [Hign Hdot] _]; subst.
    apply (gathered_In _ (visit dirPath vaultPath ignored (file_entry name))).
    + apply in_map_iff. eauto.
    + left. cbn [visit entry_name]. rewrite Hign, Hdot. now left.
  - inversion Hnames as [|? ? [Hign Hdot] Hrest]; subst.
    apply (gathered_In _ (visit dirPath vaultPath ignored (dir_entry name (Some below)))).
    + apply in_map_iff. eauto.
    + right. cbn [visit entry_name]. rewrite Hign, Hdot. cbn [orb snd].
      rewrite entry_path_cons. apply (IH Hrest).
Qed.

Lemma visible_not_ignored n :
  visible n -> inb n [".obsidian"; ".trash"; "node_modules"] = false /\ startsWith n "." = false.
Proof.
  intros [Hdot Hnm]. split; [|exact Hdot].
  cbn. destruct n as [|c n]; [reflexivity|].
  unfold startsWith in Hdot. cbn [String.prefix] in Hdot.
  destruct (ascii_dec "."%char c) as [<-|Hc]; [now destruct n|].
  assert (String.eqb (String c n) ".obsidian" = false) as ->.
  { apply String.eqb_neq. intros H. injection H as H _. congruence. }
  assert (String.eqb (String c n) ".trash" = false) as ->.
  { apply String.eqb_neq. intros H. injection H as H _. congruence. }
  cbn [orb]. rewrite orb_false_r. now apply String.eqb_neq.
Qed.

Lemma listVaultFiles_complete vaultPath entries names :
  reaches_file entries names ->
  Forall visible names ->
  In (path_relative vaultPath (entry_path vaultPath names))
     (listVaultFiles vaultPath (Some entries)).
Proof.
  intros Hreach Hvis. unfold listVaultFiles. apply In_sort.
  apply listFilesRecursive_complete; [exact Hreach|].
  eapply List.Forall_impl; [|exact Hvis]. apply visible_not_ignored.
Qed.

End Listing.

End ListComplete.

(** * The claims of the specification *)

(** C1: for every edit-canvas call and every edit-note call (append,
    prepend or replace) on an existing target, when the write of the new
    content fails after the backup snapshot was taken (and the backup can
    be copied back and removed, the other case being C2), the target holds
    after the call exactly what it held before, and no backup file remains. *)
Theorem failed_write_is_rolled_back :
  forall (node : NodeRuntime) (utils : RepoUtils) (env : environment)
         (vaultPath filename : string) (folder : option string) (w : world) (original : string),
    (forall content,
        let fullPath := target_path vaultPath folder (ensureCanvasExtension filename) in
        let backupPath := backup_path fullPath (clock env (length (log w))) in
        validateVaultPath vaultPath fullPath = None ->
        files w !! fullPath = Some original ->
        content_refine content = true ->
        works env (op_copyFile fullPath backupPath) ->
        breaks env (op_writeFile fullPath) ->
        works env (op_copyFile backupPath fullPath) ->
        works env (op_unlink backupPath) ->
        exists e w',
          editCanvas env vaultPath filename content folder w = (thrown e, w')
          /\ files w' !! fullPath = Some original
          /\ files w' !! backupPath = None)
    /\ (forall operation content,
          let fullPath := target_path vaultPath folder (ensureMarkdownExtension filename) in
          let backupPath := backup_path fullPath (clock env (length (log w))) in
          operation <> Edit.delete ->
          validateVaultPath vaultPath fullPath = None ->
          files w !! fullPath = Some original ->
          works env (op_copyFile fullPath backupPath) ->
          breaks env (op_writeFile fullPath) ->
          works env (op_copyFile backupPath fullPath) ->
          works env (op_unlink backupPath) ->
          exists e w',
            editNote env vaultPath filename operation content folder w = (thrown e, w')
            /\ files w' !! fullPath = Some original
            /\ files w' !! backupPath = None).
Proof.
  intros node utils env vaultPath filename folder w original. split.
  - intros content. apply EditFacts.edit_canvas_rollback.
  - intros operation content. apply EditFacts.edit_note_rollback.
Qed.

Lemma failed_write_is_rolled_back_witness :
  (exists e w',
      @editCanvas posix spec_utils disk_full "/vault" "board" empty_canvas_text None
        (fresh small_vault) = (thrown e, w')
      /\ files w' !! "/vault/board.canvas" = Some empty_canvas_text
      /\ files w' !! "/vault/board.canvas.1700000000000.backup" = None)
  /\ (exists e w',
        @editNote posix spec_utils disk_full "/vault" "daily" Edit.append (Some "more") None
          (fresh small_vault) = (thrown e, w')
        /\ files w' !! "/vault/daily.md" = Some "# Today"
        /\ files w' !! "/vault/daily.md.1700000000000.backup" = None).
Proof.
  split.
  - apply (proj1 (failed_write_is_rolled_back posix spec_utils disk_full "/vault" "board" None
                    (fresh small_vault) empty_canvas_text) empty_canvas_text);
      try (vm_compute; reflexivity);
      intros n; try reflexivity; eexists; reflexivity.
  - apply (proj2 (failed_write_is_rolled_back posix spec_utils disk_full "/vault" "daily" None
                    (fresh small_vault) "# Today") Edit.append (Some "more"));
      try (vm_compute; reflexivity); try discriminate;
      intros n; try reflexivity; eexists; reflexivity.
Defined.

(** C2: for every edit in which the write fails and the backup cannot
    be copied back either, the call raises the InternalError whose message
    ends by naming the backup path as preserved.  After edit-note (append,
    prepend or replace) the backup is still on disk with the old content.
    After edit-canvas it is not: the handler that ends the call has removed
    the very backup the error reports, so the old content is lost. *)
Theorem edit_canvas_removes_the_backup_it_reports :
  forall (node : NodeRuntime) (utils : RepoUtils) (env : environment)
         (vaultPath filename : string) (folder : option string) (w : world) (original : string),
    (forall content,
        let fullPath := target_path vaultPath folder (ensureCanvasExtension filename) in
        let backupPath := backup_path fullPath (clock env (length (log w))) in
        validateVaultPath vaultPath fullPath = None ->
        files w !! fullPath = Some original ->
        content_refine content = true ->
        works env (op_copyFile fullPath backupPath) ->
        breaks env (op_writeFile fullPath) ->
        breaks env (op_copyFile backupPath fullPath) ->
        works env (op_unlink backupPath) ->
        exists report w',
          editCanvas env vaultPath filename content folder w
          = (thrown (McpError {| mcp_code := InternalError;
                                 mcp_message := report +:+ "Backup file preserved at "
                                                +:+ backupPath |}), w')
          /\ files w' !! backupPath = None)
    /\ (forall operation content,
          let fullPath := target_path vaultPath folder (ensureMarkdownExtension filename) in
          let backupPath := backup_path fullPath (clock env (length (log w))) in
          operation <> Edit.delete ->
          validateVaultPath vaultPath fullPath = None ->
          files w !! fullPath = Some original ->
          works env (op_copyFile fullPath backupPath) ->
          breaks env (op_writeFile fullPath) ->
          breaks env (op_copyFile backupPath fullPath) ->
          exists report w',
            editNote env vaultPath filename operation content folder w
            = (thrown (McpError {| mcp_code := InternalError;
                                   mcp_message := report +:+ "Backup file preserved at "
                                                  +:+ backupPath |}), w')
            /\ files w' !! backupPath = Some original).
Proof.
  intros node utils env vaultPath filename folder w original. split.
  - intros content. apply EditFacts.edit_canvas_failed_rollback.
  - intros operation content. apply EditFacts.edit_note_failed_rollback.
Qed.

Lemma edit_canvas_removes_the_backup_it_reports_witness :
  (exists report w',
      @editCanvas posix spec_utils disk_full_restore_fails "/vault" "board" empty_canvas_text None
        (fresh small_vault)
      = (thrown (McpError {| mcp_code := InternalError;
                             mcp_message := report +:+ "Backup file preserved at "
                                            +:+ "/vault/board.canvas.1700000000000.backup" |}), w')
      /\ files w' !! "/vault/board.canvas.1700000000000.backup" = None)
  /\ (exists report w',
        @editNote posix spec_utils disk_full_restore_fails "/vault" "daily" Edit.replace
          (Some "new") None (fresh small_vault)
        = (thrown (McpError {| mcp_code := InternalError;
                               mcp_message := report +:+ "Backup file preserved at "
                                              +:+ "/vault/daily.md.1700000000000.backup" |}), w')
        /\ files w' !! "/vault/daily.md.1700000000000.backup" = Some "# Today").
Proof.
  split.
  - apply (proj1 (edit_canvas_removes_the_backup_it_reports posix spec_utils
                    disk_full_restore_fails "/vault" "board" None (fresh small_vault)
                    empty_canvas_text) empty_canvas_text);
      try (vm_compute; reflexivity);
      intros n; try reflexivity; eexists; reflexivity.
  - apply (proj2 (edit_canvas_removes_the_backup_it_reports posix spec_utils
                    disk_full_restore_fails "/vault" "daily" None (fresh small_vault)
                    "# Today") Edit.replace (Some "new"));
      try (vm_compute; reflexivity); try discriminate;
      intros n; try reflexivity; eexists; reflexivity.
Defined.

(** The same run in full: the disk is full, the backup of [board.canvas]
    cannot be copied back; the error names the backup, the backup is gone,
    and the canvas is left empty by the failed write. *)
Example edit_canvas_on_a_full_disk :
  let backup := "/vault/board.canvas.1700000000000.backup" in
  exists w',
    @editCanvas posix spec_utils disk_full_restore_fails "/vault" "board" empty_canvas_text None
      (fresh small_vault)
    = (thrown (McpError {|
         mcp_code := InternalError;
         mcp_message :=
           "Failed to rollback canvas changes after write error. Original error: "
           +:+ "ENOSPC: no space left on device" +:+ ". Rollback error: "
           +:+ "EIO: i/o error" +:+ ". Backup file preserved at " +:+ backup |}), w')
    /\ files (fresh small_vault) !! "/vault/board.canvas" = Some empty_canvas_text
    /\ files w' !! backup = None
    /\ files w' !! "/vault/board.canvas" = Some "".
Proof.
  eexists. split; [vm_compute; reflexivity|]. repeat split; vm_compute; reflexivity.
Qed.

(** C3, as amended: read-canvas applies no schema validation.  For every
    read-canvas call on an existing, readable file, if the content is
    valid JSON the call returns the parsed value as a successful result,
    whether or not it conforms to the canvas schema; it rejects the content
    only when it is not valid JSON, with the invalid-JSON error.  The file
    is left as it was. *)
Theorem read_canvas_returns_any_json :
  forall (node : NodeRuntime) (utils : RepoUtils) (env : environment)
         (vaultPath filename : string) (folder : option string) (w : world) (raw : string),
    let fullPath := target_path vaultPath folder (ensureCanvasExtension filename) in
    validateVaultPath vaultPath fullPath = None ->
    files w !! fullPath = Some raw ->
    works env (op_readFile fullPath) ->
    exists w',
      files w' = files w
      /\ (forall parsed,
            JSON_parse raw = inr parsed ->
            readCanvas env vaultPath filename folder w
            = (returned (read_result fullPath parsed), w'))
      /\ (forall msg,
            JSON_parse raw = inl msg ->
            readCanvas env vaultPath filename folder w
            = (thrown (McpError (createInvalidJsonError filename msg)), w')).
Proof.
  intros node utils env vaultPath filename folder w raw fullPath Hpath Hfile Hread.
  pose proof (CanvasToolFacts.read_canvas_runs env vaultPath filename folder w raw
                Hpath Hfile Hread) as Hrun.
  fold fullPath in Hrun. cbv zeta in Hrun.
  eexists. split; [|split].
  2:{ intros parsed Hparsed. rewrite Hrun, Hparsed. reflexivity. }
  - reflexivity.
  - intros msg Hmsg. rewrite Hrun, Hmsg. reflexivity.
Qed.

Lemma read_canvas_returns_any_json_witness :
  exists w',
    files w' = <["/vault/board.canvas" := not_a_canvas_text]> small_vault
    /\ (forall parsed,
          JsonText.parse not_a_canvas_text = inr parsed ->
          @readCanvas posix spec_utils (steady 0) "/vault" "board" None
            (fresh (<["/vault/board.canvas" := not_a_canvas_text]> small_vault))
          = (returned (read_result "/vault/board.canvas" parsed), w'))
    /\ (forall msg,
          JsonText.parse not_a_canvas_text = inl msg ->
          @readCanvas posix spec_utils (steady 0) "/vault" "board" None
            (fresh (<["/vault/board.canvas" := not_a_canvas_text]> small_vault))
          = (thrown (McpError (@createInvalidJsonError spec_utils "board" msg)), w')).
Proof.
  exact (read_canvas_returns_any_json posix spec_utils (steady 0) "/vault" "board" None
           (fresh (<["/vault/board.canvas" := not_a_canvas_text]> small_vault))
           not_a_canvas_text eq_refl eq_refl (fun n => eq_refl)).
Defined.

(** C3 as the specification words it does not hold: a canvas file that
    holds JSON which the schema rejects is read as a success. *)
Lemma read_canvas_does_not_validate :
  let stored := fresh (<["/vault/board.canvas" := not_a_canvas_text]> small_vault) in
  let parsed := JObject [("foo", JNumber (Finite 1 0))] in
  JsonText.parse not_a_canvas_text = inr parsed
  /\ Zod.safeParse has_scheme canvasSchema parsed
     = Zod.failure
         [ {| Zod.code := Zod.unrecognized_keys ["foo"];
              Zod.path := [];
              Zod.message := "Canvas object must only contain 'nodes' and 'edges' properties" |} ]
  /\ exists w',
       @readCanvas posix spec_utils (steady 0) "/vault" "board" None stored
       = (returned (read_result "/vault/board.canvas" parsed), w').
Proof.
  split; [vm_compute; reflexivity|]. split; [vm_compute; reflexivity|].
  eexists. vm_compute. reflexivity.
Qed.

(** C4, as amended: for every schema-valid JSON string [s], after
    create-canvas with content [s], or after edit-canvas replaced an
    existing canvas's content by [s], the canvas file holds [s] byte for
    byte (the validated string is persisted verbatim); reading the canvas
    back leaves it so, and what read-canvas yields is the value
    [JSON.parse] gives for [s], shown in the tool's response as
    [JSON.stringify] prints it with an indentation of two, not [s]
    itself. *)
Theorem canvas_is_persisted_verbatim :
  forall (node : NodeRuntime) (utils : RepoUtils) (env : environment)
         (vault vaultPath filename : string) (folder : option string) (s : string) (w : world),
    let canvasPath := target_path vaultPath folder (ensureCanvasExtension filename) in
    validateVaultPath vaultPath canvasPath = None ->
    content_refine s = true ->
    works env (op_readFile canvasPath) ->
    works env (op_writeFile canvasPath) ->
    (files w !! canvasPath = None ->
     works env (op_mkdir (path_dirname canvasPath)) ->
     exists r w',
       createCanvas env {| cc_vault := vault; cc_filename := filename;
                           cc_content := s; cc_folder := folder |} vaultPath w
       = (returned r, w')
       /\ files w' !! canvasPath = Some s
       /\ reads_back env vaultPath filename folder s w')
    /\ (forall original,
          let backupPath := backup_path canvasPath (clock env (length (log w))) in
          files w !! canvasPath = Some original ->
          works env (op_copyFile canvasPath backupPath) ->
          works env (op_unlink backupPath) ->
          exists r w',
            editCanvas env vaultPath filename s folder w = (returned r, w')
            /\ files w' !! canvasPath = Some s
            /\ reads_back env vaultPath filename folder s w').
Proof.
  intros node utils env vault vaultPath filename folder s w canvasPath Hpath Hs Hread Hwrite.
  split.
  - intros Hfree Hmkdir.
    pose proof (CanvasToolFacts.create_canvas_writes env
                  {| cc_vault := vault; cc_filename := filename;
                     cc_content := s; cc_folder := folder |} vaultPath w
                  Hpath Hs Hfree Hmkdir Hwrite) as Hrun.
    cbn [cc_content cc_folder cc_filename] in Hrun. fold canvasPath in Hrun.
    eexists _, _. split; [exact Hrun|].
    assert (<[canvasPath := s]> (files w) !! canvasPath = Some s) as Hheld
      by apply lookup_insert_eq.
    split; [exact Hheld|].
    apply CanvasToolFacts.reads_back_after; assumption.
  - intros original backupPath Hfile Hsnap Hunlink.
    destruct (CanvasToolFacts.edit_canvas_replaces env vaultPath filename s folder w original
                Hpath Hfile Hs Hsnap Hwrite Hunlink) as (w' & Hrun & Hheld & _).
    eexists _, w'. split; [exact Hrun|]. split; [exact Hheld|].
    apply CanvasToolFacts.reads_back_after; assumption.
Qed.

Lemma canvas_is_persisted_verbatim_witness :
  (exists r w',
      @createCanvas posix spec_utils (steady 0)
        {| cc_vault := "main"; cc_filename := "new";
           cc_content := empty_canvas_text; cc_folder := None |} "/vault" (fresh small_vault)
      = (returned r, w')
      /\ files w' !! "/vault/new.canvas" = Some empty_canvas_text
      /\ @reads_back posix spec_utils (steady 0) "/vault" "new" None empty_canvas_text w')
  /\ (exists r w',
        @editCanvas posix spec_utils (steady 0) "/vault" "board"
          empty_canvas_text None (fresh (<["/vault/board.canvas" := "{}"]> small_vault))
        = (returned r, w')
        /\ files w' !! "/vault/board.canvas" = Some empty_canvas_text
        /\ @reads_back posix spec_utils (steady 0) "/vault" "board" None
             empty_canvas_text w').
Proof.
  split.
  - apply (proj1 (canvas_is_persisted_verbatim posix spec_utils (steady 0) "main" "/vault" "new"
                    None empty_canvas_text (fresh small_vault)
                    eq_refl eq_refl (fun _ => eq_refl) (fun _ => eq_refl)));
      [vm_compute; reflexivity | intros n; reflexivity].
  - apply (proj2 (canvas_is_persisted_verbatim posix spec_utils (steady 0) "main" "/vault" "board"
                    None empty_canvas_text
                    (fresh (<["/vault/board.canvas" := "{}"]> small_vault))
                    eq_refl eq_refl (fun _ => eq_refl) (fun _ => eq_refl)) "{}");
      [vm_compute; reflexivity | intros n; reflexivity | intros n; reflexivity].
Defined.

(** C4 as the specification words it does not hold: the content that
    read-canvas yields for a canvas created from
    [{"nodes":[],"edges":[]}] is the re-serialized, indented text, which
    differs from the string that was written. *)
Lemma read_canvas_reserializes :
  let created :=
    snd (@createCanvas posix spec_utils (steady 0)
           {| cc_vault := "main"; cc_filename := "new";
              cc_content := empty_canvas_text; cc_folder := None |} "/vault" (fresh small_vault)) in
  let shown :=
    "{" +:+ nl +:+ "  " +:+ quoted "nodes" +:+ ": []," +:+ nl
    +:+ "  " +:+ quoted "edges" +:+ ": []" +:+ nl +:+ "}" in
  files created !! "/vault/new.canvas" = Some empty_canvas_text
  /\ (exists w',
        @readCanvasTool posix spec_utils (steady 0) "/vault" "new" None created
        = (returned ("Canvas read and parsed successfully" +:+ nl +:+ "Path: /vault/new.canvas"
                     +:+ nl +:+ nl +:+ "Canvas Content:" +:+ nl +:+ shown), w'))
  /\ shown <> empty_canvas_text.
Proof.
  split; [vm_compute; reflexivity|]. split.
  - eexists. vm_compute. reflexivity.
  - vm_compute. discriminate.
Qed.

(** C7: for every create-canvas call on a path inside the vault: a
    payload that fails validation is refused before anything touches the
    file system; a valid payload whose target already exists makes the
    call fail with the canvas-exists error, after the parent directory was
    created and before any write, the files being left as they were; when
    the directory cannot be created the call fails before the target is
    even looked up; and create never takes a snapshot or rolls back: all
    it ever does is create the directory, look the target up and write
    it, and no other file changes. *)
Theorem create_canvas_refuses_existing_target :
  forall (node : NodeRuntime) (utils : RepoUtils) (env : environment)
         (args : CreateCanvasInput) (vaultPath : string) (w : world),
    let canvasPath :=
      target_path vaultPath (cc_folder args) (ensureCanvasExtension (cc_filename args)) in
    let canvasDir := path_dirname canvasPath in
    validateVaultPath vaultPath canvasPath = None ->
    (content_refine (cc_content args) = false ->
     exists e, createCanvas env args vaultPath w = (thrown (McpError e), w))
    /\ (content_refine (cc_content args) = true ->
        works env (op_mkdir canvasDir) ->
        forall existing,
          files w !! canvasPath = Some existing ->
          createCanvas env args vaultPath w
          = (thrown (McpError (createCanvasExistsError canvasPath)),
             {| files := files w;
                log := ev_fs (op_access canvasPath) true
                       :: ev_fs (op_mkdir canvasDir) true :: log w |}))
    /\ (content_refine (cc_content args) = true ->
        breaks env (op_mkdir canvasDir) ->
        exists e,
          createCanvas env args vaultPath w
          = (thrown e, {| files := files w; log := ev_fs (op_mkdir canvasDir) false :: log w |}))
    /\ (exists steps,
          log (snd (createCanvas env args vaultPath w)) = steps ++ log w
          /\ Forall (create_step canvasDir canvasPath) steps
          /\ forall p, p <> canvasPath ->
                       files (snd (createCanvas env args vaultPath w)) !! p = files w !! p).
Proof.
  intros node utils env args vaultPath w canvasPath canvasDir Hpath.
  split; [|split; [|split]].
  - intros Hbad. now apply CanvasToolFacts.create_canvas_invalid.
  - intros Hgood Hmkdir existing Hthere.
    now apply (CanvasToolFacts.create_canvas_exists env args vaultPath w existing).
  - intros Hgood Hmkdir. now apply CanvasToolFacts.create_canvas_mkdir_fails.
  - apply CanvasToolFacts.create_canvas_steps.
Qed.

Lemma create_canvas_refuses_existing_target_witness :
  let args := {| cc_vault := "main"; cc_filename := "board";
                 cc_content := empty_canvas_text; cc_folder := None |} in
  @createCanvas posix spec_utils (steady 0) args "/vault"
    (fresh (<["/vault/board.canvas" := "{}"]> small_vault))
  = (thrown (McpError {| mcp_code := InvalidRequest;
                         mcp_message := "A canvas already exists at: /vault/board.canvas" |}),
     {| files := <["/vault/board.canvas" := "{}"]> small_vault;
        log := [ev_fs (op_access "/vault/board.canvas") true; ev_fs (op_mkdir "/vault") true] |}).
Proof.
  intros args.
  exact (proj1 (proj2 (create_canvas_refuses_existing_target posix spec_utils (steady 0) args
                         "/vault" (fresh (<["/vault/board.canvas" := "{}"]> small_vault)) eq_refl))
           eq_refl (fun n => eq_refl) "{}" eq_refl).
Defined.



(** C9, as amended: for every search-vault call on a vault path that
    normalizes, the call gathers results and errors, an error being the
    failure of a whole sub-search (filename or content search).  When at
    least one result and at least one error were gathered, the call
    succeeds and its message lists the errors as warnings; it fails hard
    exactly when no result was gathered alongside at least one error;
    without errors it succeeds.  A file that the content search cannot
    read is reported on the console and skipped: it adds no error, hence
    is not listed in the message, and the loop over the files never makes
    the search fail. *)
Theorem search_vault_warns_or_fails :
  forall (node : NodeRuntime) (utils : RepoUtils) (env : environment)
         (vaultPath normalized query : string) (options : SearchVault.SearchOptions) (w : world),
    normalizePath vaultPath = inr normalized ->
    exists rs errors w',
      SearchVault.gather env normalized query options w = (returned (rs, errors), w')
      /\ (rs <> [] -> errors <> [] ->
          SearchVault.searchVault env vaultPath query options w
          = (returned (SearchVault.warned rs errors), w'))
      /\ ((exists e w'', SearchVault.searchVault env vaultPath query options w = (thrown e, w''))
          <-> rs = [] /\ errors <> [])
      /\ (errors = [] ->
          SearchVault.searchVault env vaultPath query options w
          = (returned (SearchVault.completed rs), w'))
      /\ (errors <> [] ->
          (exists e w1,
              SearchVault.searchFilenames env normalized query options w = (thrown e, w1))
          \/ (exists w0 e w1,
                SearchVault.searchContent env normalized query options w0 = (thrown e, w1)))
      /\ (forall fs acc w0,
            exists found w1,
              SearchVault.search_files env normalized query options fs acc w0
              = (returned found, w1))
      /\ (forall f w0,
            breaks env (op_readFile f) ->
            exists line,
              SearchVault.search_file env normalized query options f w0
              = (returned [],
                 {| files := files w0;
                    log := ev_console_error line :: ev_fs (op_readFile f) false :: log w0 |})).
Proof.
  intros node utils env vaultPath normalized query options w Hn.
  destruct (SearchFacts.gather_returns env normalized query options w)
    as (rs & errors & w' & Hg).
  pose proof (SearchFacts.searchVault_concludes env vaultPath normalized query options w
                rs errors w' Hn Hg) as Hrun.
  exists rs, errors, w'. split; [exact Hg|].
  split; [|split; [|split; [|split; [|split]]]].
  - intros Hrs Herr. rewrite Hrun. destruct rs, errors; congruence.
  - rewrite Hrun. split.
    + intros (e & w'' & H). destruct rs, errors; try discriminate. split; congruence.
    + intros [-> Herr]. destruct errors; [congruence|]. eauto.
  - intros ->. rewrite Hrun. now destruct rs.
  - now apply (SearchFacts.gather_errors env normalized query options w rs errors w').
  - intros fs acc w0. apply SearchFacts.search_files_returns.
  - intros f w0 Hb. eexists. now apply SearchFacts.search_file_unreadable.
Qed.

Lemma search_vault_warns_or_fails_witness :
  exists rs errors w',
    @SearchVault.gather posix spec_utils first_listing_fails "/vault" "hello"
      (search_for "hello" SearchVault.both) (fresh notes_vault) = (returned (rs, errors), w')
    /\ errors = ["Filename search error: MCP error -32603: Failed to search filenames: "
                 +:+ "EMFILE: too many open files"]
    /\ length rs = 2%nat
    /\ @SearchVault.searchVault posix spec_utils first_listing_fails "/vault" "hello"
         (search_for "hello" SearchVault.both) (fresh notes_vault)
       = (returned (SearchVault.warned rs errors), w').
Proof.
  destruct (search_vault_warns_or_fails posix spec_utils first_listing_fails "/vault" "/vault"
              "hello" (search_for "hello" SearchVault.both) (fresh notes_vault) eq_refl)
    as (rs & errors & w' & Hg & Hwarn & _).
  exists rs, errors, w'. split; [exact Hg|].
  vm_compute in Hg. injection Hg as Hrs Herrors Hw'.
  split; [now subst errors|]. split; [now subst rs|].
  apply Hwarn; [subst rs | subst errors]; discriminate.
Defined.

(** C9 as the specification words it does not hold: a note cannot be
    read while another note yields a result; the call succeeds, and its
    message reports plain success without listing the failure. *)
Lemma unreadable_file_is_not_a_warning :
  exists r w',
    @SearchVault.searchVault posix spec_utils unreadable_note "/vault" "hello"
      (search_for "hello" SearchVault.content) (fresh notes_vault) = (returned r, w')
    /\ In (ev_fs (op_readFile "/vault/a.md") false) (log w')
    /\ SearchVault.results r <> []
    /\ SearchVault.message r = "Search completed successfully".
Proof.
  eexists _, _. split; [vm_compute; reflexivity|].
  split; [|split].
  - cbn [log]. do 3 right. left. reflexivity.
  - discriminate.
  - reflexivity.
Qed.



Example list_files_sample :
  @ListFiles.listVaultFiles posix "/vault" (Some sample_tree) = ["a.md"; "b.md"; "sub/a.md"].
Proof. vm_compute. reflexivity. Qed.

(** * Further properties of the code *)

(** ** The canvas schema *)

(** X1: the canvas schema accepts a parsed JSON value exactly when it is
    a document of the data model: the schema accepts nothing else. *)
Theorem canvas_schema_accepts_exactly_the_model :
  forall (valid_url : string -> bool) (doc : value),
    Zod.safeParse valid_url canvasSchema doc = Zod.success
    <-> CanvasSpec.is_canvas valid_url doc = true.
Proof.
  intros valid_url doc. rewrite StatusFacts.safeParse_success. split.
  - apply CanvasConverse.only_canvas.
  - apply CanvasFacts.accept_canvas.
Qed.

(** X2: a canvas with nodes and edges is accepted exactly when each node
    is accepted by the node schema and each edge by the edge schema, one
    by one: nothing relates an edge to the nodes it names, or one id to
    another. *)
Theorem canvas_is_checked_element_by_element :
  forall (valid_url : string -> bool) (nodes edges : list value),
    Zod.safeParse valid_url canvasSchema
      (JObject [("nodes", JArray nodes); ("edges", JArray edges)]) = Zod.success
    <-> Forall (fun n => Zod.safeParse valid_url nodeSchema n = Zod.success) nodes
        /\ Forall (fun e => Zod.safeParse valid_url edgeSchema e = Zod.success) edges.
Proof. intros valid_url nodes edges. apply SchemaEdges.canvas_elementwise. Qed.

(** X3: a node whose [type] is missing, is not a string, or is none of
    text, file, link and group is refused with one issue, at the node's
    [type], that lists the four; nothing else of the node is looked at. *)
Theorem node_of_unknown_type_is_refused :
  forall (valid_url : string -> bool) (p : list Zod.path_seg) (members : list (string * value)),
    (forall t, get "type" members = Some (JString t) ->
               ~ In t ["text"; "file"; "link"; "group"]) ->
    Zod.parse valid_url nodeSchema p (Some (JObject members))
    = (Zod.aborted,
       [{| Zod.code := Zod.invalid_union_discriminator ["text"; "file"; "link"; "group"];
           Zod.path := p ++ [Zod.PKey "type"];
           Zod.message :=
             "Invalid discriminator value. Expected 'text' | 'file' | 'link' | 'group'" |}]).
Proof. intros valid_url p members. apply SchemaEdges.node_unknown_type. Qed.

Lemma node_of_unknown_type_is_refused_witness :
  Zod.parse has_scheme nodeSchema [Zod.PKey "nodes"; Zod.PIndex 0] (Some (JObject odd_node))
  = (Zod.aborted,
     [{| Zod.code := Zod.invalid_union_discriminator ["text"; "file"; "link"; "group"];
         Zod.path := [Zod.PKey "nodes"; Zod.PIndex 0; Zod.PKey "type"];
         Zod.message :=
           "Invalid discriminator value. Expected 'text' | 'file' | 'link' | 'group'" |}]).
Proof.
  apply (node_of_unknown_type_is_refused has_scheme [Zod.PKey "nodes"; Zod.PIndex 0] odd_node).
  intros t Ht. vm_compute in Ht. injection Ht as <-. simpl. intuition discriminate.
Defined.

(** X4: a node of a known type that lacks [id], [x], [y], [width] or
    [height], or the field its type asks for ([text], [file], [url]), and
    an edge that lacks [id], [fromNode] or [toNode], is refused, and among
    the issues is one at the path of the missing field with the message
    [Required]. *)
Theorem missing_required_field_is_reported :
  forall (valid_url : string -> bool) (p : list Zod.path_seg) (members : list (string * value))
         (k : string),
    get k members = None ->
    (forall t expected,
        get "type" members = Some (JString t) ->
        In t ["text"; "file"; "link"; "group"] ->
        In (k, expected) [("id", "string"); ("x", "number"); ("y", "number");
                          ("width", "number"); ("height", "number")]
        \/ In (t, k, expected) [("text", "text", "string"); ("file", "file", "string");
                                ("link", "url", "string")] ->
        fst (Zod.parse valid_url nodeSchema p (Some (JObject members))) = Zod.aborted
        /\ In (required_issue expected p k)
              (snd (Zod.parse valid_url nodeSchema p (Some (JObject members)))))
    /\ (In k ["id"; "fromNode"; "toNode"] ->
        fst (Zod.parse valid_url edgeSchema p (Some (JObject members))) = Zod.aborted
        /\ In (required_issue "string" p k)
              (snd (Zod.parse valid_url edgeSchema p (Some (JObject members))))).
Proof.
  intros valid_url p members k Hmissing. split.
  - intros t expected Ht Hknown Hk.
    exact (SchemaEdges.node_missing_field valid_url p members t k expected Ht Hknown Hk Hmissing).
  - intros Hk. exact (SchemaEdges.edge_missing_field valid_url p members k Hk Hmissing).
Qed.

Lemma missing_required_field_is_reported_witness :
  get "id" nameless_node = None
  /\ Zod.safeParse has_scheme canvasSchema (JObject [("nodes", JArray [JObject nameless_node])])
     = Zod.failure [required_issue "string" [Zod.PKey "nodes"; Zod.PIndex 0] "id"]
  /\ In (required_issue "string" [Zod.PKey "nodes"; Zod.PIndex 0] "id")
        (snd (Zod.parse has_scheme nodeSchema [Zod.PKey "nodes"; Zod.PIndex 0]
                (Some (JObject nameless_node)))).
Proof.
  split; [reflexivity|]. split; [vm_compute; reflexivity|].
  apply (proj1 (missing_required_field_is_reported has_scheme [Zod.PKey "nodes"; Zod.PIndex 0]
                  nameless_node "id" eq_refl) "text" "string" eq_refl).
  - simpl. tauto.
  - left. simpl. tauto.
Defined.

(** X5: when the canvas schema refuses a document it raises at least one
    issue, and every issue points at the document itself, at its [nodes]
    or [edges], or into a node or an edge that the document has. *)
Theorem every_rejection_is_located :
  forall (valid_url : string -> bool) (doc : value) (issues : list Zod.issue),
    Zod.safeParse valid_url canvasSchema doc = Zod.failure issues ->
    issues <> [] /\ Forall (located doc) issues.
Proof.
  intros valid_url doc issues Hfail. split.
  - exact (SchemaEdges.safeParse_failure valid_url canvasSchema doc issues Hfail).
  - unfold Zod.safeParse in Hfail.
    pose proof (SchemaEdges.canvas_issues_located valid_url doc) as Hall.
    destruct (fst (Zod.parse valid_url canvasSchema [] (Some doc)));
      [discriminate | |]; injection Hfail as <-; exact Hall.
Qed.

Lemma every_rejection_is_located_witness :
  let doc := JObject [("nodes", JArray [JObject nameless_node])] in
  let issues := [required_issue "string" [Zod.PKey "nodes"; Zod.PIndex 0] "id"] in
  issues <> [] /\ Forall (located doc) issues.
Proof.
  intros doc issues.
  apply (every_rejection_is_located has_scheme doc issues). vm_compute. reflexivity.
Defined.

(** ** create-canvas and edit-canvas *)

(** X6: what create-canvas answers to a content it refuses.  For a
    content that is not JSON it is the invalid-JSON error for the file
    name with [.canvas], carrying the parser's message; for a document
    with an unknown key it is an InvalidParams error whose message gives
    the path of the object that holds the key and zod's message.  In both
    cases the call has touched nothing. *)
Theorem create_canvas_explains_a_rejection :
  forall (node : NodeRuntime) (utils : RepoUtils) (env : environment)
         (args : CreateCanvasInput) (vaultPath : string) (w : world),
    let sanitizedFilename := ensureCanvasExtension (cc_filename args) in
    let canvasPath := target_path vaultPath (cc_folder args) sanitizedFilename in
    validateVaultPath vaultPath canvasPath = None ->
    (forall msg,
        JSON_parse (cc_content args) = inl msg ->
        createCanvas env args vaultPath w
        = (thrown (McpError (createInvalidJsonError sanitizedFilename msg)), w))
    /\ (forall doc holder k doc',
          JSON_parse (cc_content args) = inr doc' ->
          CanvasSpec.is_canvas URL_canParse doc = true ->
          CanvasSpec.adds_unknown_key doc holder k doc' ->
          createCanvas env args vaultPath w
          = (thrown (McpError {|
               mcp_code := InvalidParams;
               mcp_message :=
                 "Invalid canvas JSON structure: " +:+ path_text holder +:+ ": "
                 +:+ match holder with
                     | [] => "Canvas object must only contain 'nodes' and 'edges' properties"
                     | _ => "Unrecognized key(s) in object: '" +:+ k +:+ "'"
                     end |}), w)).
Proof.
  intros node utils env args vaultPath w sanitizedFilename canvasPath Hpath. split.
  - intros msg Hjson.
    apply EdgeFacts.create_canvas_content_error; [exact Hpath|].
    now apply EdgeFacts.parse_content_not_json.
  - intros doc holder k doc' Hjson Hdoc Hadd.
    apply EdgeFacts.create_canvas_content_error; [exact Hpath|].
    now apply (EdgeFacts.parse_content_unknown_key _ _ _ doc holder k doc').
Qed.

Lemma create_canvas_explains_a_rejection_witness :
  @createCanvas posix spec_utils (steady 0)
    {| cc_vault := "main"; cc_filename := "new";
       cc_content := "{" +:+ quoted "nodes" +:+ ":[]," +:+ quoted "groups" +:+ ":[]}";
       cc_folder := None |} "/vault" (fresh small_vault)
  = (thrown (McpError {|
       mcp_code := InvalidParams;
       mcp_message :=
         "Invalid canvas JSON structure: : "
         +:+ "Canvas object must only contain 'nodes' and 'edges' properties" |}),
     fresh small_vault).
Proof.
  refine (proj2 (create_canvas_explains_a_rejection posix spec_utils (steady 0)
                   {| cc_vault := "main"; cc_filename := "new";
                      cc_content := "{" +:+ quoted "nodes" +:+ ":[]," +:+ quoted "groups" +:+ ":[]}";
                      cc_folder := None |} "/vault" (fresh small_vault) eq_refl)
            (JObject [("nodes", JArray [])]) [] "groups"
            (JObject [("nodes", JArray []); ("groups", JArray [])]) _ _ _).
  - vm_compute. reflexivity.
  - vm_compute. reflexivity.
  - apply CanvasSpec.add_top with (v := JArray []); [reflexivity|].
    exists [("nodes", JArray [])], []. split; reflexivity.
Defined.

(** X7: edit-canvas looks before it touches anything.  When the canvas
    does not exist the call fails with the not-found error, when it exists
    and the content is refused the call fails with the error of the
    content check; in both cases no backup was taken, all the call did was
    read the clock and look the target and the backup path up, and the
    files are as they were.  (This supposes no file at the backup path.) *)
Theorem edit_canvas_checks_before_it_touches :
  forall (node : NodeRuntime) (utils : RepoUtils) (env : environment)
         (vaultPath filename content : string) (folder : option string) (w : world),
    let fullPath := target_path vaultPath folder (ensureCanvasExtension filename) in
    let timestamp := clock env (length (log w)) in
    let backupPath := backup_path fullPath timestamp in
    validateVaultPath vaultPath fullPath = None ->
    files w !! backupPath = None ->
    (files w !! fullPath = None ->
     editCanvas env vaultPath filename content folder w
     = (thrown (McpError (createCanvasNotFoundError (ensureCanvasExtension filename))),
        {| files := files w;
           log := ev_fs (op_access backupPath) false :: ev_fs (op_access fullPath) false
                  :: ev_now timestamp :: log w |}))
    /\ (forall original,
          files w !! fullPath = Some original ->
          content_refine content = false ->
          exists e,
            editCanvas env vaultPath filename content folder w
            = (thrown (McpError e),
               {| files := files w;
                  log := ev_fs (op_access backupPath) false :: ev_fs (op_access fullPath) true
                         :: ev_now timestamp :: log w |})).
Proof.
  intros node utils env vaultPath filename content folder w fullPath timestamp backupPath
         Hpath Hbackup. split.
  - intros Hfile. now apply EdgeFacts.edit_canvas_missing.
  - intros original Hfile Hcontent.
    now apply (EdgeFacts.edit_canvas_invalid env vaultPath filename content folder w original).
Qed.

Lemma edit_canvas_checks_before_it_touches_witness :
  @editCanvas posix spec_utils (steady 5) "/vault" "absent" empty_canvas_text None
    (fresh small_vault)
  = (thrown (McpError {| mcp_code := InvalidRequest;
                         mcp_message := "Canvas not found: absent.canvas" |}),
     {| files := small_vault;
        log := [ev_fs (op_access "/vault/absent.canvas.5.backup") false;
                ev_fs (op_access "/vault/absent.canvas") false;
                ev_now 5] |}).
Proof.
  exact (proj1 (edit_canvas_checks_before_it_touches posix spec_utils (steady 5) "/vault"
                  "absent" empty_canvas_text None (fresh small_vault) eq_refl eq_refl) eq_refl).
Defined.

(** X8: whatever fails, edit-canvas changes no file other than the canvas
    and its backup. *)
Theorem edit_canvas_touches_only_target_and_backup :
  forall (node : NodeRuntime) (utils : RepoUtils) (env : environment)
         (vaultPath filename content : string) (folder : option string) (w : world) (p : string),
    let fullPath := target_path vaultPath folder (ensureCanvasExtension filename) in
    let backupPath := backup_path fullPath (clock env (length (log w))) in
    p <> fullPath -> p <> backupPath ->
    files (snd (editCanvas env vaultPath filename content folder w)) !! p = files w !! p.
Proof.
  intros node utils env vaultPath filename content folder w p.
  apply ToolFrames.editCanvas_frame.
Qed.

Lemma edit_canvas_touches_only_target_and_backup_witness :
  files (snd (@editCanvas posix spec_utils disk_full_restore_fails "/vault" "board"
                empty_canvas_text None (fresh small_vault))) !! "/vault/daily.md"
  = Some "# Today".
Proof.
  apply (edit_canvas_touches_only_target_and_backup posix spec_utils disk_full_restore_fails
           "/vault" "board" empty_canvas_text None (fresh small_vault) "/vault/daily.md");
    vm_compute; discriminate.
Defined.

(** X9: a write that fails in create-canvas is not cleaned up: the call
    fails with the file-system error for [create canvas], and what the
    failed write left at the target stays there. *)
Theorem create_canvas_leaves_a_failed_write :
  forall (node : NodeRuntime) (utils : RepoUtils) (env : environment)
         (args : CreateCanvasInput) (vaultPath : string) (w : world),
    let canvasPath :=
      target_path vaultPath (cc_folder args) (ensureCanvasExtension (cc_filename args)) in
    let canvasDir := path_dirname canvasPath in
    let f := the_fault env (2 + length (log w)) (op_writeFile canvasPath) in
    validateVaultPath vaultPath canvasPath = None ->
    content_refine (cc_content args) = true ->
    files w !! canvasPath = None ->
    works env (op_mkdir canvasDir) ->
    breaks env (op_writeFile canvasPath) ->
    createCanvas env args vaultPath w
    = (thrown (McpError (handleFsError (SystemError (fault_message f)) "create canvas")),
       {| files := damaged f canvasPath (files w);
          log := ev_fs (op_writeFile canvasPath) false
                 :: ev_fs (op_access canvasPath) false
                 :: ev_fs (op_mkdir canvasDir) true :: log w |}).
Proof.
  intros node utils env args vaultPath w. apply EdgeFacts.create_canvas_write_fails.
Qed.

Lemma create_canvas_leaves_a_failed_write_witness :
  let args := {| cc_vault := "main"; cc_filename := "new";
                 cc_content := empty_canvas_text; cc_folder := None |} in
  @createCanvas posix spec_utils disk_full args "/vault" (fresh small_vault)
  = (thrown (McpError {| mcp_code := InternalError;
                         mcp_message := "Failed to create canvas: "
                                        +:+ "ENOSPC: no space left on device" |}),
     {| files := <["/vault/new.canvas" := ""]> small_vault;
        log := [ev_fs (op_writeFile "/vault/new.canvas") false;
                ev_fs (op_access "/vault/new.canvas") false;
                ev_fs (op_mkdir "/vault") true] |}).
Proof.
  intros args.
  exact (create_canvas_leaves_a_failed_write posix spec_utils disk_full args "/vault"
           (fresh small_vault) eq_refl eq_refl eq_refl (fun n => eq_refl)
           (fun n => ex_intro _ _ eq_refl)).
Defined.

(** X10: creating the same canvas twice: after a create that succeeded, a
    second create of the same name fails with the canvas-exists error,
    whatever valid content it brings, and the canvas keeps the content of
    the first. *)
Theorem create_canvas_twice :
  forall (node : NodeRuntime) (utils : RepoUtils) (env : environment)
         (vault filename first second : string) (folder : option string)
         (vaultPath : string) (w : world),
    let canvasPath := target_path vaultPath folder (ensureCanvasExtension filename) in
    validateVaultPath vaultPath canvasPath = None ->
    content_refine first = true ->
    content_refine second = true ->
    files w !! canvasPath = None ->
    works env (op_mkdir (path_dirname canvasPath)) ->
    works env (op_writeFile canvasPath) ->
    exists r w1 w2,
      createCanvas env {| cc_vault := vault; cc_filename := filename;
                          cc_content := first; cc_folder := folder |} vaultPath w
      = (returned r, w1)
      /\ createCanvas env {| cc_vault := vault; cc_filename := filename;
                             cc_content := second; cc_folder := folder |} vaultPath w1
         = (thrown (McpError (createCanvasExistsError canvasPath)), w2)
      /\ files w2 !! canvasPath = Some first.
Proof.
  intros node utils env vault filename first second folder vaultPath w canvasPath
         Hpath Hfirst Hsecond Hfree Hmkdir Hwrite.
  pose proof (CanvasToolFacts.create_canvas_writes env
                {| cc_vault := vault; cc_filename := filename;
                   cc_content := first; cc_folder := folder |} vaultPath w
                Hpath Hfirst Hfree Hmkdir Hwrite) as Hrun1.
  cbn [cc_content cc_folder cc_filename] in Hrun1. fold canvasPath in Hrun1.
  eexists _, _, _. split; [exact Hrun1|].
  split.
  - apply (CanvasToolFacts.create_canvas_exists env
             {| cc_vault := vault; cc_filename := filename;
                cc_content := second; cc_folder := folder |} vaultPath _ first
             Hpath Hsecond Hmkdir).
    cbn [files cc_folder cc_filename]. apply lookup_insert_eq.
  - cbn [files]. apply lookup_insert_eq.
Qed.

Lemma create_canvas_twice_witness :
  exists r w1 w2,
    @createCanvas posix spec_utils (steady 0)
      {| cc_vault := "main"; cc_filename := "new";
         cc_content := empty_canvas_text; cc_folder := None |} "/vault" (fresh small_vault)
    = (returned r, w1)
    /\ @createCanvas posix spec_utils (steady 0)
         {| cc_vault := "main"; cc_filename := "new";
            cc_content := "{}"; cc_folder := None |} "/vault" w1
       = (thrown (McpError {| mcp_code := InvalidRequest;
                              mcp_message := "A canvas already exists at: /vault/new.canvas" |}),
          w2)
    /\ files w2 !! "/vault/new.canvas" = Some empty_canvas_text.
Proof.
  exact (create_canvas_twice posix spec_utils (steady 0) "main" "new" empty_canvas_text "{}"
           None "/vault" (fresh small_vault) eq_refl eq_refl eq_refl eq_refl
           (fun n => eq_refl) (fun n => eq_refl)).
Defined.

(** ** read-canvas *)

(** X11: read-canvas only reads.  Whatever fails, it leaves every file as
    it was; a canvas that does not exist gives the not-found error for the
    name as it was asked for, without a read; a canvas that cannot be read
    gives the file-system error for [read canvas]. *)
Theorem read_canvas_only_reads :
  forall (node : NodeRuntime) (utils : RepoUtils) (env : environment)
         (vaultPath filename : string) (folder : option string) (w : world),
    let fullPath := target_path vaultPath folder (ensureCanvasExtension filename) in
    files (snd (readCanvas env vaultPath filename folder w)) = files w
    /\ (validateVaultPath vaultPath fullPath = None ->
        files w !! fullPath = None ->
        readCanvas env vaultPath filename folder w
        = (thrown (McpError (createCanvasNotFoundError filename)),
           {| files := files w; log := ev_fs (op_access fullPath) false :: log w |}))
    /\ (forall raw,
          validateVaultPath vaultPath fullPath = None ->
          files w !! fullPath = Some raw ->
          breaks env (op_readFile fullPath) ->
          readCanvas env vaultPath filename folder w
          = (thrown (McpError
                       (handleFsError
                          (SystemError (fault_message (the_fault env (S (length (log w)))
                                                         (op_readFile fullPath))))
                          "read canvas")),
             {| files := files w;
                log := ev_fs (op_readFile fullPath) false
                       :: ev_fs (op_access fullPath) true :: log w |})).
Proof.
  intros node utils env vaultPath filename folder w fullPath. split; [|split].
  - apply map_eq. intros p.
    apply (ToolFrames.keeps_readCanvas env vaultPath filename folder w p). simpl. tauto.
  - intros Hpath Hfile. now apply EdgeFacts.read_canvas_missing.
  - intros raw Hpath Hfile Hread.
    now apply (EdgeFacts.read_canvas_unreadable env vaultPath filename folder w raw).
Qed.

Lemma read_canvas_only_reads_witness :
  @readCanvas posix spec_utils (steady 0) "/vault" "absent" None (fresh small_vault)
  = (thrown (McpError {| mcp_code := InvalidRequest; mcp_message := "Canvas not found: absent" |}),
     {| files := small_vault; log := [ev_fs (op_access "/vault/absent.canvas") false] |})
  /\ @readCanvas posix spec_utils reading_fails "/vault" "board" None (fresh small_vault)
     = (thrown (McpError {| mcp_code := InternalError;
                            mcp_message := "Failed to read canvas: EACCES: permission denied" |}),
        {| files := small_vault;
           log := [ev_fs (op_readFile "/vault/board.canvas") false;
                   ev_fs (op_access "/vault/board.canvas") true] |}).
Proof.
  split.
  - exact (proj1 (proj2 (read_canvas_only_reads posix spec_utils (steady 0) "/vault" "absent"
                           None (fresh small_vault))) eq_refl eq_refl).
  - exact (proj2 (proj2 (read_canvas_only_reads posix spec_utils reading_fails "/vault" "board"
                           None (fresh small_vault))) empty_canvas_text eq_refl eq_refl
             (fun n => ex_intro _ _ eq_refl)).
Defined.

(** ** edit-note *)

(** X12: whatever fails, and whatever the operation, edit-note changes no
    file other than the note and its backup. *)
Theorem edit_note_touches_only_target_and_backup :
  forall (node : NodeRuntime) (utils : RepoUtils) (env : environment)
         (vaultPath filename : string) (operation : Edit.EditOperation)
         (content folder : option string) (w : world) (p : string),
    let fullPath := target_path vaultPath folder (ensureMarkdownExtension filename) in
    let backupPath := backup_path fullPath (clock env (length (log w))) in
    p <> fullPath -> p <> backupPath ->
    files (snd (editNote env vaultPath filename operation content folder w)) !! p
    = files w !! p.
Proof.
  intros node utils env vaultPath filename operation content folder w p.
  apply ToolFrames.editNote_frame.
Qed.

Lemma edit_note_touches_only_target_and_backup_witness :
  files (snd (@editNote posix spec_utils disk_full_restore_fails "/vault" "daily" Edit.replace
                (Some "new") None (fresh small_vault))) !! "/vault/board.canvas"
  = Some empty_canvas_text.
Proof.
  apply (edit_note_touches_only_target_and_backup posix spec_utils disk_full_restore_fails
           "/vault" "daily" Edit.replace (Some "new") None (fresh small_vault)
           "/vault/board.canvas");
    vm_compute; discriminate.
Defined.

(** X13: for each of the four operations, edit-note on a note that does
    not exist fails with the not-found error for the name as it was asked
    for, and leaves the files as they were.  (This supposes no file at the
    backup path.) *)
Theorem edit_note_on_a_missing_note :
  forall (node : NodeRuntime) (utils : RepoUtils) (env : environment)
         (vaultPath filename : string) (operation : Edit.EditOperation)
         (content folder : option string) (w : world),
    let fullPath := target_path vaultPath folder (ensureMarkdownExtension filename) in
    let backupPath := backup_path fullPath (clock env (length (log w))) in
    validateVaultPath vaultPath fullPath = None ->
    files w !! fullPath = None ->
    files w !! backupPath = None ->
    exists w',
      editNote env vaultPath filename operation content folder w
      = (thrown (McpError (createNoteNotFoundError filename)), w')
      /\ files w' = files w.
Proof.
  intros node utils env vaultPath filename operation content folder w.
  apply EdgeFacts.edit_note_missing.
Qed.

Lemma edit_note_on_a_missing_note_witness :
  exists w',
    @editNote posix spec_utils (steady 0) "/vault" "absent" Edit.append (Some "more") None
      (fresh small_vault)
    = (thrown (McpError {| mcp_code := InvalidRequest; mcp_message := "Note not found: absent" |}),
       w')
    /\ files w' = small_vault.
Proof.
  exact (edit_note_on_a_missing_note posix spec_utils (steady 0) "/vault" "absent" Edit.append
           (Some "more") None (fresh small_vault) eq_refl eq_refl eq_refl).
Defined.

(** X14: the delete of edit-note removes the note and returns while the
    backup it took is still on disk with the note's text: the removal of
    the backup is only scheduled, five seconds later. *)
Theorem edit_note_delete_keeps_a_backup :
  forall (node : NodeRuntime) (utils : RepoUtils) (env : environment)
         (vaultPath filename : string) (content folder : option string) (w : world)
         (original : string),
    let fullPath := target_path vaultPath folder (ensureMarkdownExtension filename) in
    let timestamp := clock env (length (log w)) in
    let backupPath := backup_path fullPath timestamp in
    validateVaultPath vaultPath fullPath = None ->
    files w !! fullPath = Some original ->
    works env (op_copyFile fullPath backupPath) ->
    works env (op_unlink fullPath) ->
    exists w',
      editNote env vaultPath filename Edit.delete content folder w
      = (returned {| success := true; message := "Note deleted successfully";
                     path := fullPath; operation := "delete" |}, w')
      /\ files w' !! fullPath = None
      /\ files w' !! backupPath = Some original
      /\ log w' = ev_setTimeout 5000 backupPath
                  :: ev_fs (op_unlink fullPath) true
                  :: ev_fs (op_copyFile fullPath backupPath) true
                  :: ev_fs (op_access fullPath) true
                  :: ev_now timestamp :: log w.
Proof.
  intros node utils env vaultPath filename content folder w original fullPath timestamp
         backupPath Hpath Hfile Hsnap Hunlink.
  eexists. split.
  - exact (EdgeFacts.edit_note_deletes env vaultPath filename content folder w original
             Hpath Hfile Hsnap Hunlink).
  - cbn [files log]. split; [apply lookup_delete_eq|]. split; [|reflexivity].
    rewrite lookup_delete_ne by (apply not_eq_sym, backup_path_ne).
    apply lookup_insert_eq.
Qed.

Lemma edit_note_delete_keeps_a_backup_witness :
  exists w',
    @editNote posix spec_utils (steady 7) "/vault" "daily" Edit.delete None None
      (fresh small_vault)
    = (returned {| success := true; message := "Note deleted successfully";
                   path := "/vault/daily.md"; operation := "delete" |}, w')
    /\ files w' !! "/vault/daily.md" = None
    /\ files w' !! "/vault/daily.md.7.backup" = Some "# Today"
    /\ log w' = [ev_setTimeout 5000 "/vault/daily.md.7.backup";
                 ev_fs (op_unlink "/vault/daily.md") true;
                 ev_fs (op_copyFile "/vault/daily.md" "/vault/daily.md.7.backup") true;
                 ev_fs (op_access "/vault/daily.md") true;
                 ev_now 7].
Proof.
  exact (edit_note_delete_keeps_a_backup posix spec_utils (steady 7) "/vault" "daily" None None
           (fresh small_vault) "# Today" eq_refl eq_refl (fun n => eq_refl) (fun n => eq_refl)).
Defined.

(** X15: an append, prepend or replace that goes through leaves the new
    text in the note and no backup: for append the old text trimmed, a
    blank line when that is not empty, then the content; for prepend the
    same the other way round; for replace the content alone. *)
Theorem edit_note_writes_the_new_text :
  forall (node : NodeRuntime) (utils : RepoUtils) (env : environment)
         (vaultPath filename : string) (operation : Edit.EditOperation)
         (content : string) (folder : option string) (w : world) (original : string),
    let fullPath := target_path vaultPath folder (ensureMarkdownExtension filename) in
    let backupPath := backup_path fullPath (clock env (length (log w))) in
    let separator := if String.eqb (trim original) "" then "" else nl +:+ nl in
    let newContent :=
      match operation with
      | Edit.append => trim original +:+ separator +:+ content
      | Edit.prepend => content +:+ separator +:+ trim original
      | _ => content
      end in
    operation <> Edit.delete ->
    validateVaultPath vaultPath fullPath = None ->
    files w !! fullPath = Some original ->
    works env (op_copyFile fullPath backupPath) ->
    works env (op_readFile fullPath) ->
    works env (op_writeFile fullPath) ->
    works env (op_unlink backupPath) ->
    exists w',
      editNote env vaultPath filename operation (Some content) folder w
      = (returned {| success := true;
                     message := "Note " +:+ Edit.text operation +:+ "ed successfully";
                     path := fullPath; operation := "edit" |}, w')
      /\ files w' !! fullPath = Some newContent
      /\ files w' !! backupPath = None.
Proof.
  intros node utils env vaultPath filename operation content folder w original fullPath
         backupPath separator newContent Hop Hpath Hfile Hsnap Hread Hwrite Hunlink.
  apply (EdgeFacts.edit_note_writes env vaultPath filename operation (Some content) folder w
           original newContent Hop Hpath Hfile); try assumption.
  destruct operation; reflexivity.
Qed.

Lemma edit_note_writes_the_new_text_witness :
  exists w',
    @editNote posix spec_utils (steady 0) "/vault" "daily" Edit.append (Some "more") None
      (fresh small_vault)
    = (returned {| success := true; message := "Note appended successfully";
                   path := "/vault/daily.md"; operation := "edit" |}, w')
    /\ files w' !! "/vault/daily.md" = Some ("# Today" +:+ nl +:+ nl +:+ "more")
    /\ files w' !! "/vault/daily.md.0.backup" = None.
Proof.
  exact (edit_note_writes_the_new_text posix spec_utils (steady 0) "/vault" "daily" Edit.append
           "more" None (fresh small_vault) "# Today"
           ltac:(discriminate) eq_refl eq_refl
           (fun n => eq_refl) (fun n => eq_refl) (fun n => eq_refl) (fun n => eq_refl)).
Defined.

(** ** delete-canvas *)

(** X16: delete-canvas with [permanent].  A canvas that does not exist
    gives the not-found error for its vault-relative path, and nothing is
    touched (with or without [permanent]); one that exists is removed and
    nothing is put in the trash; when the removal fails the call fails
    with the file-system error for [delete canvas] and the canvas stays. *)
Theorem delete_canvas_permanently :
  forall (node : NodeRuntime) (utils : RepoUtils) (env : environment)
         (vaultPath canvasRelativePath : string) (reason : option string) (w : world),
    let fullPath := path_join [vaultPath; canvasRelativePath] in
    let f := the_fault env (1 + length (log w)) (op_unlink fullPath) in
    validateVaultPath vaultPath fullPath = None ->
    (forall permanent,
        files w !! fullPath = None ->
        deleteCanvas env vaultPath canvasRelativePath permanent reason w
        = (thrown (McpError (createCanvasNotFoundError canvasRelativePath)),
           {| files := files w; log := ev_fs (op_access fullPath) false :: log w |}))
    /\ (forall original,
          files w !! fullPath = Some original ->
          works env (op_unlink fullPath) ->
          deleteCanvas env vaultPath canvasRelativePath true reason w
          = (returned ("Permanently deleted canvas " +:+ dquote +:+ canvasRelativePath
                       +:+ dquote),
             {| files := base.delete fullPath (files w);
                log := ev_fs (op_unlink fullPath) true
                       :: ev_fs (op_access fullPath) true :: log w |}))
    /\ (forall original,
          files w !! fullPath = Some original ->
          breaks env (op_unlink fullPath) ->
          deleteCanvas env vaultPath canvasRelativePath true reason w
          = (thrown (McpError (handleFsError (SystemError (fault_message f)) "delete canvas")),
             {| files := files w;
                log := ev_fs (op_unlink fullPath) false
                       :: ev_fs (op_access fullPath) true :: log w |})).
Proof.
  intros node utils env vaultPath canvasRelativePath reason w fullPath f Hpath.
  split; [|split].
  - intros permanent Hfile. now apply EdgeFacts.delete_canvas_missing.
  - intros original Hfile Hunlink.
    now apply (EdgeFacts.delete_canvas_unlinks env vaultPath canvasRelativePath reason w
                 original).
  - intros original Hfile Hunlink.
    now apply (EdgeFacts.delete_canvas_unlink_fails env vaultPath canvasRelativePath reason w
                 original).
Qed.

Lemma delete_canvas_permanently_witness :
  @deleteCanvas posix spec_utils (steady 0) "/vault" "board.canvas" true None (fresh small_vault)
  = (returned ("Permanently deleted canvas " +:+ quoted "board.canvas"),
     {| files := base.delete "/vault/board.canvas" small_vault;
        log := [ev_fs (op_unlink "/vault/board.canvas") true;
                ev_fs (op_access "/vault/board.canvas") true] |})
  /\ @deleteCanvas posix spec_utils removal_fails "/vault" "board.canvas" true None
       (fresh small_vault)
     = (thrown (McpError {| mcp_code := InternalError;
                            mcp_message := "Failed to delete canvas: "
                                           +:+ "EPERM: operation not permitted" |}),
        {| files := small_vault;
           log := [ev_fs (op_unlink "/vault/board.canvas") false;
                   ev_fs (op_access "/vault/board.canvas") true] |}).
Proof.
  split.
  - exact (proj1 (proj2 (delete_canvas_permanently posix spec_utils (steady 0) "/vault"
                           "board.canvas" None (fresh small_vault) eq_refl))
             empty_canvas_text eq_refl (fun n => eq_refl)).
  - exact (proj2 (proj2 (delete_canvas_permanently posix spec_utils removal_fails "/vault"
                           "board.canvas" None (fresh small_vault) eq_refl))
             empty_canvas_text eq_refl (fun n => ex_intro _ _ eq_refl)).
Defined.

(** X17: when the canvas was moved to the trash and the sidecar cannot be
    written, the handler of [moveCanvasToTrash] removes the canvas from
    the trash: the call fails with the file-system error for [move canvas
    to trash], and the canvas is neither at its path nor in the trash. *)
Theorem failed_sidecar_loses_the_canvas :
  forall (node : NodeRuntime) (utils : RepoUtils) (env : environment)
         (vaultPath canvasRelativePath : string) (reason : option string) (w : world)
         (original : string),
    let fullPath := path_join [vaultPath; canvasRelativePath] in
    let trashPath := path_join [vaultPath; ".trash"] in
    let trashName := trash_name canvasRelativePath (clock env (2 + length (log w))) in
    let trashFilePath := path_join [trashPath; trashName] in
    let trashMetaPath := trashFilePath +:+ ".meta.json" in
    let f := the_fault env (5 + length (log w)) (op_writeFile trashMetaPath) in
    validateVaultPath vaultPath fullPath = None ->
    files w !! fullPath = Some original ->
    works env (op_mkdir trashPath) ->
    works env (op_rename fullPath trashFilePath) ->
    breaks env (op_writeFile trashMetaPath) ->
    works env (op_unlink trashFilePath) ->
    trashFilePath <> fullPath ->
    trashMetaPath <> fullPath ->
    exists w',
      deleteCanvas env vaultPath canvasRelativePath false reason w
      = (thrown (McpError (handleFsError (SystemError (fault_message f))
                             "move canvas to trash")), w')
      /\ files w' !! fullPath = None
      /\ files w' !! trashFilePath = None.
Proof.
  intros node utils env vaultPath canvasRelativePath reason w original.
  apply EdgeFacts.delete_canvas_sidecar_fails.
Qed.

Lemma failed_sidecar_loses_the_canvas_witness :
  exists w',
    @deleteCanvas posix spec_utils sidecar_fails "/vault" "board.canvas" false None
      (fresh small_vault)
    = (thrown (McpError {| mcp_code := InternalError;
                           mcp_message := "Failed to move canvas to trash: "
                                          +:+ "ENOSPC: no space left on device" |}), w')
    /\ files w' !! "/vault/board.canvas" = None
    /\ files w' !! "/vault/.trash/board_2023-11-14T22-13-20-002Z.canvas" = None.
Proof.
  exact (failed_sidecar_loses_the_canvas posix spec_utils sidecar_fails "/vault" "board.canvas"
           None (fresh small_vault) empty_canvas_text eq_refl eq_refl
           (fun n => eq_refl) (fun n => eq_refl) (fun n => ex_intro _ _ eq_refl)
           (fun n => eq_refl)
           ltac:(vm_compute; discriminate) ltac:(vm_compute; discriminate)).
Defined.

(** X18: when the move to the trash itself fails, the call fails with
    the file-system error for [move canvas to trash] and the canvas is
    still at its path with its content. *)
Theorem failed_move_keeps_the_canvas :
  forall (node : NodeRuntime) (utils : RepoUtils) (env : environment)
         (vaultPath canvasRelativePath : string) (reason : option string) (w : world)
         (original : string),
    let fullPath := path_join [vaultPath; canvasRelativePath] in
    let trashPath := path_join [vaultPath; ".trash"] in
    let trashName := trash_name canvasRelativePath (clock env (2 + length (log w))) in
    let trashFilePath := path_join [trashPath; trashName] in
    let trashMetaPath := trashFilePath +:+ ".meta.json" in
    let f := the_fault env (4 + length (log w)) (op_rename fullPath trashFilePath) in
    validateVaultPath vaultPath fullPath = None ->
    files w !! fullPath = Some original ->
    works env (op_mkdir trashPath) ->
    breaks env (op_rename fullPath trashFilePath) ->
    trashFilePath <> fullPath ->
    trashMetaPath <> fullPath ->
    exists w',
      deleteCanvas env vaultPath canvasRelativePath false reason w
      = (thrown (McpError (handleFsError (SystemError (fault_message f))
                             "move canvas to trash")), w')
      /\ files w' !! fullPath = Some original.
Proof.
  intros node utils env vaultPath canvasRelativePath reason w original.
  apply EdgeFacts.delete_canvas_rename_fails.
Qed.

Lemma failed_move_keeps_the_canvas_witness :
  exists w',
    @deleteCanvas posix spec_utils move_fails "/vault" "board.canvas" false None
      (fresh small_vault)
    = (thrown (McpError {| mcp_code := InternalError;
                           mcp_message := "Failed to move canvas to trash: "
                                          +:+ "EXDEV: cross-device link not permitted" |}), w')
    /\ files w' !! "/vault/board.canvas" = Some empty_canvas_text.
Proof.
  exact (failed_move_keeps_the_canvas posix spec_utils move_fails "/vault" "board.canvas"
           None (fresh small_vault) empty_canvas_text eq_refl eq_refl
           (fun n => eq_refl) (fun n => ex_intro _ _ eq_refl)
           ltac:(vm_compute; discriminate) ltac:(vm_compute; discriminate)).
Defined.

(** X19: whatever fails, delete-canvas changes no file other than the
    canvas, the file it becomes in the trash and that file's sidecar. *)
Theorem delete_canvas_touches_only_canvas_and_trash :
  forall (node : NodeRuntime) (utils : RepoUtils) (env : environment)
         (vaultPath canvasRelativePath : string) (permanent : bool) (reason : option string)
         (w : world) (p : string),
    let fullPath := path_join [vaultPath; canvasRelativePath] in
    let trashPath := path_join [vaultPath; ".trash"] in
    let trashName := trash_name canvasRelativePath (clock env (2 + length (log w))) in
    let trashFilePath := path_join [trashPath; trashName] in
    let trashMetaPath := trashFilePath +:+ ".meta.json" in
    p <> fullPath -> p <> trashFilePath -> p <> trashMetaPath ->
    files (snd (deleteCanvas env vaultPath canvasRelativePath permanent reason w)) !! p
    = files w !! p.
Proof.
  intros node utils env vaultPath canvasRelativePath permanent reason w p.
  apply ToolFrames.deleteCanvas_frame.
Qed.

Lemma delete_canvas_touches_only_canvas_and_trash_witness :
  files (snd (@deleteCanvas posix spec_utils sidecar_fails "/vault" "board.canvas" false None
                (fresh small_vault))) !! "/vault/daily.md"
  = Some "# Today".
Proof.
  apply (delete_canvas_touches_only_canvas_and_trash posix spec_utils sidecar_fails "/vault"
           "board.canvas" false None (fresh small_vault) "/vault/daily.md");
    vm_compute; discriminate.
Defined.

(** X20: a canvas that delete-canvas moved to the trash is gone for
    read-canvas: reading the same name in the same folder fails with the
    not-found error.  (The two tools build the path in two ways,
    [path.join(vault, folder, name)] and
    [path.join(vault, path.join(folder, name))]; the statement is for
    arguments on which the two agree, as they do without a folder.) *)
Theorem deleted_canvas_is_not_found :
  forall (node : NodeRuntime) (utils : RepoUtils) (env : environment)
         (args : DeleteCanvasArgs) (vaultPath : string) (w : world) (original : string),
    let canvasRelativePath := canvas_relative_path args in
    let fullPath := path_join [vaultPath; canvasRelativePath] in
    let trashPath := path_join [vaultPath; ".trash"] in
    let trashName := trash_name canvasRelativePath (clock env (2 + length (log w))) in
    let trashFilePath := path_join [trashPath; trashName] in
    let trashMetaPath := trashFilePath +:+ ".meta.json" in
    target_path vaultPath (dc_folder args) (ensureCanvasExtension (dc_filename args)) = fullPath ->
    dc_permanent args = false ->
    validateVaultPath vaultPath fullPath = None ->
    files w !! fullPath = Some original ->
    works env (op_mkdir trashPath) ->
    works env (op_rename fullPath trashFilePath) ->
    works env (op_writeFile trashMetaPath) ->
    trashFilePath <> fullPath ->
    trashMetaPath <> fullPath ->
    exists message w1 w2,
      deleteCanvasTool env args vaultPath w = (returned message, w1)
      /\ readCanvas env vaultPath (dc_filename args) (dc_folder args) w1
         = (thrown (McpError (createCanvasNotFoundError (dc_filename args))), w2).
Proof.
  intros node utils env args vaultPath w original canvasRelativePath fullPath trashPath
         trashName trashFilePath trashMetaPath Hsame Hperm Hpath Hfile Hmkdir Hrename Hwrite
         Hne1 Hne2.
  destruct (TrashFacts.delete_canvas_moves env vaultPath canvasRelativePath (dc_reason args)
              w original Hpath Hfile Hmkdir Hrename Hwrite) as [steps Hrun].
  unfold deleteCanvasTool. rewrite Hperm. fold canvasRelativePath.
  eexists _, _, _. split; [exact Hrun|].
  apply EdgeFacts.read_canvas_missing.
  - rewrite Hsame. exact Hpath.
  - rewrite Hsame. cbn [files].
    rewrite lookup_insert_ne, lookup_insert_ne by assumption. apply lookup_delete_eq.
Qed.

Lemma deleted_canvas_is_not_found_witness :
  let args := {| dc_vault := "main"; dc_filename := "board"; dc_folder := None;
                 dc_reason := None; dc_permanent := false |} in
  exists message w1 w2,
    @deleteCanvasTool posix spec_utils (steady 1700000000000) args "/vault" (fresh small_vault)
    = (returned message, w1)
    /\ @readCanvas posix spec_utils (steady 1700000000000) "/vault" "board" None w1
       = (thrown (McpError {| mcp_code := InvalidRequest;
                              mcp_message := "Canvas not found: board" |}), w2).
Proof.
  intros args.
  exact (deleted_canvas_is_not_found posix spec_utils (steady 1700000000000) args "/vault"
           (fresh small_vault) empty_canvas_text eq_refl eq_refl eq_refl eq_refl
           (fun n => eq_refl) (fun n => eq_refl) (fun n => eq_refl)
           ltac:(vm_compute; discriminate) ltac:(vm_compute; discriminate)).
Defined.

(** ** search-vault *)

(** X21: what a search that succeeds returns.  [success] is set,
    [matchedFiles] is the number of results and [totalMatches] the number
    of their matches; the results are those of the filename search
    followed by those of the content search; a filename result has the
    single match [Filename match: <file>] on line 0, a content result has
    at least one match and all its matches are on lines numbered from 1;
    so no result is empty and [matchedFiles <= totalMatches]. *)
Theorem search_results_are_counted :
  forall (node : NodeRuntime) (utils : RepoUtils) (env : environment)
         (vaultPath query : string) (options : SearchVault.SearchOptions) (w w' : world)
         (r : SearchVault.SearchOperationResult),
    SearchVault.searchVault env vaultPath query options w = (returned r, w') ->
    SearchVault.success r = true
    /\ SearchVault.matchedFiles r = length (SearchVault.results r)
    /\ SearchVault.totalMatches r
       = list_sum (map (fun x => length (SearchVault.matches x)) (SearchVault.results r))
    /\ (exists named found,
          SearchVault.results r = named ++ found
          /\ Forall filename_hit named
          /\ Forall content_hit found
          /\ (SearchVault.searchType options = SearchVault.content -> named = [])
          /\ (SearchVault.searchType options = SearchVault.filename -> found = []))
    /\ (SearchVault.matchedFiles r <= SearchVault.totalMatches r)%nat.
Proof.
  intros node utils env vaultPath query options w w' r Hrun.
  destruct (normalizePath vaultPath) as [e|normalized] eqn:Hn.
  { unfold SearchVault.searchVault, try_catch in Hrun. rewrite Hn in Hrun.
    unfold throw, rethrow in Hrun. destruct (instanceof_McpError e); discriminate. }
  destruct (SearchFacts.gather_returns env normalized query options w) as (rs & errors & w1 & Hg).
  rewrite (SearchFacts.searchVault_concludes env vaultPath normalized query options w
             rs errors w1 Hn Hg) in Hrun.
  destruct (SearchResults.gather_hits env normalized query options w rs errors w1 Hg)
    as (named & found & Hrs & Hnamed & Hfound & Hn1 & Hn2).
  assert (SearchVault.results r = rs
          /\ SearchVault.success r = true
          /\ SearchVault.matchedFiles r = length rs
          /\ SearchVault.totalMatches r = SearchVault.count_matches rs) as (Hr & Hs & Hm & Ht).
  { destruct rs, errors; try discriminate; injection Hrun as <- _; repeat split. }
  rewrite Hr, Hs, Hm, Ht. split; [reflexivity|]. split; [reflexivity|].
  split; [apply SearchResults.count_matches_sum|]. split.
  - exists named, found. repeat split; try assumption.
    + intros Htype. apply Hn1. now rewrite Htype.
    + intros Htype. apply Hn2. now rewrite Htype.
  - apply SearchResults.count_matches_least. rewrite Hrs. apply Forall_app. split.
    + eapply List.Forall_impl; [|exact Hnamed]. intros x Hx. rewrite Hx. discriminate.
    + eapply List.Forall_impl; [|exact Hfound]. intros x [Hx _]. exact Hx.
Qed.

Lemma search_results_are_counted_witness :
  exists r w',
    @SearchVault.searchVault posix spec_utils (steady 0) "/vault" "hello"
      (search_for "hello" SearchVault.content) (fresh notes_vault) = (returned r, w')
    /\ SearchVault.matchedFiles r = 2%nat
    /\ SearchVault.totalMatches r = 2%nat
    /\ (SearchVault.matchedFiles r <= SearchVault.totalMatches r)%nat.
Proof.
  eexists _, _. split; [vm_compute; reflexivity|].
  split; [reflexivity|]. split; [reflexivity|].
  refine (proj2 (proj2 (proj2 (proj2
            (search_results_are_counted posix spec_utils (steady 0) "/vault" "hello"
               (search_for "hello" SearchVault.content) (fresh notes_vault) _ _ _))))).
  vm_compute. reflexivity.
Defined.

(** X22: the matches of the content search in a file that can be read.
    A match is reported for exactly the lines that match, with the number
    of the line counted from 1 and the line's text trimmed; the file gives
    at most one result, under its vault-relative path, with its matches in
    the order of the lines. *)
Theorem content_matches_carry_line_numbers :
  forall (node : NodeRuntime) (utils : RepoUtils) (env : environment)
         (vaultPath query : string) (options : SearchVault.SearchOptions) (f : string)
         (w : world) (content : string),
    files w !! f = Some content ->
    works env (op_readFile f) ->
    exists found,
      SearchVault.search_file env vaultPath query options f w
      = (returned found, {| files := files w; log := ev_fs (op_readFile f) true :: log w |})
      /\ (forall m,
            In m (flat_map SearchVault.matches found)
            <-> exists k l,
                  nth_error (SearchVault.split_lines content) k = Some l
                  /\ SearchVault.line_matches query options l = true
                  /\ SearchVault.line m = (k + 1)%nat
                  /\ SearchVault.text m = trim l)
      /\ (length found <= 1)%nat
      /\ Forall (fun r =>
                   SearchVault.file r = path_relative vaultPath f
                   /\ SearchVault.matches r <> []
                   /\ StronglySorted
                        (fun a b => (SearchVault.line a < SearchVault.line b)%nat)
                        (SearchVault.matches r)) found.
Proof.
  intros node utils env vaultPath query options f w content Hfile Hread.
  pose proof (SearchResults.collect_matches_In query options
                (SearchVault.split_lines content) 0) as Hin.
  pose proof (SearchResults.collect_matches_ordered query options
                (SearchVault.split_lines content) 0) as Hsorted.
  eexists. split.
  - apply CanvasToolFacts.leads_eq. unfold SearchVault.search_file.
    apply leads_try. call readFile_works. compute_last. split; reflexivity.
  - destruct (SearchVault.collect_matches query options 0 (SearchVault.split_lines content))
      as [|m0 ms] eqn:Hfound.
    + split; [|split; [simpl; lia | constructor]].
      intros m. exact (Hin m).
    + split; [|split; [simpl; lia |]].
      * intros m. cbn [flat_map SearchVault.matches]. rewrite app_nil_r. exact (Hin m).
      * constructor; [|constructor].
        split; [reflexivity|]. split; [discriminate | exact Hsorted].
Qed.

Lemma content_matches_carry_line_numbers_witness :
  exists found,
    @SearchVault.search_file posix spec_utils (steady 0) "/vault" "line"
      (search_for "line" SearchVault.content) "/vault/a.md" (fresh notes_vault)
    = (returned found,
       {| files := notes_vault; log := [ev_fs (op_readFile "/vault/a.md") true] |})
    /\ flat_map SearchVault.matches found
       = [{| SearchVault.line := 2; SearchVault.text := "second line" |}].
Proof.
  destruct (content_matches_carry_line_numbers posix spec_utils (steady 0) "/vault" "line"
              (search_for "line" SearchVault.content) "/vault/a.md" (fresh notes_vault)
              ("hello world" +:+ nl +:+ "second line") eq_refl (fun n => eq_refl))
    as (found & Hrun & _).
  exists found. split; [exact Hrun|].
  vm_compute in Hrun. injection Hrun as <-. reflexivity.
Defined.

(** X23: without [caseSensitive], a search sees of a query that is not a
    tag query only its lower-case form: two such queries that
    [toLowerCase] maps to the same string do the same and return the
    same, whatever the vault holds. *)
Theorem search_ignores_the_case_of_the_query :
  forall (node : NodeRuntime) (utils : RepoUtils) (env : environment)
         (vaultPath query query' : string) (options : SearchVault.SearchOptions) (w : world),
    SearchVault.caseSensitive options = false ->
    SearchVault.isTagSearch query = false ->
    SearchVault.isTagSearch query' = false ->
    toLowerCase query = toLowerCase query' ->
    SearchVault.searchVault env vaultPath query options w
    = SearchVault.searchVault env vaultPath query' options w.
Proof.
  intros node utils env vaultPath query query' options w Hfold Hplain Hplain' Hsame.
  now apply SearchResults.searchVault_lower.
Qed.

Lemma search_ignores_the_case_of_the_query_witness :
  @SearchVault.searchVault posix spec_utils (steady 0) "/vault" "hello"
    (search_for "hello" SearchVault.both) (fresh notes_vault)
  = @SearchVault.searchVault posix spec_utils (steady 0) "/vault" "HeLLo"
      (search_for "hello" SearchVault.both) (fresh notes_vault).
Proof.
  exact (search_ignores_the_case_of_the_query posix spec_utils (steady 0) "/vault"
           "hello" "HeLLo" (search_for "hello" SearchVault.both) (fresh notes_vault)
           eq_refl eq_refl eq_refl eq_refl).
Defined.

(** X24: search-vault only reads: when listing the markdown files changes
    no file, no search changes one, whatever fails. *)
Theorem search_vault_only_reads :
  forall (node : NodeRuntime) (utils : RepoUtils) (env : environment)
         (vaultPath query : string) (options : SearchVault.SearchOptions) (w : world),
    (forall root dir, keeps [] (getAllMarkdownFiles env root dir)) ->
    files (snd (SearchVault.searchVault env vaultPath query options w)) = files w.
Proof.
  intros node utils env vaultPath query options w Hlisting.
  apply map_eq. intros p.
  apply (ToolFrames.keeps_searchVault env Hlisting vaultPath query options w p). simpl. tauto.
Qed.

Lemma search_vault_only_reads_witness :
  files (snd (@SearchVault.searchVault posix spec_utils unreadable_note "/vault" "hello"
                (search_for "hello" SearchVault.both) (fresh notes_vault)))
  = notes_vault.
Proof.
  apply (search_vault_only_reads posix spec_utils unreadable_note "/vault" "hello"
           (search_for "hello" SearchVault.both) (fresh notes_vault)).
  intros root dir w p _. unfold getAllMarkdownFiles, spec_utils, SpecUtils.getAllMarkdownFiles.
  reflexivity.
Defined.

(** ** list-files *)

(** X25: list-files leaves out no visible file: every regular file that
    is reached from the vault's root through directories that could be
    read, by names none of which starts with a dot or is [node_modules],
    is listed under its vault-relative path. *)
Theorem every_visible_file_is_listed :
  forall (node : NodeRuntime) (vaultPath : string) (entries : list ListFiles.Dirent)
         (names : list string),
    ListFiles.reaches_file entries names ->
    Forall ListFiles.visible names ->
    In (path_relative vaultPath (ListFiles.entry_path vaultPath names))
       (ListFiles.listVaultFiles vaultPath (Some entries)).
Proof.
  intros node vaultPath entries names. apply ListComplete.listVaultFiles_complete.
Qed.

Lemma every_visible_file_is_listed_witness :
  In "sub/a.md" (@ListFiles.listVaultFiles posix "/vault" (Some sample_tree)).
Proof.
  apply (every_visible_file_is_listed posix "/vault" sample_tree ["sub"; "a.md"]).
  - eapply ListFiles.reach_below; [right; right; left; reflexivity|].
    apply ListFiles.reach_file. left. reflexivity.
  - repeat constructor; discriminate.
Defined.

(** X26: the answer of the list-files tool.  It says [No files found in
    vault "<name>".] exactly when the vault shows no visible file, which
    is also what it says of a vault whose root cannot be read; otherwise
    it is the line [Files in vault "<name>":] followed by the sorted paths,
    one on each line. *)
Theorem list_files_answer :
  forall (node : NodeRuntime) (vault vaultPath : string) (root : option (list ListFiles.Dirent)),
    let none := "No files found in vault " +:+ dquote +:+ vault +:+ dquote +:+ "." in
    (ListFilesTool.handler vault vaultPath root = none
     <-> ListFiles.listVaultFiles vaultPath root = [])
    /\ (ListFiles.listVaultFiles vaultPath root <> [] ->
        ListFilesTool.handler vault vaultPath root
        = "Files in vault " +:+ dquote +:+ vault +:+ dquote +:+ ":" +:+ nl
          +:+ join nl (ListFiles.listVaultFiles vaultPath root))
    /\ (root = None -> ListFilesTool.handler vault vaultPath root = none)
    /\ (forall entries,
          root = Some entries ->
          (ListFilesTool.handler vault vaultPath root = none
           <-> forall names, ListFiles.reaches_file entries names ->
                             ~ Forall ListFiles.visible names)).
Proof.
  intros node vault vaultPath root none.
  assert (ListFilesTool.handler vault vaultPath root = none
          <-> ListFiles.listVaultFiles vaultPath root = []) as Hnone.
  { unfold ListFilesTool.handler, none.
    destruct (ListFiles.listVaultFiles vaultPath root) as [|p ps]; cbn [length Nat.ltb Nat.leb].
    - split; reflexivity.
    - split; discriminate. }
  split; [exact Hnone|]. split; [|split].
  - intros Hsome. unfold ListFilesTool.handler.
    destruct (ListFiles.listVaultFiles vaultPath root) as [|p ps]; [congruence | reflexivity].
  - intros ->. apply Hnone. reflexivity.
  - intros entries ->. rewrite Hnone. split.
    + intros Hempty names Hreach Hvis.
      pose proof (ListComplete.listVaultFiles_complete vaultPath entries names Hreach Hvis)
        as Hin.
      rewrite Hempty in Hin. destruct Hin.
    + intros Hno.
      destruct (ListFiles.listVaultFiles vaultPath (Some entries)) as [|p ps] eqn:Hlist;
        [reflexivity|].
      assert (In p (ListFiles.listVaultFiles vaultPath (Some entries))) as Hp
        by (rewrite Hlist; now left).
      unfold ListFiles.listVaultFiles in Hp. apply (proj1 (ListFacts.In_sort _ _)) in Hp.
      apply ListFacts.listFilesRecursive_sound in Hp as (names & Hreach & Hvis & _);
        [|simpl; auto].
      destruct (Hno names Hreach Hvis).
Qed.

Lemma list_files_answer_witness :
  @ListFilesTool.handler posix "main" "/vault" (Some sample_tree)
  = "Files in vault " +:+ quoted "main" +:+ ":" +:+ nl
    +:+ "a.md" +:+ nl +:+ "b.md" +:+ nl +:+ "sub/a.md".
Proof.
  refine (eq_trans
            (proj1 (proj2 (list_files_answer posix "main" "/vault" (Some sample_tree))) _) _).
  - vm_compute. discriminate.
  - vm_compute. reflexivity.
Defined.

(** X27: a [path] option that the vault refuses: when [safeJoinPath]
    throws an MCP error for the subfolder, every sub-search that the
    search type asks for fails with it, no listing and no read is made,
    and the search fails hard with the message [Search failed:] followed
    by one line for each of these sub-searches. *)
Theorem search_in_a_refused_folder_fails :
  forall (node : NodeRuntime) (utils : RepoUtils) (env : environment)
         (vaultPath normalized query : string) (options : SearchVault.SearchOptions)
         (w : world) (e : mcp_error),
    normalizePath vaultPath = inr normalized ->
    truthy (SearchVault.path options) = true ->
    safeJoinPath normalized (js_string (SearchVault.path options)) = inl (McpError e) ->
    let filename_line := "Filename search error: " +:+ error_message (McpError e) in
    let content_line := "Content search error: " +:+ error_message (McpError e) in
    SearchVault.searchVault env vaultPath query options w
    = (thrown (McpError {|
         mcp_code := InternalError;
         mcp_message :=
           "Search failed:" +:+ nl
           +:+ join nl match SearchVault.searchType options with
                       | SearchVault.filename => [filename_line]
                       | SearchVault.content => [content_line]
                       | SearchVault.both => [filename_line; content_line]
                       end |}), w).
Proof.
  intros node utils env vaultPath normalized query options w e Hn Hpath Hjoin
         filename_line content_line.
  assert (forall w0, SearchVault.searchFilenames env normalized query options w0
                     = (thrown (McpError e), w0)) as Hnames.
  { intros w0. unfold SearchVault.searchFilenames, SearchVault.search_dir, try_catch, bind.
    rewrite Hpath, Hjoin. reflexivity. }
  assert (forall w0, SearchVault.searchContent env normalized query options w0
                     = (thrown (McpError e), w0)) as Hcontent.
  { intros w0. unfold SearchVault.searchContent, SearchVault.search_dir, try_catch, bind.
    rewrite Hpath, Hjoin. reflexivity. }
  unfold SearchVault.searchVault, try_catch, bind at 1. rewrite Hn.
  unfold SearchVault.gather, bind, ret.
  destruct (SearchVault.searchType options);
    cbn [SearchVault.wants_filename SearchVault.wants_content];
    rewrite ?SearchFacts.sub_search_run, ?Hnames, ?Hcontent; cbn [fst snd];
    rewrite ?SearchFacts.sub_search_run, ?Hcontent; reflexivity.
Qed.

Lemma search_in_a_refused_folder_fails_witness :
  @SearchVault.searchVault posix spec_utils (steady 0) "/vault" "hello"
    {| SearchVault.path := Some "../elsewhere"; SearchVault.caseSensitive := false;
       SearchVault.searchType := SearchVault.both |} (fresh notes_vault)
  = (thrown (McpError {|
       mcp_code := InternalError;
       mcp_message :=
         "Search failed:" +:+ nl
         +:+ "Filename search error: MCP error -32600: Path must be within the vault directory"
         +:+ nl
         +:+ "Content search error: MCP error -32600: Path must be within the vault directory"
       |}), fresh notes_vault).
Proof.
  exact (search_in_a_refused_folder_fails posix spec_utils (steady 0) "/vault" "/vault" "hello"
           {| SearchVault.path := Some "../elsewhere"; SearchVault.caseSensitive := false;
              SearchVault.searchType := SearchVault.both |} (fresh notes_vault)
           {| mcp_code := InvalidRequest;
              mcp_message := "Path must be within the vault directory" |}
           eq_refl eq_refl eq_refl).
Defined.
